(** * TinyOLEDdemo: bit-banged I2C master and OLED glyph rendering

    A shallow embedding of the two firmware variants of the repository:

    - [Text]: [software/main.c] (ATtiny13, 5x8 ASCII font, strings);
    - [Big]:  [software/TinyOLEDdemo_t10_bignumbers/main.c] (ATtiny10,
      stretched 3x8 hexadecimal digits, 24-bit counter).

    The firmware talks to the outside world through two I/O registers of
    port B.  The model keeps those registers, records every write to them
    (together with the register contents right after the write) and every
    read from program memory, and runs the C functions in a small
    state-and-failure monad.  Failure stands for a read outside a constant
    table, which the C code does not guard against. *)

From Stdlib Require Import String Ascii ZArith List Lia Bool.
Import ListNotations.
Open Scope Z_scope.

(* ================================================================== *)
(** * Part I: definitions *)
(* ================================================================== *)

(** ** The microcontroller as seen by the firmware *)

Module AVR.

(** Fixed-width integer conversions of the C code. *)
Definition to_u8 (x : Z) : Z := x mod 256.
Definition to_u16 (x : Z) : Z := x mod 65536.
(** [char] is a signed 8-bit type with avr-gcc's defaults. *)
Definition to_char (x : Z) : Z :=
  let y := to_u8 x in if y <? 128 then y else y - 256.
(** A C scalar used as a condition. *)
Definition c_true (x : Z) : bool := negb (x =? 0).

(** Port B bit numbers from <avr/io.h>. *)
Definition PB0 : Z := 0.
Definition PB2 : Z := 2.

(** The statements of the firmware that write an I/O register: the four
    pin macros, and the two register clears of [I2C_init]. *)
Inductive action : Type :=
| SDA_LOW | SDA_HIGH | SCL_LOW | SCL_HIGH
| INIT_DDRB | INIT_PORTB.

(** One register write: which statement, and both registers after it. *)
Record pin_event : Type := mkEv
  { ev_act : action; ev_DDRB : Z; ev_PORTB : Z }.

(** Constant objects in program memory. *)
Inductive flash_obj : Type := INIT_CMD | FONT | STR.

(** One [pgm_read_byte]: object, index, value read. *)
Record fetch_event : Type := mkFetch
  { f_obj : flash_obj; f_idx : Z; f_val : Z }.

Record mcu : Type := mkMCU
  { DDRB : Z;                      (* data direction register *)
    PORTB : Z;                     (* output latch *)
    PINB : nat -> Z;               (* value of the k-th read of PINB *)
    pin_reads : nat;               (* number of reads of PINB so far *)
    trace : list pin_event;        (* register writes, oldest first *)
    fetched : list fetch_event }.  (* program-memory reads, oldest first *)

(** State-and-failure monad. *)
Definition M (A : Type) : Type := mcu -> option (A * mcu).

Definition ret {A} (a : A) : M A := fun st => Some (a, st).
Definition fail {A} : M A := fun _ => None.
Definition bind {A B} (m : M A) (k : A -> M B) : M B :=
  fun st => match m st with
            | Some (a, st') => k a st'
            | None => None
            end.

Definition when (c : bool) (m : M unit) : M unit :=
  if c then m else ret tt.

(** [DDRB = f(DDRB)], stored as 8 bits. *)
Definition update_DDRB (a : action) (f : Z -> Z) : M unit :=
  fun st =>
    let v := to_u8 (f (DDRB st)) in
    Some (tt, mkMCU v (PORTB st) (PINB st) (pin_reads st)
                    (trace st ++ [mkEv a v (PORTB st)]) (fetched st)).

(** [PORTB = f(PORTB)], stored as 8 bits. *)
Definition update_PORTB (a : action) (f : Z -> Z) : M unit :=
  fun st =>
    let v := to_u8 (f (PORTB st)) in
    Some (tt, mkMCU (DDRB st) v (PINB st) (pin_reads st)
                    (trace st ++ [mkEv a (DDRB st) v]) (fetched st)).

(** Reading the volatile input register. *)
Definition read_PINB : M Z :=
  fun st =>
    Some (PINB st (pin_reads st),
          mkMCU (DDRB st) (PORTB st) (PINB st) (S (pin_reads st))
                (trace st) (fetched st)).

(** Book-keeping of one program-memory read. *)
Definition log_fetch (o : flash_obj) (idx v : Z) : M Z :=
  fun st =>
    Some (v, mkMCU (DDRB st) (PORTB st) (PINB st) (pin_reads st)
                   (trace st) (fetched st ++ [mkFetch o idx v])).

(** [pgm_read_byte(&tbl[idx])]: a read outside the object fails. *)
Definition pgm_read_byte (o : flash_obj) (tbl : list Z) (idx : Z) : M Z :=
  if (0 <=? idx) && (idx <? Z.of_nat (length tbl))
  then log_fetch o idx (nth (Z.to_nat idx) tbl 0)
  else fail.

(** [pgm_read_byte(p)] through a pointer: [p] is the content of program
    memory from the pointer to the end of the object it points into,
    [idx] the distance of the pointer from the start of that object. *)
Definition pgm_read_ptr (o : flash_obj) (p : list Z) (idx : Z) : M Z :=
  match p with
  | [] => fail
  | v :: _ => log_fetch o idx v
  end.

(** A loop whose body does not use the loop counter, run [n] times. *)
Fixpoint repeatM (n : nat) (body : M unit) : M unit :=
  match n with
  | O => ret tt
  | S n' => bind body (fun _ => repeatM n' body)
  end.

(** [for (i = lo; i < lo + n; i++) body(i)]. *)
Fixpoint for_up (n : nat) (i : Z) (body : Z -> M unit) : M unit :=
  match n with
  | O => ret tt
  | S n' => bind (body i) (fun _ => for_up n' (i + 1) body)
  end.

(** A string literal as the bytes the compiler stores: the character
    codes followed by the terminator. *)
Definition c_string (s : string) : list Z :=
  map (fun c => Z.of_nat (nat_of_ascii c)) (list_ascii_of_string s) ++ [0].

End AVR.

Import AVR.

Declare Scope avr_scope.
Delimit Scope avr_scope with avr.
Notation "x <- m ;; k" := (bind m (fun x => k))
  (at level 61, m at next level, right associativity) : avr_scope.
Notation "m ;; k" := (bind m (fun _ => k))
  (at level 61, right associativity) : avr_scope.
Open Scope avr_scope.

(** ** The pin macros (the same in both source files) *)

Module Pins.

Definition I2C_SDA : Z := PB0.
Definition I2C_SCL : Z := PB2.

(** [DDRB &= ~(1<<I2C_SDA)]: release SDA, pulled HIGH by the resistor. *)
Definition I2C_SDA_HIGH : M unit :=
  update_DDRB SDA_HIGH (fun d => Z.land d (Z.lnot (Z.shiftl 1 I2C_SDA))).
(** [DDRB |= (1<<I2C_SDA)]: SDA as output, pulled LOW by the MCU. *)
Definition I2C_SDA_LOW : M unit :=
  update_DDRB SDA_LOW (fun d => Z.lor d (Z.shiftl 1 I2C_SDA)).
(** [DDRB &= ~(1<<I2C_SCL)]: release SCL. *)
Definition I2C_SCL_HIGH : M unit :=
  update_DDRB SCL_HIGH (fun d => Z.land d (Z.lnot (Z.shiftl 1 I2C_SCL))).
(** [DDRB |= (1<<I2C_SCL)]: SCL as output. *)
Definition I2C_SCL_LOW : M unit :=
  update_DDRB SCL_LOW (fun d => Z.lor d (Z.shiftl 1 I2C_SCL)).
(** [PINB & (1<<I2C_SDA)]. *)
Definition I2C_SDA_READ : M Z :=
  p <- read_PINB ;; ret (Z.land p (Z.shiftl 1 I2C_SDA)).

(** The two statements of [I2C_init]. *)
Definition I2C_init_DDRB : M unit :=
  update_DDRB INIT_DDRB
    (fun d => Z.land d (Z.lnot (Z.lor (Z.shiftl 1 I2C_SDA) (Z.shiftl 1 I2C_SCL)))).
Definition I2C_init_PORTB : M unit :=
  update_PORTB INIT_PORTB
    (fun p => Z.land p (Z.lnot (Z.lor (Z.shiftl 1 I2C_SDA) (Z.shiftl 1 I2C_SCL)))).

End Pins.

Import Pins.

(** ** [software/main.c]: the text variant *)

Module Text.

Definition OLED_ADDR : Z := 0x78.
Definition OLED_HEIGHT : Z := 32.
Definition OLED_INIT_LEN : nat := 18.

Definition OLED_INIT_CMD : list Z :=
  [ 0xA8; 0x1F;
    0x22; 0x00; 0x03;
    0x20; 0x00;
    0xD3; 0x00;
    0xDA; 0x02;
    0xDB; 0x40;
    0xD9; 0xF1;
    0x8D; 0x14;
    0xAF;
    0xA1; 0xC8 ].

Definition OLED_font : list Z :=
  [ 0x00; 0x00; 0x00; 0x00; 0x00;
    0x00; 0x00; 0x2f; 0x00; 0x00;
    0x00; 0x07; 0x00; 0x07; 0x00;
    0x14; 0x7f; 0x14; 0x7f; 0x14;
    0x24; 0x2a; 0x7f; 0x2a; 0x12;
    0x62; 0x64; 0x08; 0x13; 0x23;
    0x36; 0x49; 0x55; 0x22; 0x50;
    0x00; 0x05; 0x03; 0x00; 0x00;
    0x00; 0x1c; 0x22; 0x41; 0x00;
    0x00; 0x41; 0x22; 0x1c; 0x00;
    0x14; 0x08; 0x3E; 0x08; 0x14;
    0x08; 0x08; 0x3E; 0x08; 0x08;
    0x00; 0x00; 0xA0; 0x60; 0x00;
    0x08; 0x08; 0x08; 0x08; 0x08;
    0x00; 0x60; 0x60; 0x00; 0x00;
    0x20; 0x10; 0x08; 0x04; 0x02;
    0x3E; 0x51; 0x49; 0x45; 0x3E;
    0x00; 0x42; 0x7F; 0x40; 0x00;
    0x42; 0x61; 0x51; 0x49; 0x46;
    0x21; 0x41; 0x45; 0x4B; 0x31;
    0x18; 0x14; 0x12; 0x7F; 0x10;
    0x27; 0x45; 0x45; 0x45; 0x39;
    0x3C; 0x4A; 0x49; 0x49; 0x30;
    0x01; 0x71; 0x09; 0x05; 0x03;
    0x36; 0x49; 0x49; 0x49; 0x36;
    0x06; 0x49; 0x49; 0x29; 0x1E;
    0x00; 0x36; 0x36; 0x00; 0x00;
    0x00; 0x56; 0x36; 0x00; 0x00;
    0x08; 0x14; 0x22; 0x41; 0x00;
    0x14; 0x14; 0x14; 0x14; 0x14;
    0x00; 0x41; 0x22; 0x14; 0x08;
    0x02; 0x01; 0x51; 0x09; 0x06;
    0x32; 0x49; 0x59; 0x51; 0x3E;
    0x7C; 0x12; 0x11; 0x12; 0x7C;
    0x7F; 0x49; 0x49; 0x49; 0x36;
    0x3E; 0x41; 0x41; 0x41; 0x22;
    0x7F; 0x41; 0x41; 0x22; 0x1C;
    0x7F; 0x49; 0x49; 0x49; 0x41;
    0x7F; 0x09; 0x09; 0x09; 0x01;
    0x3E; 0x41; 0x49; 0x49; 0x7A;
    0x7F; 0x08; 0x08; 0x08; 0x7F;
    0x00; 0x41; 0x7F; 0x41; 0x00;
    0x20; 0x40; 0x41; 0x3F; 0x01;
    0x7F; 0x08; 0x14; 0x22; 0x41;
    0x7F; 0x40; 0x40; 0x40; 0x40;
    0x7F; 0x02; 0x0C; 0x02; 0x7F;
    0x7F; 0x04; 0x08; 0x10; 0x7F;
    0x3E; 0x41; 0x41; 0x41; 0x3E;
    0x7F; 0x09; 0x09; 0x09; 0x06;
    0x3E; 0x41; 0x51; 0x21; 0x5E;
    0x7F; 0x09; 0x19; 0x29; 0x46;
    0x46; 0x49; 0x49; 0x49; 0x31;
    0x01; 0x01; 0x7F; 0x01; 0x01;
    0x3F; 0x40; 0x40; 0x40; 0x3F;
    0x1F; 0x20; 0x40; 0x20; 0x1F;
    0x3F; 0x40; 0x38; 0x40; 0x3F;
    0x63; 0x14; 0x08; 0x14; 0x63;
    0x07; 0x08; 0x70; 0x08; 0x07;
    0x61; 0x51; 0x49; 0x45; 0x43;
    0x00; 0x7F; 0x41; 0x41; 0x00;
    0x02; 0x04; 0x08; 0x10; 0x20;
    0x00; 0x41; 0x41; 0x7F; 0x00;
    0x04; 0x02; 0x01; 0x02; 0x04;
    0x40; 0x40; 0x40; 0x40; 0x40 ].

Definition Message1 : list Z := c_string "HELLO WORLD !".
Definition Message2 : list Z := c_string "ATTINY13 GOES OLED !".

Definition I2C_init : M unit :=
  I2C_init_DDRB ;;
  I2C_init_PORTB.

Definition I2C_start : M unit :=
  I2C_SDA_LOW ;;
  I2C_SCL_LOW.

Definition I2C_stop : M unit :=
  I2C_SDA_LOW ;;
  I2C_SCL_HIGH ;;
  I2C_SDA_HIGH.

(** [for(uint8_t i = 8; i; i--, data<<=1) { ... }] *)
Fixpoint I2C_write_loop (i : nat) (data : Z) : M unit :=
  match i with
  | O => ret tt
  | S i' =>
      I2C_SDA_LOW ;;
      when (c_true (Z.land data 0x80)) I2C_SDA_HIGH ;;
      I2C_SCL_HIGH ;;
      I2C_SCL_LOW ;;
      I2C_write_loop i' (to_u8 (Z.shiftl data 1))
  end.

Definition I2C_write (data : Z) : M unit :=
  I2C_write_loop 8 data ;;
  I2C_SDA_HIGH ;;
  I2C_SCL_HIGH ;;
  I2C_SCL_LOW.

(** [for(uint8_t i = 8; i; i--) { ... }] of [I2C_read]. *)
Fixpoint I2C_read_loop (i : nat) (data : Z) : M Z :=
  match i with
  | O => ret data
  | S i' =>
      let data := to_u8 (Z.shiftl data 1) in
      I2C_SCL_HIGH ;;
      s <- I2C_SDA_READ ;;
      let data := if c_true s then to_u8 (Z.lor data 1) else data in
      I2C_SCL_LOW ;;
      I2C_read_loop i' data
  end.

(** [ack] is a [uint8_t] parameter: what the body tests is the argument
    converted to 8 bits. *)
Definition I2C_read (ack : Z) : M Z :=
  I2C_SDA_HIGH ;;
  data <- I2C_read_loop 8 0 ;;
  when (c_true (to_u8 ack)) I2C_SDA_LOW ;;
  I2C_SCL_HIGH ;;
  I2C_SCL_LOW ;;
  I2C_SDA_HIGH ;;
  ret data.

Definition OLED_init : M unit :=
  I2C_init ;;
  I2C_start ;;
  I2C_write OLED_ADDR ;;
  I2C_write 0x00 ;;
  for_up OLED_INIT_LEN 0
    (fun i => b <- pgm_read_byte INIT_CMD OLED_INIT_CMD i ;; I2C_write b) ;;
  I2C_stop.

(** [for(uint8_t i=5; i; i--, offset++) I2C_write(pgm_read_byte(&OLED_font[offset]))] *)
Fixpoint OLED_printC_loop (i : nat) (offset : Z) : M unit :=
  match i with
  | O => ret tt
  | S i' =>
      b <- pgm_read_byte FONT OLED_font offset ;;
      I2C_write b ;;
      OLED_printC_loop i' (to_u16 (offset + 1))
  end.

(** [uint16_t offset = (ch - 32) * 5]: computed in [int], stored in 16 bits. *)
Definition OLED_printC_offset (ch : Z) : Z := to_u16 ((ch - 32) * 5).

Definition OLED_printC (ch : Z) : M unit :=
  let offset := OLED_printC_offset ch in
  I2C_write 0x00 ;;
  OLED_printC_loop 5 offset.

(** The [while (ch != 0)] loop of [OLED_printP]; each round begins with
    the [pgm_read_byte] that produces [ch], and [++p] drops the byte
    just read. *)
Fixpoint OLED_printP_loop (p : list Z) (idx : Z) : M unit :=
  c <- pgm_read_ptr STR p idx ;;
  let ch := to_char c in
  if ch =? 0 then ret tt
  else
    OLED_printC ch ;;
    match p with
    | [] => fail
    | _ :: p' => OLED_printP_loop p' (idx + 1)
    end.

Definition OLED_printP (p : list Z) : M unit :=
  I2C_start ;;
  I2C_write OLED_ADDR ;;
  I2C_write 0x40 ;;
  OLED_printP_loop p 0 ;;
  I2C_stop.

Definition OLED_cursor (xpos ypos : Z) : M unit :=
  I2C_start ;;
  I2C_write OLED_ADDR ;;
  I2C_write 0x00 ;;
  I2C_write (Z.land xpos 0x0F) ;;
  I2C_write (Z.lor 0x10 (Z.shiftr xpos 4)) ;;
  I2C_write (Z.lor 0xB0 (Z.land ypos 0x07)) ;;
  I2C_stop.

Definition OLED_clear : M unit :=
  OLED_cursor 0 0 ;;
  I2C_start ;;
  I2C_write OLED_ADDR ;;
  I2C_write 0x40 ;;
  repeatM 512 (I2C_write 0x00) ;;
  I2C_stop.

(** [_delay_ms]: busy waiting; the registers are left alone. *)
Definition _delay_ms (ms : Z) : M unit := ret tt.

(** [main] before its loop. *)
Definition main_setup : M unit :=
  OLED_init ;;
  OLED_clear.

(** Lines 257-263: the two messages. *)
Definition main_messages : M unit :=
  OLED_cursor 20 0 ;;
  OLED_printP Message1 ;;
  _delay_ms 1000 ;;
  OLED_cursor 5 2 ;;
  OLED_printP Message2 ;;
  _delay_ms 5000.

(** Lines 265-272: all characters, [for(uint8_t i=32; i<64+32; i++)]. *)
Definition main_all_chars : M unit :=
  OLED_cursor 0 0 ;;
  I2C_start ;;
  I2C_write OLED_ADDR ;;
  I2C_write 0x40 ;;
  for_up 64 32 (fun i => OLED_printC (to_char i)) ;;
  I2C_stop ;;
  _delay_ms 5000.

(** Lines 274-283: scrolling the text out, [for (uint8_t i=0; i<32; i++)]. *)
Definition main_scroll : M unit :=
  for_up 32 0
    (fun i =>
       I2C_start ;;
       I2C_write OLED_ADDR ;;
       I2C_write 0x00 ;;
       I2C_write 0xD3 ;;
       I2C_write i ;;
       I2C_stop ;;
       _delay_ms 100).

(** Lines 284-290: clearing the screen and resetting the shift. *)
Definition main_reset : M unit :=
  OLED_clear ;;
  I2C_start ;;
  I2C_write OLED_ADDR ;;
  I2C_write 0x00 ;;
  I2C_write 0xD3 ;;
  I2C_write 0x00 ;;
  I2C_stop.

(** One round of the [while(1)] loop. *)
Definition main_body : M unit :=
  main_messages ;;
  main_all_chars ;;
  main_scroll ;;
  main_reset.

(** [n] rounds of the loop. *)
Fixpoint main_loop (n : nat) : M unit :=
  match n with
  | O => ret tt
  | S n' => main_body ;; main_loop n'
  end.

(** [main] up to the [n]-th round of its endless loop. *)
Definition main (n : nat) : M unit :=
  main_setup ;;
  main_loop n.

End Text.

(** ** [software/TinyOLEDdemo_t10_bignumbers/main.c]: the big-digit variant *)

Module Big.

Definition OLED_ADDR : Z := 0x78.
Definition OLED_CMD_MODE : Z := 0x00.
Definition OLED_DAT_MODE : Z := 0x40.
Definition OLED_INIT_LEN : nat := 15.

Definition OLED_INIT_CMD : list Z :=
  [ 0xA8; 0x1F;
    0x22; 0x00; 0x03;
    0x20; 0x01;
    0xDA; 0x02;
    0x8D; 0x14;
    0xAF;
    0x00; 0x10; 0xB0;
    0xA1; 0xC8 ].

Definition OLED_FONT : list Z :=
  [ 0x7F; 0x41; 0x7F;
    0x00; 0x00; 0x7F;
    0x79; 0x49; 0x4F;
    0x41; 0x49; 0x7F;
    0x0F; 0x08; 0x7E;
    0x4F; 0x49; 0x79;
    0x7F; 0x49; 0x79;
    0x03; 0x01; 0x7F;
    0x7F; 0x49; 0x7F;
    0x4F; 0x49; 0x7F;
    0x7F; 0x09; 0x7F;
    0x7F; 0x48; 0x78;
    0x7F; 0x41; 0x63;
    0x78; 0x48; 0x7F;
    0x7F; 0x49; 0x41;
    0x7F; 0x09; 0x01;
    0x00; 0x60; 0x00;
    0x00; 0x36; 0x00;
    0x08; 0x08; 0x08;
    0x00; 0x00; 0x00 ].

Definition I2C_init : M unit :=
  I2C_init_DDRB ;;
  I2C_init_PORTB.

(** [asm("nop")]: a delay, no effect on the registers. *)
Definition nop : M unit := ret tt.

(** [for(uint8_t i = 8; i; i--) { ... }], the shift inside the body. *)
Fixpoint I2C_write_loop (i : nat) (data : Z) : M unit :=
  match i with
  | O => ret tt
  | S i' =>
      I2C_SDA_LOW ;;
      when (c_true (Z.land data 0x80)) I2C_SDA_HIGH ;;
      I2C_SCL_HIGH ;;
      let data := to_u8 (Z.shiftl data 1) in
      I2C_SCL_LOW ;;
      I2C_write_loop i' data
  end.

Definition I2C_write (data : Z) : M unit :=
  I2C_write_loop 8 data ;;
  I2C_SDA_HIGH ;;
  I2C_SCL_HIGH ;;
  nop ;;
  I2C_SCL_LOW.

Definition I2C_start (addr : Z) : M unit :=
  I2C_SDA_LOW ;;
  I2C_SCL_LOW ;;
  I2C_write addr.

Definition I2C_stop : M unit :=
  I2C_SDA_LOW ;;
  I2C_SCL_HIGH ;;
  I2C_SDA_HIGH.

Definition OLED_init : M unit :=
  I2C_init ;;
  I2C_start OLED_ADDR ;;
  I2C_write OLED_CMD_MODE ;;
  for_up OLED_INIT_LEN 0
    (fun i => b <- pgm_read_byte INIT_CMD OLED_INIT_CMD i ;; I2C_write b) ;;
  I2C_stop.

Definition OLED_stretch (b : Z) : Z :=
  let b := to_u8 (Z.lor (Z.shiftl (Z.land b 2) 3) (Z.land b 1)) in
  let b := to_u8 (Z.lor b (Z.shiftl b 1)) in
  let b := to_u8 (Z.lor b (Z.shiftl b 2)) in
  b.

(** [for(j=0; j<4; j++, b >>= 2) sb[j] = OLED_stretch(b)]: the array [sb]
    is filled from index 0 upwards, [n] entries still to go. *)
Fixpoint OLED_printD_sb (n : nat) (b : Z) : list Z :=
  match n with
  | O => []
  | S n' => OLED_stretch b :: OLED_printD_sb n' (to_u8 (Z.shiftr b 2))
  end.

(** [for(i=3; i; i--) { ... }] of [OLED_printD]; [ch] is the font index. *)
Fixpoint OLED_printD_loop (i : nat) (ch : Z) : M unit :=
  match i with
  | O => ret tt
  | S i' =>
      b <- pgm_read_byte FONT OLED_FONT ch ;;
      let ch := to_u8 (ch + 1) in
      let sb := OLED_printD_sb 4 b in
      let j := if Nat.eqb i 2 then 6%nat else 4%nat in
      repeatM j
        (for_up 4 0 (fun k => I2C_write (nth (Z.to_nat k) sb 0))) ;;
      OLED_printD_loop i' ch
  end.

Definition OLED_printD (ch : Z) : M unit :=
  let ch := to_u8 (ch + Z.shiftl ch 1) in
  repeatM 8 (I2C_write 0x00) ;;
  OLED_printD_loop 3 ch.

Definition OLED_printB (buffer : list Z) : M unit :=
  I2C_start OLED_ADDR ;;
  I2C_write OLED_DAT_MODE ;;
  for_up 8 0 (fun i => OLED_printD (nth (Z.to_nat i) buffer 0)) ;;
  I2C_stop.

(** The local variables of [main]. *)
Record locals : Type := mkLocals
  { buffer : list Z; counter_a : Z; counter_b : Z; counter_c : Z }.

Definition main_locals : locals := mkLocals [0; 0; 17; 0; 0; 16; 0; 0] 0 0 0.

(** [buffer[i] = v]. *)
Fixpoint store (i : nat) (v : Z) (l : list Z) : list Z :=
  match l, i with
  | [], _ => []
  | _ :: t, O => v :: t
  | h :: t, S i' => h :: store i' v t
  end.

(** Lines 205-209: the cascaded counters. *)
Definition main_count (s : locals) : locals :=
  let a := to_u8 (counter_a s + 1) in
  if negb (c_true a) then
    let b := to_u8 (counter_b s + 1) in
    if negb (c_true b) then
      mkLocals (buffer s) a b (to_u8 (counter_c s + 1))
    else mkLocals (buffer s) a b (counter_c s)
  else mkLocals (buffer s) a (counter_b s) (counter_c s).

(** Lines 210-217: the counters written to the screen buffer. *)
Definition main_show (s : locals) : locals :=
  let a := counter_a s in
  let b := counter_b s in
  let c := counter_c s in
  let buf := buffer s in
  let buf := store 7 (Z.land a 0x0F) buf in
  let buf := store 6 (Z.shiftr a 4) buf in
  let buf := store 4 (Z.land b 0x0F) buf in
  let buf := store 3 (Z.shiftr b 4) buf in
  let buf := store 1 (Z.land c 0x0F) buf in
  let buf := store 0 (Z.shiftr c 4) buf in
  let buf := store 2 19 buf in
  let buf := if c_true (Z.land a 0x20) then store 2 17 buf else buf in
  mkLocals buf a b c.

(** One round of the [while(1)] loop. *)
Definition main_body (s : locals) : M locals :=
  OLED_printB (buffer s) ;;
  ret (main_show (main_count s)).

(** [n] rounds of the loop. *)
Fixpoint main_loop (n : nat) (s : locals) : M locals :=
  match n with
  | O => ret s
  | S n' => s' <- main_body s ;; main_loop n' s'
  end.

(** [main] up to the [n]-th round of its endless loop.  The two writes
    that set the clock prescaler touch neither port B nor program memory
    and are left out. *)
Definition main (n : nat) : M locals :=
  OLED_init ;;
  main_loop n main_locals.

End Big.

(** ** The bus as seen from outside: vocabulary of the statements *)

Module Bus.

(** What the port does to one pin: with the direction bit clear the pin is
    an input and the line floats; with it set the pin outputs the latch bit. *)
Inductive drive : Type := Released | DrivenLow | DrivenHigh.

Definition pin_drive (ddrb portb pin : Z) : drive :=
  if Z.testbit ddrb pin
  then (if Z.testbit portb pin then DrivenHigh else DrivenLow)
  else Released.

Definition sda_drive (e : pin_event) : drive :=
  pin_drive (ev_DDRB e) (ev_PORTB e) I2C_SDA.
Definition scl_drive (e : pin_event) : drive :=
  pin_drive (ev_DDRB e) (ev_PORTB e) I2C_SCL.

(** (SDA, SCL) right after a register write. *)
Definition wires (e : pin_event) : drive * drive := (sda_drive e, scl_drive e).

(** Logic level of a line with its pull-up resistor, nobody else pulling. *)
Definition level (d : drive) : bool :=
  match d with DrivenLow => false | _ => true end.

Definition levels (e : pin_event) : bool * bool :=
  (level (sda_drive e), level (scl_drive e)).

Definition mcu_levels (st : mcu) : bool * bool :=
  (level (pin_drive (DDRB st) (PORTB st) I2C_SDA),
   level (pin_drive (DDRB st) (PORTB st) I2C_SCL)).

(** The bus is idle: both lines released, both latch bits LOW. *)
Definition idle (st : mcu) : Prop :=
  Z.testbit (DDRB st) I2C_SDA = false /\ Z.testbit (DDRB st) I2C_SCL = false /\
  Z.testbit (PORTB st) I2C_SDA = false /\ Z.testbit (PORTB st) I2C_SCL = false.

(** Register writes made on the way from [st] to [st']. *)
Definition emitted (st st' : mcu) : list pin_event :=
  skipn (length (trace st)) (trace st').

(** Program-memory reads made on the way from [st] to [st']. *)
Definition fetches (st st' : mcu) : list fetch_event :=
  skipn (length (fetched st)) (fetched st').

(** *** Sequences of pin actions *)

(** One data bit: SDA LOW, released again for a 1, then a clock pulse. *)
Definition bit_ops (bit : bool) : list action :=
  SDA_LOW :: (if bit then [SDA_HIGH] else []) ++ [SCL_HIGH; SCL_LOW].

(** The 9th pulse: SDA released, then a clock pulse. *)
Definition ack_ops : list action := [SDA_HIGH; SCL_HIGH; SCL_LOW].

(** The bit sent at step [i] of byte [b]: [(b << i) & 0x80]. *)
Definition bit_at (b : Z) (i : nat) : bool :=
  c_true (Z.land (Z.shiftl b (Z.of_nat i)) 0x80).

Definition write_ops (b : Z) : list action :=
  flat_map (fun i => bit_ops (bit_at b i)) (seq 0 8) ++ ack_ops.

Definition start_ops : list action := [SDA_LOW; SCL_LOW].
Definition stop_ops : list action := [SDA_LOW; SCL_HIGH; SDA_HIGH].

(** One transaction without the address phase spelled out: START, the
    given bytes, STOP. *)
Definition transaction_ops (bytes : list Z) : list action :=
  start_ops ++ flat_map write_ops bytes ++ stop_ops.

(** Running the pin macros named by a list of actions. *)
Definition run_action (a : action) : M unit :=
  match a with
  | SDA_LOW => I2C_SDA_LOW
  | SDA_HIGH => I2C_SDA_HIGH
  | SCL_LOW => I2C_SCL_LOW
  | SCL_HIGH => I2C_SCL_HIGH
  | INIT_DDRB => I2C_init_DDRB
  | INIT_PORTB => I2C_init_PORTB
  end.

Definition play (a : action) (st : mcu) : mcu :=
  match run_action a st with
  | Some (_, st') => st'
  | None => st
  end.

Definition plays (l : list action) (st : mcu) : mcu :=
  fold_left (fun s a => play a s) l st.

(** *** A receiver on the two lines *)

Inductive symbol : Type := START | STOP | BIT (b : bool).

(** Receiver state: the last levels seen, and the data level sampled at the
    last rising clock edge while the clock is still HIGH. *)
Record rx : Type := mkRx { rx_sda : bool; rx_scl : bool; rx_bit : option bool }.

(** A falling SDA under a HIGH clock is START, a rising one STOP; a bit is
    what SDA held during a whole clock pulse. *)
Definition rx_step (r : rx) (l : bool * bool) : rx * list symbol :=
  let (sda, scl) := l in
  match rx_scl r, scl with
  | true, true =>
      if rx_sda r && negb sda then (mkRx sda scl None, [START])
      else if negb (rx_sda r) && sda then (mkRx sda scl None, [STOP])
      else (mkRx sda scl (rx_bit r), [])
  | true, false =>
      (mkRx sda scl None,
       match rx_bit r with
       | Some b => if Bool.eqb b sda then [BIT b] else []
       | None => []
       end)
  | false, true => (mkRx sda scl (Some sda), [])
  | false, false => (mkRx sda scl None, [])
  end.

Fixpoint receive (r : rx) (ls : list (bool * bool)) : list symbol :=
  match ls with
  | [] => []
  | l :: ls' => let (r', out) := rx_step r l in out ++ receive r' ls'
  end.

(** What a receiver that saw the lines of [st] makes of the writes up to [st']. *)
Definition heard (st st' : mcu) : list symbol :=
  let (sda, scl) := mcu_levels st in
  receive (mkRx sda scl None) (map levels (emitted st st')).

(** Framing: after 8 data bits (first bit = bit 7) comes the acknowledge
    slot, whose level is kept with the byte. *)
Inductive frame : Type := F_START | F_STOP | F_BYTE (v : Z) (ack_level : bool).

Definition byte_of_bits (bits : list bool) : Z :=
  fold_left (fun v (b : bool) => 2 * v + (if b then 1 else 0)) bits 0.

Fixpoint frames_from (acc : list bool) (l : list symbol) : list frame :=
  match l with
  | [] => []
  | START :: l' => F_START :: frames_from [] l'
  | STOP :: l' => F_STOP :: frames_from [] l'
  | BIT b :: l' =>
      if Nat.eqb (length acc) 8
      then F_BYTE (byte_of_bits acc) b :: frames_from [] l'
      else frames_from (acc ++ [b]) l'
  end.

Definition frames (l : list symbol) : list frame := frames_from [] l.

(** A whole write transaction as frames; the master leaves the
    acknowledge slot released. *)
Definition transaction_frames (bytes : list Z) : list frame :=
  F_START :: map (fun v => F_BYTE v true) bytes ++ [F_STOP].

(** Registers after an action, read off the macros themselves. *)
Definition act_regs (a : action) (d p : Z) : Z * Z :=
  let st' := play a (mkMCU d p (fun _ => 0) O [] []) in (DDRB st', PORTB st').

(** The events of a list of actions started from registers [d], [p]. *)
Fixpoint events (l : list action) (d p : Z) : list pin_event :=
  match l with
  | [] => []
  | a :: l' =>
      let (d', p') := act_regs a d p in mkEv a d' p' :: events l' d' p'
  end.

Fixpoint final_regs (l : list action) (d p : Z) : Z * Z :=
  match l with
  | [] => (d, p)
  | a :: l' => let (d', p') := act_regs a d p in final_regs l' d' p'
  end.

(** Appending program-memory reads to the log. *)
Definition fetch_all (fs : list fetch_event) (st : mcu) : mcu :=
  mkMCU (DDRB st) (PORTB st) (PINB st) (pin_reads st) (trace st)
        (fetched st ++ fs).

(** [m] always succeeds, and does to the state exactly this: the pin
    actions [l] and the program-memory reads [fs]. *)
Definition effect (m : M unit) (l : list action) (fs : list fetch_event) : Prop :=
  forall st, m st = Some (tt, fetch_all fs (plays l st)).

(** The levels after an action, the latch bits of both pins being LOW. *)
Definition sim (a : action) (l : bool * bool) : bool * bool :=
  match a with
  | SDA_LOW => (false, snd l)
  | SDA_HIGH => (true, snd l)
  | SCL_LOW => (fst l, false)
  | SCL_HIGH => (fst l, true)
  | INIT_DDRB => (true, true)
  | INIT_PORTB => l
  end.

Fixpoint sims (l : list action) (lv : bool * bool) : list (bool * bool) :=
  match l with
  | [] => []
  | a :: l' => sim a lv :: sims l' (sim a lv)
  end.

(** The receiver fed with the levels a list of actions produces. *)
Fixpoint hear (r : rx) (l : list action) : rx * list symbol :=
  match l with
  | [] => (r, [])
  | a :: l' =>
      let (r1, out1) := rx_step r (sim a (rx_sda r, rx_scl r)) in
      let (r2, out2) := hear r1 l' in
      (r2, out1 ++ out2)
  end.

Definition rx_idle : rx := mkRx true true None.

(** The 8 bits of a byte in the order they are sent. *)
Definition bits (b : Z) : list bool := map (bit_at b) (seq 0 8).

(** The symbols of a run of byte writes. *)
Definition byte_symbols (bytes : list Z) : list symbol :=
  flat_map (fun b => map BIT (bits b) ++ [BIT true]) bytes.

(** Both latch bits of the I2C pins are LOW. *)
Definition latch_low (p : Z) : Prop :=
  Z.testbit p I2C_SDA = false /\ Z.testbit p I2C_SCL = false.

Definition regs_levels (d p : Z) : bool * bool :=
  (level (pin_drive d p I2C_SDA), level (pin_drive d p I2C_SCL)).

(** A line is released or driven LOW, never driven HIGH. *)
Definition open_drain (e : pin_event) : Prop :=
  (sda_drive e = Released \/ sda_drive e = DrivenLow) /\
  (scl_drive e = Released \/ scl_drive e = DrivenLow).

(** *** Glyph streams of the text variant *)

(** [n] consecutive indices from [off]. *)
Fixpoint span (off : Z) (n : nat) : list Z :=
  match n with
  | O => []
  | S n' => off :: span (off + 1) n'
  end.

Definition font_at (i : Z) : Z := nth (Z.to_nat i) Text.OLED_font 0.

(** The bytes [OLED_printC] writes for a character: spacer, then 5 columns. *)
Definition char_stream (ch : Z) : list Z :=
  0 :: map font_at (span ((ch - 32) * 5) 5).

Definition char_fetches (ch : Z) : list fetch_event :=
  map (fun i => mkFetch FONT i (font_at i)) (span ((ch - 32) * 5) 5).

(** The program-memory reads of [OLED_printP] on the characters [cs]
    followed by the terminator, the pointer starting at distance [idx]. *)
Fixpoint string_fetches (idx : Z) (cs : list Z) : list fetch_event :=
  match cs with
  | [] => [mkFetch STR idx 0]
  | c :: cs' => mkFetch STR idx c :: char_fetches c ++ string_fetches (idx + 1) cs'
  end.

(** *** Calls into the I2C engine of [software/main.c] *)

Inductive i2c_call : Type :=
| Call_init | Call_start | Call_stop | Call_write (b : Z) | Call_read (ack : Z).

Definition run_call (c : i2c_call) : M unit :=
  match c with
  | Call_init => Text.I2C_init
  | Call_start => Text.I2C_start
  | Call_stop => Text.I2C_stop
  | Call_write b => Text.I2C_write b
  | Call_read ack => _ <- Text.I2C_read ack ;; ret tt
  end.

Fixpoint run_calls (cs : list i2c_call) : M unit :=
  match cs with
  | [] => ret tt
  | c :: cs' => run_call c ;; run_calls cs'
  end.

(** The registers after reset, nothing logged yet, SDA read as LOW. *)
Definition power_on : mcu := mkMCU 0 0 (fun _ => 0) O [] [].

(** The drive that gives a level when the latch bit is LOW. *)
Definition drive_of_level (lv : bool) : drive :=
  if lv then Released else DrivenLow.

(** The font indices the loop of [OLED_printC] computes, one per round:
    [offset++] in 16 bits. *)
Fixpoint OLED_printC_indices (i : nat) (offset : Z) : list Z :=
  match i with
  | O => []
  | S i' => offset :: OLED_printC_indices i' (to_u16 (offset + 1))
  end.

(** An index inside the 320-byte font table. *)
Definition in_font (i : Z) : Prop := 0 <= i < Z.of_nat (length Text.OLED_font).

(** A run that keeps the latch bits LOW and the lines open-drain. *)
Definition open_drain_run {A} (m : M A) : Prop :=
  forall st, latch_low (PORTB st) ->
    exists a st' evs,
      m st = Some (a, st') /\ latch_low (PORTB st') /\
      trace st' = trace st ++ evs /\ Forall open_drain evs.

(** *** Glyph streams of the big-digit variant *)

(** Byte [k] of the compact glyph of digit [ch]. *)
Definition glyph_byte (ch k : Z) : Z := nth (Z.to_nat (3 * ch + k)) Big.OLED_FONT 0.

(** Four applications of the stretch function: to the byte as it is, and
    shifted right by 2, 4 and 6 bits. *)
Definition stretched (b : Z) : list Z :=
  [ Big.OLED_stretch b; Big.OLED_stretch (Z.shiftr b 2);
    Big.OLED_stretch (Z.shiftr b 4); Big.OLED_stretch (Z.shiftr b 6) ].

(** Following the words of the specification: the stretch function applied
    twice per source byte, to the low 2 bits and to the next 2 bits
    obtained by shifting. *)
Definition stretched_twice (b : Z) : list Z :=
  [ Big.OLED_stretch b; Big.OLED_stretch (Z.shiftr b 2) ].

(** The bytes [OLED_printD] writes for a digit. *)
Definition digit_stream (ch : Z) : list Z :=
  repeat 0 8 ++
  concat (repeat (stretched (glyph_byte ch 0)) 4) ++
  concat (repeat (stretched (glyph_byte ch 1)) 6) ++
  concat (repeat (stretched (glyph_byte ch 2)) 4).

Definition digit_fetches (ch : Z) : list fetch_event :=
  [ mkFetch FONT (3 * ch) (glyph_byte ch 0);
    mkFetch FONT (3 * ch + 1) (glyph_byte ch 1);
    mkFetch FONT (3 * ch + 2) (glyph_byte ch 2) ].

(** *** The counters of the big-digit variant *)

(** [n] rounds of the counting statements. *)
Fixpoint main_counts (n : nat) (s : Big.locals) : Big.locals :=
  match n with
  | O => s
  | S n' => main_counts n' (Big.main_count s)
  end.

(** In how many of the next [n] rounds [counter_b] changes. *)
Fixpoint b_increments (n : nat) (s : Big.locals) : nat :=
  match n with
  | O => O
  | S n' =>
      Nat.add
        (if Z.eqb (Big.counter_b (Big.main_count s)) (Big.counter_b s)
         then O else 1%nat)
        (b_increments n' (Big.main_count s))
  end.

(** The three counters read as one 24-bit number. *)
Definition value24 (s : Big.locals) : Z :=
  Big.counter_a s + 256 * Big.counter_b s + 65536 * Big.counter_c s.

(** *** Vocabulary of the further properties *)

(** The state with [n] more reads of the input register counted. *)
Definition add_reads (n : nat) (st : mcu) : mcu :=
  mkMCU (DDRB st) (PORTB st) (PINB st) (n + pin_reads st) (trace st) (fetched st).

(** The level of SDA found by the [k]-th of the coming reads of PINB. *)
Definition sample (st : mcu) (k : nat) : bool :=
  c_true (Z.land (PINB st (pin_reads st + k)) (Z.shiftl 1 I2C_SDA)).

(** The pin actions of reading a byte. *)
Definition read_ops (ack : Z) : list action :=
  SDA_HIGH :: concat (repeat [SCL_HIGH; SCL_LOW] 8) ++
  (if c_true ack then [SDA_LOW] else []) ++ [SCL_HIGH; SCL_LOW; SDA_HIGH].

(** One round of the loop of [I2C_read] on the byte being assembled. *)
Definition read_step (data : Z) (b : bool) : Z :=
  let data := to_u8 (Z.shiftl data 1) in
  if b then to_u8 (Z.lor data 1) else data.

(** The port B pins the engine has no business with. *)
Definition other_pins : list Z := [1; 3; 4; 5; 6; 7].

(** Direction and latch bits of the other pins are the same in both states. *)
Definition same_other_pins (st st' : mcu) : Prop :=
  map (Z.testbit (DDRB st')) other_pins = map (Z.testbit (DDRB st)) other_pins /\
  map (Z.testbit (PORTB st')) other_pins = map (Z.testbit (PORTB st)) other_pins.

(** A run that always returns and leaves the other pins alone. *)
Definition other_pins_run {A} (m : M A) : Prop :=
  forall st, exists a st', m st = Some (a, st') /\ same_other_pins st st'.

(** A value that fits a byte. *)
Definition is_byte (b : Z) : Prop := 0 <= b < 256.
Definition is_byteb (b : Z) : bool := (0 <=? b) && (b <? 256).

(** A character of the 5x8 font. *)
Definition in_charset (c : Z) : Prop := 32 <= c <= 95.

(** Reads of a table at [n] consecutive indices from [off]. *)
Definition table_fetches (o : flash_obj) (tbl : list Z) (off : Z) (n : nat)
  : list fetch_event :=
  map (fun i => mkFetch o i (nth (Z.to_nat i) tbl 0)) (span off n).

(** The transactions of [main] of [software/main.c] before its loop. *)
Definition text_setup_transactions : list (list Z) :=
  [ 0x78 :: 0x00 :: firstn 18 Text.OLED_INIT_CMD;
    [0x78; 0x00; 0x00; 0x10; 0xB0];
    0x78 :: 0x40 :: repeat 0x00 512 ].

(** The transactions of one round of its loop. *)
Definition text_body_transactions : list (list Z) :=
  [ [0x78; 0x00; 0x04; 0x11; 0xB0];
    0x78 :: 0x40 :: flat_map char_stream (removelast Text.Message1);
    [0x78; 0x00; 0x05; 0x10; 0xB2];
    0x78 :: 0x40 :: flat_map char_stream (removelast Text.Message2);
    [0x78; 0x00; 0x00; 0x10; 0xB0];
    0x78 :: 0x40 :: flat_map char_stream (span 32 64) ] ++
  map (fun i => [0x78; 0x00; 0xD3; i]) (span 0 32) ++
  [ [0x78; 0x00; 0x00; 0x10; 0xB0];
    0x78 :: 0x40 :: repeat 0x00 512;
    [0x78; 0x00; 0xD3; 0x00] ].

(** The index [OLED_printD] starts reading the font at: [ch += ch << 1]. *)
Definition OLED_printD_index (ch : Z) : Z := to_u8 (ch + Z.shiftl ch 1).

(** One round of [main] of the big-digit variant without the output. *)
Definition main_step (s : Big.locals) : Big.locals :=
  Big.main_show (Big.main_count s).

Fixpoint main_steps (n : nat) (s : Big.locals) : Big.locals :=
  match n with
  | O => s
  | S n' => main_steps n' (main_step s)
  end.

(** A screen buffer [OLED_printB] can print: 8 entries of the font. *)
Definition printable (buf : list Z) : Prop :=
  length buf = 8%nat /\ Forall (fun d => 0 <= d < 20) buf.

(** The locals of [main] of the big-digit variant as its loop keeps
    them: byte counters and a printable buffer with the dot in place. *)
Definition locals_ok (s : Big.locals) : Prop :=
  printable (Big.buffer s) /\ nth 5 (Big.buffer s) 0 = 16 /\
  0 <= Big.counter_a s < 256 /\ 0 <= Big.counter_b s < 256 /\
  0 <= Big.counter_c s < 256.

(** The bytes of one screen refresh. *)
Definition refresh_bytes (buf : list Z) : list Z :=
  0x78 :: 0x40 :: flat_map digit_stream buf.

(** The buffers printed in [n] rounds started with the locals [s]: each
    round prints the buffer as the round before left it. *)
Fixpoint shown (n : nat) (s : Big.locals) : list (list Z) :=
  match n with
  | O => []
  | S n' => Big.buffer s :: shown n' (main_step s)
  end.

(** *** The wires during a byte *)

(** (SDA, SCL) after each register write of the data bits [bs], sent with
    the latch bits LOW from a state where SCL is [scl]: SDA is driven LOW,
    released again for a 1, and holds that while SCL is released and then
    driven LOW. *)
Fixpoint bits_wires (bs : list bool) (scl : drive) : list (drive * drive) :=
  match bs with
  | [] => []
  | b :: bs' =>
      [(DrivenLow, scl)] ++ (if b then [(Released, scl)] else []) ++
      [(drive_of_level b, Released); (drive_of_level b, DrivenLow)] ++
      bits_wires bs' DrivenLow
  end.

(** The wires of a whole byte write: the 8 data bits, first the one under
    the mask 0x80, then SDA released for a clock pulse. *)
Definition write_wires (b : Z) (scl : drive) : list (drive * drive) :=
  bits_wires (map (fun i => c_true (Z.land (Z.shiftl b (Z.of_nat i)) 0x80)) (seq 0 8)) scl ++
  [(Released, DrivenLow); (Released, Released); (Released, DrivenLow)].

(** The wires of a byte read: SDA released, 8 clock pulses, SDA driven
    LOW for an acknowledge, one more clock pulse, SDA released. *)
Definition read_wires (acknowledge : bool) (scl : drive) : list (drive * drive) :=
  (Released, scl) ::
  concat (repeat [(Released, Released); (Released, DrivenLow)] 8) ++
  (if acknowledge then [(DrivenLow, DrivenLow)] else []) ++
  [ (drive_of_level (negb acknowledge), Released);
    (drive_of_level (negb acknowledge), DrivenLow);
    (Released, DrivenLow) ].

(** The direction and latch bits of the other pins in an event are those
    of the state [st]. *)
Definition other_pins_kept (st : mcu) (e : pin_event) : Prop :=
  map (Z.testbit (ev_DDRB e)) other_pins = map (Z.testbit (DDRB st)) other_pins /\
  map (Z.testbit (ev_PORTB e)) other_pins = map (Z.testbit (PORTB st)) other_pins.

End Bus.

Import Bus.

(* ================================================================== *)
(** * Part II: lemmas and theorems *)
(* ================================================================== *)

(** ** The monad *)

Lemma bind_Some {A B} (m : M A) (k : A -> M B) st a st1 :
  m st = Some (a, st1) -> bind m k st = k a st1.
Proof. intros H. unfold bind. now rewrite H. Qed.

Lemma bind_None {A B} (m : M A) (k : A -> M B) st :
  m st = None -> bind m k st = None.
Proof. intros H. unfold bind. now rewrite H. Qed.

(** ** Bits of the 8-bit registers *)

Lemma to_u8_testbit x k : 0 <= k < 8 -> Z.testbit (to_u8 x) k = Z.testbit x k.
Proof.
  intros Hk. unfold to_u8. change 256 with (2 ^ 8).
  apply Z.mod_pow2_bits_low. lia.
Qed.

Lemma to_u8_range x : 0 <= to_u8 x < 256.
Proof. unfold to_u8. apply Z.mod_pos_bound. lia. Qed.

Lemma to_u8_small x : 0 <= x < 256 -> to_u8 x = x.
Proof. intros. unfold to_u8. now apply Z.mod_small. Qed.

(** ** Pin actions as register transformers *)

Lemma run_action_play a st : run_action a st = Some (tt, play a st).
Proof. destruct a; reflexivity. Qed.

Lemma play_eq a st :
  play a st =
  mkMCU (fst (act_regs a (DDRB st) (PORTB st)))
        (snd (act_regs a (DDRB st) (PORTB st)))
        (PINB st) (pin_reads st)
        (trace st ++ [mkEv a (fst (act_regs a (DDRB st) (PORTB st)))
                              (snd (act_regs a (DDRB st) (PORTB st)))])
        (fetched st).
Proof. destruct a; reflexivity. Qed.

Lemma plays_eq l : forall st,
  plays l st =
  mkMCU (fst (final_regs l (DDRB st) (PORTB st)))
        (snd (final_regs l (DDRB st) (PORTB st)))
        (PINB st) (pin_reads st)
        (trace st ++ events l (DDRB st) (PORTB st))
        (fetched st).
Proof.
  induction l as [|a l IH]; intros st.
  - simpl. rewrite app_nil_r. now destruct st.
  - change (plays (a :: l) st) with (plays l (play a st)).
    rewrite IH, play_eq. cbn [DDRB PORTB PINB pin_reads trace fetched events final_regs].
    destruct (act_regs a (DDRB st) (PORTB st)) as [d' p'].
    cbn [fst snd]. now rewrite <- app_assoc.
Qed.

Lemma plays_app l1 l2 st : plays (l1 ++ l2) st = plays l2 (plays l1 st).
Proof. unfold plays. apply fold_left_app. Qed.

Lemma events_acts l : forall d p, map ev_act (events l d p) = l.
Proof.
  induction l as [|a l IH]; intros d p; simpl; [reflexivity|].
  destruct (act_regs a d p). simpl. now rewrite IH.
Qed.

Lemma plays_trace l st : trace (plays l st) = trace st ++ events l (DDRB st) (PORTB st).
Proof. now rewrite plays_eq. Qed.

Lemma plays_pin_reads l st : pin_reads (plays l st) = pin_reads st.
Proof. now rewrite plays_eq. Qed.

Lemma plays_fetched l st : fetched (plays l st) = fetched st.
Proof. now rewrite plays_eq. Qed.

Lemma emitted_app st st' evs : trace st' = trace st ++ evs -> emitted st st' = evs.
Proof.
  intros H. unfold emitted. rewrite H.
  rewrite skipn_app, skipn_all, Nat.sub_diag. reflexivity.
Qed.

Lemma emitted_plays l st : emitted st (plays l st) = events l (DDRB st) (PORTB st).
Proof. apply emitted_app, plays_trace. Qed.

Lemma fetches_app st st' fs : fetched st' = fetched st ++ fs -> fetches st st' = fs.
Proof.
  intros H. unfold fetches. rewrite H.
  rewrite skipn_app, skipn_all, Nat.sub_diag. reflexivity.
Qed.

(** ** Composing effects *)

Lemma fetch_all_nil st : fetch_all [] st = st.
Proof. unfold fetch_all. rewrite app_nil_r. now destruct st. Qed.

Lemma fetch_all_app f1 f2 st : fetch_all f2 (fetch_all f1 st) = fetch_all (f1 ++ f2) st.
Proof. unfold fetch_all. simpl. now rewrite app_assoc. Qed.

Lemma plays_fetch_all l f st : plays l (fetch_all f st) = fetch_all f (plays l st).
Proof. rewrite !plays_eq. reflexivity. Qed.

Lemma effect_ret : effect (ret tt) [] [].
Proof. intros st. simpl. now rewrite fetch_all_nil. Qed.

Lemma effect_action a : effect (run_action a) [a] [].
Proof. intros st. rewrite run_action_play. now rewrite fetch_all_nil. Qed.

Lemma effect_bind m1 m2 l1 l2 f1 f2 :
  effect m1 l1 f1 -> effect m2 l2 f2 ->
  effect (m1 ;; m2) (l1 ++ l2) (f1 ++ f2).
Proof.
  intros H1 H2 st. rewrite (bind_Some _ _ _ _ _ (H1 st)), H2.
  now rewrite plays_fetch_all, fetch_all_app, plays_app.
Qed.

Lemma effect_seq m1 m2 l1 l2 : effect m1 l1 [] -> effect m2 l2 [] ->
  effect (m1 ;; m2) (l1 ++ l2) [].
Proof. intros H1 H2. apply (effect_bind _ _ _ _ [] []); assumption. Qed.

Lemma effect_when (c : bool) m l :
  effect m l [] -> effect (when c m) (if c then l else []) [].
Proof. intros H. destruct c; [exact H | apply effect_ret]. Qed.

Lemma effect_repeatM n body l f :
  effect body l f ->
  effect (repeatM n body) (concat (repeat l n)) (concat (repeat f n)).
Proof.
  intros H. induction n as [|n IH]; [apply effect_ret|].
  simpl. apply effect_bind; assumption.
Qed.

Lemma effect_fetch o tbl idx (k : Z -> M unit) l fs :
  0 <= idx < Z.of_nat (length tbl) ->
  effect (k (nth (Z.to_nat idx) tbl 0)) l fs ->
  effect (b <- pgm_read_byte o tbl idx ;; k b) l
         (mkFetch o idx (nth (Z.to_nat idx) tbl 0) :: fs).
Proof.
  intros Hi Hk st. unfold bind, pgm_read_byte.
  replace ((0 <=? idx) && (idx <? Z.of_nat (length tbl))) with true
    by (symmetry; apply andb_true_iff; split; [apply Z.leb_le | apply Z.ltb_lt]; lia).
  unfold log_fetch. rewrite Hk.
  change (mkMCU (DDRB st) (PORTB st) (PINB st) (pin_reads st) (trace st)
            (fetched st ++ [mkFetch o idx (nth (Z.to_nat idx) tbl 0)]))
    with (fetch_all [mkFetch o idx (nth (Z.to_nat idx) tbl 0)] st).
  now rewrite plays_fetch_all, fetch_all_app.
Qed.

Lemma effect_eq m l l' f f' : effect m l f -> l = l' -> f = f' -> effect m l' f'.
Proof. now intros H <- <-. Qed.

(** ** The byte-write loop *)

Lemma bit_at_0 d : bit_at d 0 = c_true (Z.land d 0x80).
Proof. unfold bit_at. now rewrite Z.shiftl_0_r. Qed.

Lemma land_0x80_shift d i :
  Z.land (Z.shiftl (to_u8 (Z.shiftl d 1)) (Z.of_nat i)) 0x80 =
  Z.land (Z.shiftl d (Z.of_nat (S i))) 0x80.
Proof.
  apply Z.bits_inj'. intros k Hk.
  rewrite !Z.land_spec. change 0x80 with (2 ^ 7).
  rewrite Z.pow2_bits_eqb by lia.
  destruct (Z.eqb_spec 7 k) as [<-|]; [|now rewrite !andb_false_r].
  rewrite !andb_true_r, !Z.shiftl_spec by lia.
  destruct (Z_lt_le_dec (7 - Z.of_nat i) 0) as [Hn|Hp].
  - rewrite !Z.testbit_neg_r by lia. reflexivity.
  - rewrite to_u8_testbit by lia. rewrite Z.shiftl_spec by lia.
    f_equal. lia.
Qed.

Lemma bit_at_shift d i : bit_at (to_u8 (Z.shiftl d 1)) i = bit_at d (S i).
Proof. unfold bit_at. now rewrite land_0x80_shift. Qed.

(** The actions of [n] rounds of the bit loop started with [d]. *)
Lemma bit_loop_ops_step n d :
  flat_map (fun i => bit_ops (bit_at d i)) (seq 0 (S n)) =
  bit_ops (c_true (Z.land d 0x80)) ++
  flat_map (fun i => bit_ops (bit_at (to_u8 (Z.shiftl d 1)) i)) (seq 0 n).
Proof.
  cbn [seq flat_map]. rewrite bit_at_0. f_equal.
  rewrite <- seq_shift, flat_map_concat_map, map_map, <- flat_map_concat_map.
  apply flat_map_ext. intros i. now rewrite bit_at_shift.
Qed.

Lemma effect_bit (c : bool) :
  effect (I2C_SDA_LOW ;; when c I2C_SDA_HIGH ;; I2C_SCL_HIGH ;; I2C_SCL_LOW)
         (bit_ops c) [].
Proof.
  change (bit_ops c) with ([SDA_LOW] ++ (if c then [SDA_HIGH] else []) ++ [SCL_HIGH] ++ [SCL_LOW]).
  apply effect_seq; [apply (effect_action SDA_LOW)|].
  apply effect_seq; [apply effect_when, (effect_action SDA_HIGH)|].
  apply effect_seq; [apply (effect_action SCL_HIGH) | apply (effect_action SCL_LOW)].
Qed.

Lemma Text_I2C_write_loop_effect n : forall d,
  effect (Text.I2C_write_loop n d)
         (flat_map (fun i => bit_ops (bit_at d i)) (seq 0 n)) [].
Proof.
  induction n as [|n IH]; intros d; [apply effect_ret|].
  rewrite bit_loop_ops_step.
  intros st. cbn [Text.I2C_write_loop].
  pose proof (effect_seq _ _ _ _ (effect_bit (c_true (Z.land d 128))) (IH (to_u8 (Z.shiftl d 1))) st) as H.
  rewrite <- H. unfold bind.
  destruct (I2C_SDA_LOW st) as [[[] s1]|]; [|reflexivity].
  destruct (when _ _ s1) as [[[] s2]|]; [|reflexivity].
  destruct (I2C_SCL_HIGH s2) as [[[] s3]|]; reflexivity.
Qed.

Lemma Big_I2C_write_loop_effect n : forall d,
  effect (Big.I2C_write_loop n d)
         (flat_map (fun i => bit_ops (bit_at d i)) (seq 0 n)) [].
Proof.
  induction n as [|n IH]; intros d; [apply effect_ret|].
  rewrite bit_loop_ops_step.
  intros st. cbn [Big.I2C_write_loop].
  pose proof (effect_seq _ _ _ _ (effect_bit (c_true (Z.land d 128))) (IH (to_u8 (Z.shiftl d 1))) st) as H.
  rewrite <- H. unfold bind.
  destruct (I2C_SDA_LOW st) as [[[] s1]|]; [|reflexivity].
  destruct (when _ _ s1) as [[[] s2]|]; [|reflexivity].
  destruct (I2C_SCL_HIGH s2) as [[[] s3]|]; reflexivity.
Qed.

Lemma effect_ack : effect (I2C_SDA_HIGH ;; I2C_SCL_HIGH ;; I2C_SCL_LOW) ack_ops [].
Proof.
  change ack_ops with ([SDA_HIGH] ++ [SCL_HIGH] ++ [SCL_LOW]).
  apply effect_seq; [apply (effect_action SDA_HIGH)|].
  apply effect_seq; [apply (effect_action SCL_HIGH) | apply (effect_action SCL_LOW)].
Qed.

Lemma Text_I2C_write_effect b : effect (Text.I2C_write b) (write_ops b) [].
Proof.
  unfold Text.I2C_write, write_ops.
  apply effect_seq; [apply Text_I2C_write_loop_effect | apply effect_ack].
Qed.

Lemma Big_I2C_write_effect b : effect (Big.I2C_write b) (write_ops b) [].
Proof.
  unfold Big.I2C_write, write_ops.
  apply effect_seq; [apply Big_I2C_write_loop_effect|].
  intros st. rewrite <- (effect_ack st). reflexivity.
Qed.

(** ** Setting and clearing register bits *)

Lemma set_bit_same d k : 0 <= k < 8 ->
  Z.testbit (to_u8 (Z.lor d (Z.shiftl 1 k))) k = true.
Proof.
  intros Hk. rewrite to_u8_testbit, Z.lor_spec, Z.shiftl_1_l by lia.
  rewrite Z.pow2_bits_true by lia. apply orb_true_r.
Qed.

Lemma set_bit_other d k j : 0 <= k -> 0 <= j < 8 -> j <> k ->
  Z.testbit (to_u8 (Z.lor d (Z.shiftl 1 k))) j = Z.testbit d j.
Proof.
  intros Hk Hj Hjk. rewrite to_u8_testbit, Z.lor_spec, Z.shiftl_1_l by lia.
  rewrite Z.pow2_bits_false by lia. apply orb_false_r.
Qed.

Lemma clr_bit_same d k : 0 <= k < 8 ->
  Z.testbit (to_u8 (Z.land d (Z.lnot (Z.shiftl 1 k)))) k = false.
Proof.
  intros Hk. rewrite to_u8_testbit, Z.land_spec, Z.lnot_spec, Z.shiftl_1_l by lia.
  rewrite Z.pow2_bits_true by lia. apply andb_false_r.
Qed.

Lemma clr_bit_other d k j : 0 <= k -> 0 <= j < 8 -> j <> k ->
  Z.testbit (to_u8 (Z.land d (Z.lnot (Z.shiftl 1 k)))) j = Z.testbit d j.
Proof.
  intros Hk Hj Hjk. rewrite to_u8_testbit, Z.land_spec, Z.lnot_spec, Z.shiftl_1_l by lia.
  rewrite Z.pow2_bits_false by lia. apply andb_true_r.
Qed.

Lemma clr_mask_bit d k1 k2 j : 0 <= k1 -> 0 <= k2 -> 0 <= j < 8 -> j = k1 \/ j = k2 ->
  Z.testbit (to_u8 (Z.land d (Z.lnot (Z.lor (Z.shiftl 1 k1) (Z.shiftl 1 k2))))) j = false.
Proof.
  intros H1 H2 Hj Hjk.
  rewrite to_u8_testbit, Z.land_spec, Z.lnot_spec, Z.lor_spec, !Z.shiftl_1_l by lia.
  destruct Hjk as [-> | ->].
  - rewrite (Z.pow2_bits_true k1) by lia. apply andb_false_r.
  - rewrite (Z.pow2_bits_true k2) by lia. rewrite orb_true_r. apply andb_false_r.
Qed.

Lemma act_regs_SDA_LOW d p :
  act_regs SDA_LOW d p = (to_u8 (Z.lor d (Z.shiftl 1 I2C_SDA)), p).
Proof. reflexivity. Qed.
Lemma act_regs_SDA_HIGH d p :
  act_regs SDA_HIGH d p = (to_u8 (Z.land d (Z.lnot (Z.shiftl 1 I2C_SDA))), p).
Proof. reflexivity. Qed.
Lemma act_regs_SCL_LOW d p :
  act_regs SCL_LOW d p = (to_u8 (Z.lor d (Z.shiftl 1 I2C_SCL)), p).
Proof. reflexivity. Qed.
Lemma act_regs_SCL_HIGH d p :
  act_regs SCL_HIGH d p = (to_u8 (Z.land d (Z.lnot (Z.shiftl 1 I2C_SCL))), p).
Proof. reflexivity. Qed.
Lemma act_regs_INIT_DDRB d p :
  act_regs INIT_DDRB d p =
  (to_u8 (Z.land d (Z.lnot (Z.lor (Z.shiftl 1 I2C_SDA) (Z.shiftl 1 I2C_SCL)))), p).
Proof. reflexivity. Qed.
Lemma act_regs_INIT_PORTB d p :
  act_regs INIT_PORTB d p =
  (d, to_u8 (Z.land p (Z.lnot (Z.lor (Z.shiftl 1 I2C_SDA) (Z.shiftl 1 I2C_SCL))))).
Proof. reflexivity. Qed.

Lemma pins_range : 0 <= I2C_SDA < 8 /\ 0 <= I2C_SCL < 8 /\ I2C_SDA <> I2C_SCL.
Proof. unfold I2C_SDA, I2C_SCL, PB0, PB2. lia. Qed.

Lemma regs_levels_latch_low d p : latch_low p ->
  regs_levels d p = (negb (Z.testbit d I2C_SDA), negb (Z.testbit d I2C_SCL)).
Proof.
  intros [Ha Hc]. unfold regs_levels, pin_drive. rewrite Ha, Hc.
  destruct (Z.testbit d I2C_SDA), (Z.testbit d I2C_SCL); reflexivity.
Qed.

(** With the latch bits LOW every action keeps them LOW and moves the
    levels as [sim] says. *)
Lemma act_regs_levels a d p : latch_low p ->
  latch_low (snd (act_regs a d p)) /\
  regs_levels (fst (act_regs a d p)) (snd (act_regs a d p)) = sim a (regs_levels d p).
Proof.
  intros Hp. pose proof pins_range as (Ha & Hc & Hne).
  destruct a.
  - rewrite act_regs_SDA_LOW. cbn [fst snd]. split; [assumption|].
    rewrite !regs_levels_latch_low by assumption. cbn [sim snd].
    rewrite set_bit_same, set_bit_other by lia. reflexivity.
  - rewrite act_regs_SDA_HIGH. cbn [fst snd]. split; [assumption|].
    rewrite !regs_levels_latch_low by assumption. cbn [sim snd].
    rewrite clr_bit_same, clr_bit_other by lia. reflexivity.
  - rewrite act_regs_SCL_LOW. cbn [fst snd]. split; [assumption|].
    rewrite !regs_levels_latch_low by assumption. cbn [sim fst].
    rewrite set_bit_same, set_bit_other by lia. reflexivity.
  - rewrite act_regs_SCL_HIGH. cbn [fst snd]. split; [assumption|].
    rewrite !regs_levels_latch_low by assumption. cbn [sim fst].
    rewrite clr_bit_same, clr_bit_other by lia. reflexivity.
  - rewrite act_regs_INIT_DDRB. cbn [fst snd]. split; [assumption|].
    rewrite !regs_levels_latch_low by assumption. cbn [sim].
    rewrite !clr_mask_bit by lia. reflexivity.
  - rewrite act_regs_INIT_PORTB. cbn [fst snd].
    assert (Hl : latch_low
      (to_u8 (Z.land p (Z.lnot (Z.lor (Z.shiftl 1 I2C_SDA) (Z.shiftl 1 I2C_SCL)))))).
    { split; apply clr_mask_bit; lia. }
    split; [assumption|].
    rewrite !regs_levels_latch_low by assumption. reflexivity.
Qed.

Lemma events_levels l : forall d p, latch_low p ->
  map levels (events l d p) = sims l (regs_levels d p).
Proof.
  induction l as [|a l IH]; intros d p Hp; [reflexivity|].
  destruct (act_regs_levels a d p Hp) as [Hp' Hlv].
  cbn [events sims]. destruct (act_regs a d p) as [d' p']. cbn [fst snd] in *.
  cbn [map]. rewrite IH by assumption. rewrite <- Hlv. reflexivity.
Qed.

Lemma rx_step_levels r lv :
  rx_sda (fst (rx_step r lv)) = fst lv /\ rx_scl (fst (rx_step r lv)) = snd lv.
Proof.
  destruct lv as [sda scl]. unfold rx_step.
  destruct (rx_scl r), scl; cbn [fst snd]; try (split; reflexivity).
  destruct (rx_sda r && negb sda); [split; reflexivity|].
  destruct (negb (rx_sda r) && sda); split; reflexivity.
Qed.

Lemma receive_hear l : forall r,
  receive r (sims l (rx_sda r, rx_scl r)) = snd (hear r l).
Proof.
  induction l as [|a l IH]; intros r; [reflexivity|].
  cbn [sims receive hear].
  pose proof (rx_step_levels r (sim a (rx_sda r, rx_scl r))) as [Hs Hc].
  destruct (rx_step r (sim a (rx_sda r, rx_scl r))) as [r1 o1]. cbn [fst] in Hs, Hc.
  specialize (IH r1). rewrite Hs, Hc in IH.
  rewrite <- surjective_pairing in IH. rewrite IH.
  destruct (hear r1 l) as [r2 o2]. reflexivity.
Qed.

Lemma hear_app l1 : forall l2 r,
  hear r (l1 ++ l2) =
  (fst (hear (fst (hear r l1)) l2), snd (hear r l1) ++ snd (hear (fst (hear r l1)) l2)).
Proof.
  induction l1 as [|a l1 IH]; intros l2 r.
  - cbn [app hear fst snd]. now destruct (hear r l2).
  - cbn [app hear]. destruct (rx_step r _) as [r1 o1].
    rewrite IH. destruct (hear r1 l1) as [r2 o2]. cbn [fst snd].
    now rewrite app_assoc.
Qed.

(** What the receiver hears of the actions [l] run from state [st]. *)
Lemma heard_plays l f st : latch_low (PORTB st) ->
  heard st (fetch_all f (plays l st)) =
  snd (hear (mkRx (fst (mcu_levels st)) (snd (mcu_levels st)) None) l).
Proof.
  intros Hp. unfold heard.
  replace (emitted st (fetch_all f (plays l st))) with (events l (DDRB st) (PORTB st)).
  2:{ symmetry. apply emitted_app. unfold fetch_all. cbn [trace]. apply plays_trace. }
  rewrite events_levels by assumption.
  change (regs_levels (DDRB st) (PORTB st)) with (mcu_levels st).
  destruct (mcu_levels st) as [sda scl]. cbn [fst snd].
  apply (receive_hear l (mkRx sda scl None)).
Qed.

Lemma idle_latch_low st : idle st -> latch_low (PORTB st).
Proof. intros (_ & _ & H1 & H2). split; assumption. Qed.

Lemma idle_levels st : idle st -> mcu_levels st = (true, true).
Proof.
  intros (H1 & H2 & _ & _). unfold mcu_levels, pin_drive. now rewrite H1, H2.
Qed.

(** *** Hearing bits, bytes and transactions *)

Lemma hear_bit s c : hear (mkRx s false None) (bit_ops c) = (mkRx c false None, [BIT c]).
Proof. destruct s, c; reflexivity. Qed.

Lemma hear_ack s : hear (mkRx s false None) ack_ops = (mkRx true false None, [BIT true]).
Proof. destruct s; reflexivity. Qed.

Lemma hear_start : hear rx_idle start_ops = (mkRx false false None, [START]).
Proof. reflexivity. Qed.

Lemma hear_stop s : hear (mkRx s false None) stop_ops = (rx_idle, [STOP]).
Proof. destruct s; reflexivity. Qed.

Lemma hear_bit_loop (f : nat -> bool) l : forall s,
  exists s', hear (mkRx s false None) (flat_map (fun i => bit_ops (f i)) l) =
             (mkRx s' false None, map (fun i => BIT (f i)) l).
Proof.
  induction l as [|i l IH]; intros s; [exists s; reflexivity|].
  cbn [flat_map map]. rewrite hear_app, hear_bit. cbn [fst snd].
  destruct (IH (f i)) as [s' Hs']. exists s'. now rewrite Hs'.
Qed.

Lemma hear_write b s :
  hear (mkRx s false None) (write_ops b) =
  (mkRx true false None, map BIT (bits b) ++ [BIT true]).
Proof.
  unfold write_ops. rewrite hear_app.
  destruct (hear_bit_loop (bit_at b) (seq 0 8) s) as [s' Hs'].
  rewrite Hs'. cbn [fst snd]. rewrite hear_ack. cbn [fst snd].
  unfold bits. now rewrite map_map.
Qed.

Lemma hear_writes bytes : forall s,
  exists s', hear (mkRx s false None) (flat_map write_ops bytes) =
             (mkRx s' false None, byte_symbols bytes).
Proof.
  induction bytes as [|b bytes IH]; intros s; [exists s; reflexivity|].
  cbn [flat_map byte_symbols]. rewrite hear_app, hear_write. cbn [fst snd].
  destruct (IH true) as [s' Hs']. exists s'. rewrite Hs'. reflexivity.
Qed.

Lemma hear_transaction bytes :
  hear rx_idle (transaction_ops bytes) =
  (rx_idle, START :: byte_symbols bytes ++ [STOP]).
Proof.
  unfold transaction_ops. rewrite hear_app, hear_start. cbn [fst snd].
  rewrite hear_app. destruct (hear_writes bytes false) as [s' Hs'].
  rewrite Hs'. cbn [fst snd]. rewrite hear_stop. reflexivity.
Qed.

Lemma hear_transactions txs :
  hear rx_idle (flat_map transaction_ops txs) =
  (rx_idle, flat_map (fun bytes => START :: byte_symbols bytes ++ [STOP]) txs).
Proof.
  induction txs as [|t txs IH]; [reflexivity|].
  cbn [flat_map]. rewrite hear_app, hear_transaction. cbn [fst snd].
  rewrite IH. reflexivity.
Qed.

(** *** Framing *)

Lemma byte_of_bits_all :
  forallb (fun n => byte_of_bits (bits (Z.of_nat n)) =? Z.of_nat n) (seq 0 256) = true.
Proof. vm_compute. reflexivity. Qed.

Lemma byte_of_bits_bits b : 0 <= b < 256 -> byte_of_bits (bits b) = b.
Proof.
  intros Hb. pose proof byte_of_bits_all as H.
  rewrite forallb_forall in H. specialize (H (Z.to_nat b)).
  rewrite Z2Nat.id in H by lia. apply Z.eqb_eq, H, in_seq. lia.
Qed.

Lemma frames_from_byte b a rest :
  frames_from [] (map BIT (bits b) ++ BIT a :: rest) =
  F_BYTE (byte_of_bits (bits b)) a :: frames_from [] rest.
Proof. reflexivity. Qed.

Lemma frames_from_bytes bytes rest :
  Forall (fun b => 0 <= b < 256) bytes ->
  frames_from [] (byte_symbols bytes ++ rest) =
  map (fun v => F_BYTE v true) bytes ++ frames_from [] rest.
Proof.
  induction 1 as [|b bytes Hb Hbs IH]; [reflexivity|].
  cbn [byte_symbols flat_map map]. rewrite <- !app_assoc.
  cbn [app]. rewrite frames_from_byte, byte_of_bits_bits by assumption.
  cbn [app]. f_equal. exact IH.
Qed.

Lemma frames_transactions txs :
  Forall (Forall (fun b => 0 <= b < 256)) txs ->
  frames (flat_map (fun bytes => START :: byte_symbols bytes ++ [STOP]) txs) =
  flat_map transaction_frames txs.
Proof.
  unfold frames. induction 1 as [|t txs Ht Hts IH]; [reflexivity|].
  cbn [flat_map]. cbn [app frames_from]. rewrite <- app_assoc.
  rewrite frames_from_bytes by assumption.
  unfold transaction_frames. cbn [app frames_from].
  rewrite <- app_assoc. cbn [app]. now rewrite IH.
Qed.

(** A run whose pin actions are whole transactions, started on an idle
    bus, is heard as those transactions. *)
Lemma heard_transactions txs f st :
  idle st -> Forall (Forall (fun b => 0 <= b < 256)) txs ->
  frames (heard st (fetch_all f (plays (flat_map transaction_ops txs) st))) =
  flat_map transaction_frames txs.
Proof.
  intros Hi Hb. rewrite heard_plays by now apply idle_latch_low.
  rewrite idle_levels by assumption. cbn [fst snd].
  change (mkRx true true None) with rx_idle.
  rewrite hear_transactions. cbn [snd]. now apply frames_transactions.
Qed.

(** ** Effects of the functions of [software/main.c] *)

Lemma Text_I2C_start_effect : effect Text.I2C_start start_ops [].
Proof.
  apply (effect_seq _ _ [SDA_LOW] [SCL_LOW]);
    [apply (effect_action SDA_LOW) | apply (effect_action SCL_LOW)].
Qed.

Lemma Text_I2C_stop_effect : effect Text.I2C_stop stop_ops [].
Proof.
  apply (effect_seq _ _ [SDA_LOW] [SCL_HIGH; SDA_HIGH]); [apply (effect_action SDA_LOW)|].
  apply (effect_seq _ _ [SCL_HIGH] [SDA_HIGH]);
    [apply (effect_action SCL_HIGH) | apply (effect_action SDA_HIGH)].
Qed.

(** START, address byte, mode byte, a body writing [bytes], STOP. *)
Lemma Text_transaction_effect mode body bytes f :
  effect body (flat_map write_ops bytes) f ->
  effect (Text.I2C_start ;; Text.I2C_write Text.OLED_ADDR ;; Text.I2C_write mode ;;
          body ;; Text.I2C_stop)
         (transaction_ops (Text.OLED_ADDR :: mode :: bytes)) f.
Proof.
  intros Hb. unfold transaction_ops. cbn [flat_map].
  apply (effect_bind _ _ _ _ [] f); [apply Text_I2C_start_effect|].
  rewrite <- !app_assoc.
  apply (effect_bind _ _ _ _ [] f); [apply Text_I2C_write_effect|].
  apply (effect_bind _ _ _ _ [] f); [apply Text_I2C_write_effect|].
  apply (effect_eq _ (flat_map write_ops bytes ++ stop_ops) _ (f ++ []));
    [| reflexivity | apply app_nil_r].
  apply effect_bind; [exact Hb | apply Text_I2C_stop_effect].
Qed.

Lemma Text_OLED_cursor_effect xpos ypos :
  effect (Text.OLED_cursor xpos ypos)
         (transaction_ops [Text.OLED_ADDR; 0x00; Z.land xpos 0x0F;
                           Z.lor 0x10 (Z.shiftr xpos 4);
                           Z.lor 0xB0 (Z.land ypos 0x07)]) [].
Proof.
  unfold Text.OLED_cursor. unfold transaction_ops. cbn [flat_map].
  rewrite app_nil_r. rewrite <- !app_assoc.
  apply effect_seq; [apply Text_I2C_start_effect|].
  repeat (apply effect_seq; [apply Text_I2C_write_effect|]).
  apply Text_I2C_stop_effect.
Qed.

Lemma concat_repeat_nil {A} n : concat (repeat (@nil A) n) = [].
Proof. induction n; simpl; auto. Qed.

Lemma concat_repeat_flat_map {A B} (g : A -> list B) x n :
  concat (repeat (g x) n) = flat_map g (repeat x n).
Proof. induction n as [|n IH]; simpl; [reflexivity | now rewrite IH]. Qed.

Lemma Text_OLED_clear_effect :
  effect Text.OLED_clear
         (transaction_ops [Text.OLED_ADDR; 0x00; 0x00; 0x10; 0xB0] ++
          transaction_ops (Text.OLED_ADDR :: 0x40 :: repeat 0x00 512)) [].
Proof.
  unfold Text.OLED_clear.
  apply effect_seq; [apply (Text_OLED_cursor_effect 0 0)|].
  apply Text_transaction_effect.
  apply (effect_eq _ _ _ _ _ (effect_repeatM 512 _ _ _ (Text_I2C_write_effect 0))).
  - apply concat_repeat_flat_map.
  - apply concat_repeat_nil.
Qed.

Lemma font_length : Z.of_nat (length Text.OLED_font) = 320.
Proof. reflexivity. Qed.

Lemma to_u16_small x : 0 <= x < 65536 -> to_u16 x = x.
Proof. intros. unfold to_u16. now apply Z.mod_small. Qed.

Lemma Text_OLED_printC_loop_effect n : forall off,
  0 <= off -> off + Z.of_nat n <= 320 ->
  effect (Text.OLED_printC_loop n off)
         (flat_map write_ops (map font_at (span off n)))
         (map (fun i => mkFetch FONT i (font_at i)) (span off n)).
Proof.
  induction n as [|n IH]; intros off H0 Hn; [apply effect_ret|].
  cbn [Text.OLED_printC_loop span map flat_map].
  apply effect_fetch; [rewrite font_length; lia|].
  apply (effect_bind _ _ _ _ [] _); [apply Text_I2C_write_effect|].
  rewrite to_u16_small by lia. apply IH; lia.
Qed.

Lemma Text_OLED_printC_effect ch : 32 <= ch <= 95 ->
  effect (Text.OLED_printC ch) (flat_map write_ops (char_stream ch)) (char_fetches ch).
Proof.
  intros Hch. unfold Text.OLED_printC, Text.OLED_printC_offset, char_stream, char_fetches.
  rewrite to_u16_small by lia. cbn [flat_map].
  apply (effect_bind _ _ _ _ [] _); [apply Text_I2C_write_effect|].
  apply Text_OLED_printC_loop_effect; lia.
Qed.

Lemma to_char_small c : 0 <= c < 128 -> to_char c = c.
Proof.
  intros Hc. unfold to_char. rewrite to_u8_small by lia.
  destruct (Z.ltb_spec c 128); lia.
Qed.

(** Printing stops at the first 0 and never looks at what follows it. *)
Lemma Text_OLED_printP_loop_effect cs : forall rest idx,
  Forall (fun c => 32 <= c <= 95) cs ->
  effect (Text.OLED_printP_loop (cs ++ 0 :: rest) idx)
         (flat_map write_ops (flat_map char_stream cs))
         (string_fetches idx cs).
Proof.
  induction cs as [|c cs IH]; intros rest idx Hcs.
  - intros st. reflexivity.
  - inversion Hcs as [|? ? Hc Hcs']; subst.
    intros st. cbn [app Text.OLED_printP_loop pgm_read_ptr].
    unfold bind at 1. unfold log_fetch.
    rewrite to_char_small by lia.
    destruct (Z.eqb_spec c 0) as [?|_]; [lia|].
    pose proof (effect_bind _ _ _ _ _ _ (Text_OLED_printC_effect c Hc)
                  (IH rest (idx + 1) Hcs')) as H.
    rewrite H.
    change (mkMCU (DDRB st) (PORTB st) (PINB st) (pin_reads st) (trace st)
              (fetched st ++ [mkFetch STR idx c]))
      with (fetch_all [mkFetch STR idx c] st).
    rewrite plays_fetch_all, fetch_all_app.
    cbn [flat_map string_fetches]. rewrite flat_map_app. reflexivity.
Qed.

Lemma Text_OLED_printP_effect cs rest :
  Forall (fun c => 32 <= c <= 95) cs ->
  effect (Text.OLED_printP (cs ++ 0 :: rest))
         (transaction_ops (Text.OLED_ADDR :: 0x40 :: flat_map char_stream cs))
         (string_fetches 0 cs).
Proof.
  intros Hcs. unfold Text.OLED_printP.
  apply Text_transaction_effect. now apply Text_OLED_printP_loop_effect.
Qed.

(** ** Reading the logs of a run *)

Lemma effect_acts l f st : map ev_act (emitted st (fetch_all f (plays l st))) = l.
Proof.
  replace (emitted st (fetch_all f (plays l st))) with (events l (DDRB st) (PORTB st)).
  - apply events_acts.
  - symmetry. apply emitted_app. unfold fetch_all. cbn [trace]. apply plays_trace.
Qed.

Lemma effect_fetches l f st : fetches st (fetch_all f (plays l st)) = f.
Proof.
  apply fetches_app. unfold fetch_all. cbn [fetched]. now rewrite plays_fetched.
Qed.

Lemma effect_pin_reads l f st : pin_reads (fetch_all f (plays l st)) = pin_reads st.
Proof. unfold fetch_all. cbn [pin_reads]. apply plays_pin_reads. Qed.

Lemma events_wires l : forall d p, latch_low p ->
  map wires (events l d p) =
  map (fun lv => (drive_of_level (fst lv), drive_of_level (snd lv)))
      (sims l (regs_levels d p)).
Proof.
  induction l as [|a l IH]; intros d p Hp; [reflexivity|].
  destruct (act_regs_levels a d p Hp) as [Hp' Hlv].
  cbn [events sims]. destruct (act_regs a d p) as [d' p']. cbn [fst snd] in *.
  cbn [map]. rewrite IH by assumption. rewrite <- Hlv. f_equal.
  destruct Hp' as [Ha Hc].
  unfold wires, sda_drive, scl_drive, regs_levels, pin_drive. cbn [ev_DDRB ev_PORTB fst snd].
  rewrite Ha, Hc.
  destruct (Z.testbit d' I2C_SDA), (Z.testbit d' I2C_SCL); reflexivity.
Qed.

Lemma c_true_land_0x80 x : c_true (Z.land x 0x80) = Z.testbit x 7.
Proof.
  unfold c_true. destruct (Z.testbit x 7) eqn:Hx.
  - destruct (Z.eqb_spec (Z.land x 128) 0) as [H0|]; [|reflexivity].
    assert (Hb : Z.testbit (Z.land x 128) 7 = true)
      by (rewrite Z.land_spec, Hx; reflexivity).
    rewrite H0 in Hb. discriminate.
  - replace (Z.land x 128) with 0; [reflexivity|].
    symmetry. apply Z.bits_inj'. intros k Hk.
    rewrite Z.land_spec, Z.bits_0. change 128 with (2 ^ 7).
    rewrite Z.pow2_bits_eqb by lia.
    destruct (Z.eqb_spec 7 k) as [<-|]; [now rewrite Hx | apply andb_false_r].
Qed.

Lemma bit_at_testbit b i : bit_at b i = Z.testbit b (7 - Z.of_nat i).
Proof.
  unfold bit_at. rewrite c_true_land_0x80, Z.shiftl_spec by lia. reflexivity.
Qed.

(** ** The wires during a byte write *)

Lemma sims_app l1 : forall l2 lv,
  sims (l1 ++ l2) lv = sims l1 lv ++ sims l2 (fold_left (fun lv a => sim a lv) l1 lv).
Proof.
  induction l1 as [|a l1 IH]; intros l2 lv; [reflexivity|].
  cbn [app sims fold_left]. now rewrite IH.
Qed.

Lemma bit_ops_sims c s k :
  map (fun lv => (drive_of_level (fst lv), drive_of_level (snd lv)))
      (sims (bit_ops c) (s, k)) =
    [(DrivenLow, drive_of_level k)] ++
    (if c then [(Released, drive_of_level k)] else []) ++
    [(drive_of_level c, Released); (drive_of_level c, DrivenLow)] /\
  fold_left (fun lv a => sim a lv) (bit_ops c) (s, k) = (c, false).
Proof. destruct c, s, k; split; reflexivity. Qed.

Lemma bit_loop_sims (f : nat -> bool) l : forall s k,
  map (fun lv => (drive_of_level (fst lv), drive_of_level (snd lv)))
      (sims (flat_map (fun i => bit_ops (f i)) l) (s, k)) =
    bits_wires (map f l) (drive_of_level k) /\
  exists s',
    fold_left (fun lv a => sim a lv) (flat_map (fun i => bit_ops (f i)) l) (s, k) =
    (s', match l with [] => k | _ :: _ => false end).
Proof.
  induction l as [|i l IH]; intros s k.
  - split; [reflexivity | exists s; reflexivity].
  - cbn [flat_map map bits_wires]. rewrite sims_app, map_app, fold_left_app.
    destruct (bit_ops_sims (f i) s k) as [Hw Hf]. rewrite Hw, Hf.
    destruct (IH (f i) false) as [Hw' (s' & Hf')]. rewrite Hw', Hf'.
    split.
    + cbn [drive_of_level]. now rewrite <- !app_assoc.
    + exists s'. now destruct l.
Qed.

Lemma write_ops_sims b s k :
  map (fun lv => (drive_of_level (fst lv), drive_of_level (snd lv)))
      (sims (write_ops b) (s, k)) = write_wires b (drive_of_level k).
Proof.
  unfold write_ops, write_wires. rewrite sims_app, map_app.
  destruct (bit_loop_sims (bit_at b) (seq 0 8) s k) as [Hw (s' & Hf)].
  rewrite Hw, Hf. reflexivity.
Qed.

Lemma drive_of_level_pin d p pin :
  Z.testbit p pin = false -> drive_of_level (level (pin_drive d p pin)) = pin_drive d p pin.
Proof. intros H. unfold pin_drive. rewrite H. now destruct (Z.testbit d pin). Qed.

(** The wires of a run of pin actions on latch bits that are LOW. *)
Lemma emitted_wires l f st : latch_low (PORTB st) ->
  map wires (emitted st (fetch_all f (plays l st))) =
  map (fun lv => (drive_of_level (fst lv), drive_of_level (snd lv)))
      (sims l (mcu_levels st)).
Proof.
  intros Hp.
  replace (emitted st (fetch_all f (plays l st))) with (events l (DDRB st) (PORTB st))
    by (symmetry; apply emitted_app; unfold fetch_all; cbn [trace]; apply plays_trace).
  now apply events_wires.
Qed.

(* ================================================================== *)
(** * Part III: the properties, each with the lemmas particular to it *)
(* ================================================================== *)

(** C1.  For every byte [b], [I2C_write] (in both source files) always
    returns, and makes exactly these register writes: 8 times (SDA LOW;
    SDA released if [(b << i) & 0x80] is set at step [i]; SCL HIGH; SCL LOW),
    then (SDA released; SCL HIGH; SCL LOW) for the 9th pulse.  The bits go
    out most significant first, and the input register is never read: the
    acknowledge level has no influence and there is no failure path.
    On the wires, the latch bits being LOW as [I2C_init] leaves them: SDA
    is driven LOW, released again for a 1 bit, and holds the bit while SCL
    is released and then driven LOW; for the 9th pulse SDA is released.
    A receiver that starts with SCL LOW hears the 8 bits of [b], bit 7
    first, and the released acknowledge slot. *)
Theorem C1_I2C_write_line_transitions : forall (b : Z) (st : mcu),
  exists st',
    Text.I2C_write b st = Some (tt, st') /\
    Big.I2C_write b st = Some (tt, st') /\
    map ev_act (emitted st st') =
      flat_map (fun i =>
                  SDA_LOW ::
                  (if c_true (Z.land (Z.shiftl b (Z.of_nat i)) 0x80)
                   then [SDA_HIGH] else []) ++
                  [SCL_HIGH; SCL_LOW]) (seq 0 8)
      ++ [SDA_HIGH; SCL_HIGH; SCL_LOW] /\
    map (fun i => c_true (Z.land (Z.shiftl b (Z.of_nat i)) 0x80)) (seq 0 8) =
      map (Z.testbit b) [7; 6; 5; 4; 3; 2; 1; 0] /\
    pin_reads st' = pin_reads st /\
    (Z.testbit (PORTB st) I2C_SDA = false ->
     Z.testbit (PORTB st) I2C_SCL = false ->
     map wires (emitted st st') =
       write_wires b (pin_drive (DDRB st) (PORTB st) I2C_SCL) /\
     (Z.testbit (DDRB st) I2C_SCL = true ->
      heard st st' =
        map BIT (map (Z.testbit b) [7; 6; 5; 4; 3; 2; 1; 0]) ++ [BIT true])).
Proof.
  intros b st. exists (fetch_all [] (plays (write_ops b) st)).
  split; [apply Text_I2C_write_effect|].
  split; [apply Big_I2C_write_effect|].
  split; [apply effect_acts|].
  assert (Hbits : map (bit_at b) (seq 0 8) = map (Z.testbit b) [7; 6; 5; 4; 3; 2; 1; 0]).
  { cbn [seq map]. rewrite !bit_at_testbit. reflexivity. }
  split; [exact Hbits|].
  split; [apply effect_pin_reads|].
  intros Ha Hc. assert (Hp : latch_low (PORTB st)) by (split; assumption).
  split.
  - rewrite emitted_wires by exact Hp. unfold mcu_levels.
    rewrite write_ops_sims. now rewrite drive_of_level_pin.
  - intros Hd. rewrite heard_plays by exact Hp.
    replace (snd (mcu_levels st)) with false
      by (unfold mcu_levels, pin_drive; cbn [snd]; now rewrite Hd, Hc).
    rewrite hear_write. cbn [snd]. unfold bits. now rewrite Hbits.
Qed.

Lemma C1_I2C_write_line_transitions_witness :
  exists st',
    Text.I2C_write 0xA5 power_on = Some (tt, st') /\
    Big.I2C_write 0xA5 power_on = Some (tt, st') /\
    map wires (emitted power_on st') = write_wires 0xA5 Released.
Proof.
  destruct (C1_I2C_write_line_transitions 0xA5 power_on)
    as (st' & H1 & H2 & _ & _ & _ & Hw).
  exists st'. split; [exact H1|]. split; [exact H2|].
  apply (Hw eq_refl eq_refl).
Defined.

(** C4.  On an idle bus, [I2C_start] directly followed by [I2C_stop] pulls
    SDA LOW while SCL is released, then SCL LOW (START); then, SDA still
    LOW, releases SCL and after it SDA (STOP).  A receiver hears START and
    STOP and no bit in between: nothing is transmitted. *)
Theorem C4_start_stop_framing : forall st : mcu,
  idle st ->
  exists st',
    (Text.I2C_start ;; Text.I2C_stop) st = Some (tt, st') /\
    map ev_act (emitted st st') = [SDA_LOW; SCL_LOW; SDA_LOW; SCL_HIGH; SDA_HIGH] /\
    map wires (emitted st st') =
      [ (DrivenLow, Released); (DrivenLow, DrivenLow);
        (DrivenLow, DrivenLow); (DrivenLow, Released); (Released, Released) ] /\
    heard st st' = [START; STOP] /\
    frames (heard st st') = [F_START; F_STOP].
Proof.
  intros st Hi.
  pose proof (effect_seq _ _ _ _ Text_I2C_start_effect Text_I2C_stop_effect) as He.
  exists (fetch_all [] (plays (start_ops ++ stop_ops) st)).
  split; [apply He|].
  split; [apply effect_acts|].
  assert (Hh : heard st (fetch_all [] (plays (start_ops ++ stop_ops) st)) = [START; STOP]).
  { rewrite heard_plays by now apply idle_latch_low.
    rewrite idle_levels by assumption. reflexivity. }
  split; [|split; [exact Hh | now rewrite Hh]].
  replace (emitted st (fetch_all [] (plays (start_ops ++ stop_ops) st)))
    with (events (start_ops ++ stop_ops) (DDRB st) (PORTB st)).
  2:{ symmetry. apply emitted_app. unfold fetch_all. cbn [trace]. apply plays_trace. }
  rewrite events_wires by now apply idle_latch_low.
  change (regs_levels (DDRB st) (PORTB st)) with (mcu_levels st).
  rewrite idle_levels by assumption. reflexivity.
Qed.

Lemma C4_start_stop_framing_witness :
  idle power_on /\
  exists st',
    (Text.I2C_start ;; Text.I2C_stop) power_on = Some (tt, st') /\
    map ev_act (emitted power_on st') = [SDA_LOW; SCL_LOW; SDA_LOW; SCL_HIGH; SDA_HIGH] /\
    map wires (emitted power_on st') =
      [ (DrivenLow, Released); (DrivenLow, DrivenLow);
        (DrivenLow, DrivenLow); (DrivenLow, Released); (Released, Released) ] /\
    heard power_on st' = [START; STOP] /\
    frames (heard power_on st') = [F_START; F_STOP].
Proof.
  assert (Hi : idle power_on) by (repeat split; reflexivity).
  split; [exact Hi | exact (C4_start_stop_framing power_on Hi)].
Defined.

Lemma bytes_range_repeat v n : 0 <= v < 256 -> Forall (fun b => 0 <= b < 256) (repeat v n).
Proof. intros Hv. induction n; simpl; constructor; auto. Qed.

(** C6.  On the 128x32 panel [OLED_clear] first sends the cursor commands
    for column 0, page 0 as a transaction of its own (command mode 0x00,
    then 0x00, 0x10, 0xB0), then opens one more transaction, sends 0x40
    (data mode) after the address byte, then exactly 512 bytes 0x00, and
    closes it. *)
Theorem C6_clear_emits_512_zero_bytes : forall st : mcu,
  idle st ->
  exists st',
    Text.OLED_clear st = Some (tt, st') /\
    map ev_act (emitted st st') =
      transaction_ops [0x78; 0x00; 0x00; 0x10; 0xB0] ++
      transaction_ops (0x78 :: 0x40 :: repeat 0x00 512) /\
    frames (heard st st') =
      transaction_frames [0x78; 0x00; 0x00; 0x10; 0xB0] ++
      transaction_frames (0x78 :: 0x40 :: repeat 0x00 512) /\
    fetches st st' = [].
Proof.
  intros st Hi.
  exists (fetch_all [] (plays (transaction_ops [0x78; 0x00; 0x00; 0x10; 0xB0] ++
          transaction_ops (0x78 :: 0x40 :: repeat 0x00 512)) st)).
  split; [apply Text_OLED_clear_effect|].
  split; [apply effect_acts|].
  split; [|apply effect_fetches].
  pose proof (heard_transactions
                [[0x78; 0x00; 0x00; 0x10; 0xB0]; 0x78 :: 0x40 :: repeat 0x00 512] [] st Hi) as H.
  cbn [flat_map] in H. rewrite !app_nil_r in H. apply H.
  constructor; [repeat constructor; lia|].
  constructor; [|constructor].
  constructor; [lia|]. constructor; [lia|]. apply bytes_range_repeat. lia.
Qed.

Lemma C6_clear_emits_512_zero_bytes_witness :
  idle power_on /\
  exists st',
    Text.OLED_clear power_on = Some (tt, st') /\
    map ev_act (emitted power_on st') =
      transaction_ops [0x78; 0x00; 0x00; 0x10; 0xB0] ++
      transaction_ops (0x78 :: 0x40 :: repeat 0x00 512) /\
    frames (heard power_on st') =
      transaction_frames [0x78; 0x00; 0x00; 0x10; 0xB0] ++
      transaction_frames (0x78 :: 0x40 :: repeat 0x00 512) /\
    fetches power_on st' = [].
Proof.
  assert (Hi : idle power_on) by (repeat split; reflexivity).
  split; [exact Hi | exact (C6_clear_emits_512_zero_bytes power_on Hi)].
Defined.



(** ** Open-drain discipline *)

Lemma latch_low_open_drain a d p : latch_low p -> open_drain (mkEv a d p).
Proof.
  intros [Ha Hc]. unfold open_drain, sda_drive, scl_drive, pin_drive.
  cbn [ev_DDRB ev_PORTB]. rewrite Ha, Hc.
  destruct (Z.testbit d I2C_SDA), (Z.testbit d I2C_SCL); auto.
Qed.

Lemma open_drain_ret {A} (a : A) : open_drain_run (ret a).
Proof.
  intros st Hp. exists a, st, []. rewrite app_nil_r.
  split; [reflexivity|]. split; [exact Hp|]. split; [reflexivity | constructor].
Qed.

Lemma open_drain_bind {A B} (m : M A) (k : A -> M B) :
  open_drain_run m -> (forall a, open_drain_run (k a)) -> open_drain_run (bind m k).
Proof.
  intros Hm Hk st Hp.
  destruct (Hm st Hp) as (a & st1 & e1 & Hr1 & Hp1 & Ht1 & Hs1).
  destruct (Hk a st1 Hp1) as (b & st2 & e2 & Hr2 & Hp2 & Ht2 & Hs2).
  exists b, st2, (e1 ++ e2). rewrite (bind_Some _ _ _ _ _ Hr1).
  split; [exact Hr2|]. split; [exact Hp2|]. split.
  - now rewrite Ht2, Ht1, app_assoc.
  - apply Forall_app. now split.
Qed.

Lemma open_drain_action a : open_drain_run (run_action a).
Proof.
  intros st Hp. destruct (act_regs_levels a (DDRB st) (PORTB st) Hp) as [Hp' _].
  exists tt, (play a st), [mkEv a (fst (act_regs a (DDRB st) (PORTB st)))
                                  (snd (act_regs a (DDRB st) (PORTB st)))].
  split; [apply run_action_play|].
  rewrite play_eq. cbn [PORTB trace].
  split; [exact Hp'|]. split; [reflexivity|].
  constructor; [|constructor]. apply latch_low_open_drain, Hp'.
Qed.

Lemma open_drain_when c m : open_drain_run m -> open_drain_run (when c m).
Proof. intros H. destruct c; [exact H | apply open_drain_ret]. Qed.

Lemma open_drain_read_PINB : open_drain_run read_PINB.
Proof.
  intros st Hp. eexists _, _, []. split; [reflexivity|].
  cbn [PORTB trace]. rewrite app_nil_r.
  split; [exact Hp|]. split; [reflexivity | constructor].
Qed.

Lemma open_drain_SDA_READ : open_drain_run I2C_SDA_READ.
Proof.
  unfold I2C_SDA_READ.
  apply open_drain_bind; [apply open_drain_read_PINB | intros; apply open_drain_ret].
Qed.

Lemma open_drain_I2C_init : open_drain_run Text.I2C_init.
Proof.
  unfold Text.I2C_init.
  apply open_drain_bind; [apply (open_drain_action INIT_DDRB)|].
  intros _. apply (open_drain_action INIT_PORTB).
Qed.

Lemma open_drain_I2C_start : open_drain_run Text.I2C_start.
Proof.
  unfold Text.I2C_start.
  apply open_drain_bind; [apply (open_drain_action SDA_LOW)|].
  intros _. apply (open_drain_action SCL_LOW).
Qed.

Lemma open_drain_I2C_stop : open_drain_run Text.I2C_stop.
Proof.
  unfold Text.I2C_stop.
  apply open_drain_bind; [apply (open_drain_action SDA_LOW)|].
  intros _. apply open_drain_bind; [apply (open_drain_action SCL_HIGH)|].
  intros _. apply (open_drain_action SDA_HIGH).
Qed.

Lemma open_drain_I2C_write_loop n : forall d, open_drain_run (Text.I2C_write_loop n d).
Proof.
  induction n as [|n IH]; intros d; [apply open_drain_ret|].
  cbn [Text.I2C_write_loop].
  apply open_drain_bind; [apply (open_drain_action SDA_LOW)|]. intros _.
  apply open_drain_bind; [apply open_drain_when, (open_drain_action SDA_HIGH)|]. intros _.
  apply open_drain_bind; [apply (open_drain_action SCL_HIGH)|]. intros _.
  apply open_drain_bind; [apply (open_drain_action SCL_LOW)|]. intros _.
  apply IH.
Qed.

Lemma open_drain_I2C_write b : open_drain_run (Text.I2C_write b).
Proof.
  unfold Text.I2C_write.
  apply open_drain_bind; [apply open_drain_I2C_write_loop|]. intros _.
  apply open_drain_bind; [apply (open_drain_action SDA_HIGH)|]. intros _.
  apply open_drain_bind; [apply (open_drain_action SCL_HIGH)|]. intros _.
  apply (open_drain_action SCL_LOW).
Qed.

Lemma open_drain_I2C_read_loop n : forall d, open_drain_run (Text.I2C_read_loop n d).
Proof.
  induction n as [|n IH]; intros d; [apply open_drain_ret|].
  cbn [Text.I2C_read_loop].
  apply open_drain_bind; [apply (open_drain_action SCL_HIGH)|]. intros _.
  apply open_drain_bind; [apply open_drain_SDA_READ|]. intros s.
  apply open_drain_bind; [apply (open_drain_action SCL_LOW)|]. intros _.
  apply IH.
Qed.

Lemma open_drain_I2C_read ack : open_drain_run (Text.I2C_read ack).
Proof.
  unfold Text.I2C_read.
  apply open_drain_bind; [apply (open_drain_action SDA_HIGH)|]. intros _.
  apply open_drain_bind; [apply open_drain_I2C_read_loop|]. intros data.
  apply open_drain_bind; [apply open_drain_when, (open_drain_action SDA_LOW)|]. intros _.
  apply open_drain_bind; [apply (open_drain_action SCL_HIGH)|]. intros _.
  apply open_drain_bind; [apply (open_drain_action SCL_LOW)|]. intros _.
  apply open_drain_bind; [apply (open_drain_action SDA_HIGH)|]. intros _.
  apply open_drain_ret.
Qed.

Lemma open_drain_run_call c : open_drain_run (run_call c).
Proof.
  destruct c; cbn [run_call].
  - apply open_drain_I2C_init.
  - apply open_drain_I2C_start.
  - apply open_drain_I2C_stop.
  - apply open_drain_I2C_write.
  - apply open_drain_bind; [apply open_drain_I2C_read | intros; apply open_drain_ret].
Qed.

Lemma open_drain_run_calls cs : open_drain_run (run_calls cs).
Proof.
  induction cs as [|c cs IH]; [apply open_drain_ret|].
  cbn [run_calls]. apply open_drain_bind; [apply open_drain_run_call | intros; apply IH].
Qed.

(** [I2C_init] from any register contents: its first write already
    releases both lines, its second clears both latch bits. *)
Lemma I2C_init_any st :
  exists st' e1 e2,
    Text.I2C_init st = Some (tt, st') /\ latch_low (PORTB st') /\
    trace st' = trace st ++ [e1; e2] /\ open_drain e1 /\ open_drain e2.
Proof.
  pose proof pins_range as (Ha & Hc & Hne).
  set (d := to_u8 (Z.land (DDRB st)
              (Z.lnot (Z.lor (Z.shiftl 1 I2C_SDA) (Z.shiftl 1 I2C_SCL))))).
  set (p := to_u8 (Z.land (PORTB st)
              (Z.lnot (Z.lor (Z.shiftl 1 I2C_SDA) (Z.shiftl 1 I2C_SCL))))).
  assert (Hd : Z.testbit d I2C_SDA = false /\ Z.testbit d I2C_SCL = false)
    by (split; apply clr_mask_bit; lia).
  assert (Hp : latch_low p) by (split; apply clr_mask_bit; lia).
  exists (mkMCU d p (PINB st) (pin_reads st)
            (trace st ++ [mkEv INIT_DDRB d (PORTB st); mkEv INIT_PORTB d p]) (fetched st)),
         (mkEv INIT_DDRB d (PORTB st)), (mkEv INIT_PORTB d p).
  split.
  { unfold Text.I2C_init, bind, I2C_init_DDRB, I2C_init_PORTB, update_DDRB, update_PORTB.
    cbn [DDRB PORTB PINB pin_reads trace fetched]. fold d. fold p.
    now rewrite <- app_assoc. }
  split; [exact Hp|]. split; [reflexivity|].
  split; [|now apply latch_low_open_drain].
  destruct Hd as [Hda Hdc].
  unfold open_drain, sda_drive, scl_drive, pin_drive. cbn [ev_DDRB ev_PORTB].
  rewrite Hda, Hdc. auto.
Qed.

Lemma I2C_init_acts st st' e1 e2 :
  Text.I2C_init st = Some (tt, st') -> trace st' = trace st ++ [e1; e2] ->
  ev_act e1 = INIT_DDRB /\ ev_act e2 = INIT_PORTB.
Proof.
  intros Hr Ht.
  unfold Text.I2C_init, bind, I2C_init_DDRB, I2C_init_PORTB, update_DDRB, update_PORTB in Hr.
  cbn [DDRB PORTB PINB pin_reads trace fetched] in Hr.
  injection Hr as <-. cbn [trace] in Ht. rewrite <- app_assoc in Ht.
  apply app_inv_head in Ht. injection Ht as <- <-. split; reflexivity.
Qed.

(** C5.  After [I2C_init], started from any register contents, any
    sequence of calls of the engine (initialize, start, stop, write a
    byte, read a byte) runs to its end, and after every single register
    write each of the two lines is either released or driven LOW: no
    reachable state drives a line HIGH. *)
Theorem C5_lines_never_driven_high : forall (st0 : mcu) (calls : list i2c_call),
  exists st',
    (Text.I2C_init ;; run_calls calls) st0 = Some (tt, st') /\
    Forall (fun e => (sda_drive e = Released \/ sda_drive e = DrivenLow) /\
                     (scl_drive e = Released \/ scl_drive e = DrivenLow))
           (emitted st0 st') /\
    trace st' = trace st0 ++ emitted st0 st' /\
    firstn 2 (map ev_act (emitted st0 st')) = [INIT_DDRB; INIT_PORTB].
Proof.
  intros st0 calls.
  destruct (I2C_init_any st0) as (st1 & e1 & e2 & Hr1 & Hp1 & Ht1 & He1 & He2).
  destruct (open_drain_run_calls calls st1 Hp1) as ([] & st2 & evs & Hr2 & Hp2 & Ht2 & Hs2).
  exists st2. rewrite (bind_Some _ _ _ _ _ Hr1). split; [exact Hr2|].
  assert (Hem : emitted st0 st2 = e1 :: e2 :: evs).
  { apply emitted_app. rewrite Ht2, Ht1, <- app_assoc. reflexivity. }
  rewrite Hem.
  split; [constructor; [exact He1 | constructor; [exact He2 | exact Hs2]]|].
  split; [rewrite Ht2, Ht1, <- app_assoc; reflexivity|].
  assert (Ha : trace st1 = trace st0 ++ [e1; e2]) by exact Ht1.
  destruct (I2C_init_acts st0 st1 e1 e2 Hr1 Ha) as [E1 E2].
  cbn [map firstn]. now rewrite E1, E2.
Qed.

(** ** Font indices of the text variant *)

Lemma printC_offset_cases ch : -128 <= ch <= 255 ->
  (32 <= ch <= 95 /\ Text.OLED_printC_offset ch = (ch - 32) * 5) \/
  (~ (32 <= ch <= 95) /\ 320 <= Text.OLED_printC_offset ch < 65536).
Proof.
  intros Hch. unfold Text.OLED_printC_offset, to_u16.
  destruct (Z_le_gt_dec 32 ch) as [Hlo|Hlo].
  - destruct (Z_le_gt_dec ch 95) as [Hhi|Hhi].
    + left. split; [lia|]. apply Z.mod_small. lia.
    + right. split; [lia|]. rewrite Z.mod_small by lia. lia.
  - right. split; [lia|].
    replace ((ch - 32) * 5) with ((ch - 32) * 5 + 65536 + (-1) * 65536) by lia.
    rewrite Z_mod_plus_full, Z.mod_small by lia. lia.
Qed.

Lemma printC_indices_span n : forall off,
  0 <= off -> off + Z.of_nat n < 65536 ->
  OLED_printC_indices n off = span off n.
Proof.
  induction n as [|n IH]; intros off H0 Hn; [reflexivity|].
  cbn [OLED_printC_indices span]. rewrite to_u16_small by lia.
  f_equal. apply IH; lia.
Qed.

Lemma span_bounds n : forall off i, In i (span off n) -> off <= i < off + Z.of_nat n.
Proof.
  induction n as [|n IH]; intros off i Hi; [destruct Hi|].
  destruct Hi as [<-|Hi]; [lia|]. apply IH in Hi. lia.
Qed.

Lemma char_fetches_idx ch : map f_idx (char_fetches ch) = span ((ch - 32) * 5) 5.
Proof. unfold char_fetches. rewrite map_map. cbn [f_idx]. apply map_id. Qed.

Lemma Text_OLED_printC_out_of_table ch st :
  320 <= Text.OLED_printC_offset ch -> Text.OLED_printC ch st = None.
Proof.
  intros Hoff. unfold Text.OLED_printC.
  rewrite (bind_Some _ _ _ _ _ (Text_I2C_write_effect 0 st)).
  cbn [Text.OLED_printC_loop]. apply bind_None.
  unfold pgm_read_byte. rewrite font_length.
  destruct (Z.ltb_spec (Text.OLED_printC_offset ch) 320); [lia|].
  now rewrite andb_false_r.
Qed.

(** C10.  [OLED_printC] computes its five font indices without any check.
    For a character code in 32..95 they are (code-32)*5 .. (code-32)*5+4,
    all inside the 320-byte table, and the five reads are made at them.
    For any other code (of a signed or an unsigned [char]) an index lies
    outside the table - the run stops there, at a read beyond the table.
    So the lookups stay inside the table exactly when 32 <= code <= 95. *)
Theorem C10_font_lookup_in_table_iff : forall (ch : Z) (st : mcu),
  -128 <= ch <= 255 ->
  length Text.OLED_font = 320%nat /\
  (Forall in_font (OLED_printC_indices 5 (Text.OLED_printC_offset ch))
     <-> 32 <= ch <= 95) /\
  (32 <= ch <= 95 ->
     OLED_printC_indices 5 (Text.OLED_printC_offset ch) =
       [ (ch - 32) * 5; (ch - 32) * 5 + 1; (ch - 32) * 5 + 2;
         (ch - 32) * 5 + 3; (ch - 32) * 5 + 4 ] /\
     exists st', Text.OLED_printC ch st = Some (tt, st') /\
                 map f_idx (fetches st st') =
                   OLED_printC_indices 5 (Text.OLED_printC_offset ch)) /\
  (~ (32 <= ch <= 95) ->
     Exists (fun i => ~ in_font i)
            (OLED_printC_indices 5 (Text.OLED_printC_offset ch)) /\
     Text.OLED_printC ch st = None).
Proof.
  intros ch st Hch. split; [reflexivity|].
  assert (Hin : 32 <= ch <= 95 ->
                OLED_printC_indices 5 (Text.OLED_printC_offset ch) = span ((ch - 32) * 5) 5).
  { intros Hr. destruct (printC_offset_cases ch Hch) as [[_ ->]|[Hn _]]; [|contradiction].
    apply printC_indices_span; lia. }
  assert (Hout : ~ (32 <= ch <= 95) -> ~ in_font (Text.OLED_printC_offset ch)).
  { intros Hn. destruct (printC_offset_cases ch Hch) as [[Hr _]|[_ Ho]]; [contradiction|].
    unfold in_font. rewrite font_length. lia. }
  split; [|split].
  - split.
    + intros Hall. destruct (Z_le_gt_dec 32 ch); [destruct (Z_le_gt_dec ch 95); [lia|]|];
        (exfalso; apply Hout; [lia|]; inversion Hall; assumption).
    + intros Hr. rewrite (Hin Hr). apply Forall_forall. intros i Hi.
      apply span_bounds in Hi. unfold in_font. rewrite font_length. lia.
  - intros Hr. split.
    + rewrite (Hin Hr). cbn [span]. repeat (f_equal; try lia).
    + exists (fetch_all (char_fetches ch) (plays (flat_map write_ops (char_stream ch)) st)).
      split; [now apply Text_OLED_printC_effect|].
      rewrite effect_fetches, char_fetches_idx. symmetry. now apply Hin.
  - intros Hn. split.
    + apply Exists_cons_hd. now apply Hout.
    + apply Text_OLED_printC_out_of_table.
      destruct (printC_offset_cases ch Hch) as [[Hr _]|[_ Ho]]; [contradiction | lia].
Qed.

Lemma C10_font_lookup_in_table_iff_witness :
  -128 <= 65 <= 255 /\
  length Text.OLED_font = 320%nat /\
  (Forall in_font (OLED_printC_indices 5 (Text.OLED_printC_offset 65))
     <-> 32 <= 65 <= 95) /\
  (32 <= 65 <= 95 ->
     OLED_printC_indices 5 (Text.OLED_printC_offset 65) =
       [ (65 - 32) * 5; (65 - 32) * 5 + 1; (65 - 32) * 5 + 2;
         (65 - 32) * 5 + 3; (65 - 32) * 5 + 4 ] /\
     exists st', Text.OLED_printC 65 power_on = Some (tt, st') /\
                 map f_idx (fetches power_on st') =
                   OLED_printC_indices 5 (Text.OLED_printC_offset 65)) /\
  (~ (32 <= 65 <= 95) ->
     Exists (fun i => ~ in_font i)
            (OLED_printC_indices 5 (Text.OLED_printC_offset 65)) /\
     Text.OLED_printC 65 power_on = None).
Proof.
  assert (H : -128 <= 65 <= 255) by lia.
  split; [exact H | exact (C10_font_lookup_in_table_iff 65 power_on H)].
Defined.

(** ** The stretch function *)

Lemma land_bit x k : 0 <= k ->
  Z.land x (2 ^ k) = if Z.testbit x k then 2 ^ k else 0.
Proof.
  intros Hk. apply Z.bits_inj'. intros j Hj.
  rewrite Z.land_spec, Z.pow2_bits_eqb by lia.
  destruct (Z.eqb_spec k j) as [<-|Hne].
  - destruct (Z.testbit x k) eqn:Hx.
    + now rewrite Z.pow2_bits_true by lia.
    + now rewrite Z.bits_0.
  - rewrite andb_false_r. destruct (Z.testbit x k).
    + now rewrite Z.pow2_bits_false by lia.
    + now rewrite Z.bits_0.
Qed.

(** Only the two low bits of the argument matter: bit 0 fills the low
    nibble, bit 1 the high nibble. *)
Lemma OLED_stretch_bits x :
  Big.OLED_stretch x =
  (if Z.testbit x 0 then 0x0F else 0) + (if Z.testbit x 1 then 0xF0 else 0).
Proof.
  unfold Big.OLED_stretch. cbv zeta.
  pose proof (land_bit x 1) as H1. pose proof (land_bit x 0) as H0.
  change (2 ^ 1) with 2 in H1. change (2 ^ 0) with 1 in H0.
  rewrite H1, H0 by lia.
  destruct (Z.testbit x 0), (Z.testbit x 1); reflexivity.
Qed.

Lemma OLED_stretch_testbits x :
  map (Z.testbit (Big.OLED_stretch x)) [0; 1; 2; 3; 4; 5; 6; 7] =
  repeat (Z.testbit x 0) 4 ++ repeat (Z.testbit x 1) 4.
Proof.
  rewrite OLED_stretch_bits.
  destruct (Z.testbit x 0), (Z.testbit x 1); reflexivity.
Qed.

(** C2.  For each of the four 2-bit inputs the stretch function returns
    the byte whose low 4 bits repeat input bit 0 and whose high 4 bits
    repeat input bit 1: stretch(0)=0x00, stretch(1)=0x0F, stretch(2)=0xF0,
    stretch(3)=0xFF. *)
Theorem C2_stretch_replicates_two_bits :
  Big.OLED_stretch 0 = 0x00 /\
  Big.OLED_stretch 1 = 0x0F /\
  Big.OLED_stretch 2 = 0xF0 /\
  Big.OLED_stretch 3 = 0xFF /\
  forall b1 b0 : bool,
    map (Z.testbit (Big.OLED_stretch (2 * Z.b2z b1 + Z.b2z b0)))
        [0; 1; 2; 3; 4; 5; 6; 7] =
    [b0; b0; b0; b0; b1; b1; b1; b1].
Proof.
  repeat (split; [reflexivity|]).
  intros [|] [|]; reflexivity.
Qed.

(** ** Effects of the functions of the big-digit variant *)

Lemma Big_write_sb_effect a b c d :
  effect (for_up 4 0 (fun k => Big.I2C_write (nth (Z.to_nat k) [a; b; c; d] 0)))
         (flat_map write_ops [a; b; c; d]) [].
Proof.
  cbn [for_up flat_map].
  apply effect_seq; [apply (Big_I2C_write_effect a)|].
  apply effect_seq; [apply (Big_I2C_write_effect b)|].
  apply effect_seq; [apply (Big_I2C_write_effect c)|].
  apply effect_seq; [apply (Big_I2C_write_effect d)|].
  apply effect_ret.
Qed.

Lemma flat_map_concat_repeat {A B} (g : A -> list B) l n :
  concat (repeat (flat_map g l) n) = flat_map g (concat (repeat l n)).
Proof.
  induction n as [|n IH]; [reflexivity|].
  cbn [repeat concat]. now rewrite flat_map_app, IH.
Qed.

(** One row of a digit: the 4 stretched bytes, [j] times over. *)
Lemma Big_row_effect j x :
  effect (repeatM j (for_up 4 0
            (fun k => Big.I2C_write (nth (Z.to_nat k) (Big.OLED_printD_sb 4 x) 0))))
         (flat_map write_ops (concat (repeat (Big.OLED_printD_sb 4 x) j))) [].
Proof.
  cbn [Big.OLED_printD_sb].
  eapply effect_eq; [apply effect_repeatM, Big_write_sb_effect | | apply concat_repeat_nil].
  apply flat_map_concat_repeat.
Qed.

Lemma Big_font_length : Z.of_nat (length Big.OLED_FONT) = 60.
Proof. reflexivity. Qed.

Lemma Big_OLED_printD_loop_effect i0 :
  0 <= i0 -> i0 + 2 < 60 ->
  effect (Big.OLED_printD_loop 3 i0)
         (flat_map write_ops
            (concat (repeat (Big.OLED_printD_sb 4 (nth (Z.to_nat i0) Big.OLED_FONT 0)) 4) ++
             concat (repeat (Big.OLED_printD_sb 4 (nth (Z.to_nat (i0 + 1)) Big.OLED_FONT 0)) 6) ++
             concat (repeat (Big.OLED_printD_sb 4 (nth (Z.to_nat (i0 + 1 + 1)) Big.OLED_FONT 0)) 4)))
         [ mkFetch FONT i0 (nth (Z.to_nat i0) Big.OLED_FONT 0);
           mkFetch FONT (i0 + 1) (nth (Z.to_nat (i0 + 1)) Big.OLED_FONT 0);
           mkFetch FONT (i0 + 1 + 1) (nth (Z.to_nat (i0 + 1 + 1)) Big.OLED_FONT 0) ].
Proof.
  intros H0 H2. rewrite !flat_map_app.
  cbn [Big.OLED_printD_loop Nat.eqb].
  apply effect_fetch; [rewrite Big_font_length; lia|].
  apply (effect_bind _ _ _ _ [] _); [apply Big_row_effect|].
  rewrite (to_u8_small (i0 + 1)) by lia.
  apply effect_fetch; [rewrite Big_font_length; lia|].
  apply (effect_bind _ _ _ _ [] _); [apply Big_row_effect|].
  rewrite (to_u8_small (i0 + 1 + 1)) by lia.
  apply effect_fetch; [rewrite Big_font_length; lia|].
  eapply effect_eq;
    [apply effect_bind; [apply Big_row_effect | apply effect_ret]
    | now rewrite app_nil_r | reflexivity].
Qed.

Lemma shiftr2_u8 b : 0 <= b < 256 ->
  0 <= Z.shiftr b 2 < 256 /\ to_u8 (Z.shiftr b 2) = Z.shiftr b 2.
Proof.
  intros Hb.
  assert (H : 0 <= Z.shiftr b 2 < 256).
  { rewrite Z.shiftr_div_pow2 by lia. change (2 ^ 2) with 4.
    split; [apply Z.div_pos; lia | apply Z.div_lt_upper_bound; lia]. }
  split; [exact H | now apply to_u8_small].
Qed.

(** The loop filling [sb] applies the stretch function to the byte shifted
    right by 0, 2, 4 and 6 bits. *)
Lemma OLED_printD_sb_stretched b : 0 <= b < 256 ->
  Big.OLED_printD_sb 4 b = stretched b.
Proof.
  intros Hb. cbn [Big.OLED_printD_sb]. unfold stretched.
  destruct (shiftr2_u8 b Hb) as [H1 E1]. rewrite E1.
  destruct (shiftr2_u8 _ H1) as [H2 E2]. rewrite E2.
  destruct (shiftr2_u8 _ H2) as [H3 E3]. rewrite E3.
  rewrite !Z.shiftr_shiftr by lia. reflexivity.
Qed.

Lemma Big_font_bytes : Forall (fun b => 0 <= b < 256) Big.OLED_FONT.
Proof. unfold Big.OLED_FONT. repeat constructor; lia. Qed.

Lemma glyph_byte_range ch k : 0 <= glyph_byte ch k < 256.
Proof.
  unfold glyph_byte.
  destruct (Nat.lt_ge_cases (Z.to_nat (3 * ch + k)) (length Big.OLED_FONT)) as [Hlt|Hge].
  - pose proof Big_font_bytes as H. rewrite Forall_forall in H.
    apply H, nth_In, Hlt.
  - rewrite nth_overflow by assumption. lia.
Qed.

Lemma Big_OLED_printD_effect ch : 0 <= ch < 20 ->
  effect (Big.OLED_printD ch) (flat_map write_ops (digit_stream ch)) (digit_fetches ch).
Proof.
  intros Hch. unfold Big.OLED_printD, digit_stream, digit_fetches.
  rewrite Z.shiftl_mul_pow2 by lia. change (2 ^ 1) with 2.
  replace (ch + ch * 2) with (3 * ch) by lia.
  rewrite to_u8_small by lia.
  rewrite flat_map_app.
  apply (effect_bind _ _ _ _ [] _).
  - eapply effect_eq; [apply effect_repeatM, (Big_I2C_write_effect 0) | | apply concat_repeat_nil].
    apply concat_repeat_flat_map.
  - rewrite <- !OLED_printD_sb_stretched by apply glyph_byte_range.
    unfold glyph_byte.
    replace (3 * ch + 0) with (3 * ch) by lia.
    replace (3 * ch + 2) with (3 * ch + 1 + 1) by lia.
    apply Big_OLED_printD_loop_effect; lia.
Qed.

(** The 32 bits of the four stretched bytes are the 8 bits of the source
    byte, lowest first, each repeated 4 times. *)
Lemma stretched_testbits b :
  flat_map (fun s => map (Z.testbit s) [0; 1; 2; 3; 4; 5; 6; 7]) (stretched b) =
  flat_map (fun i => repeat (Z.testbit b i) 4) [0; 1; 2; 3; 4; 5; 6; 7].
Proof.
  unfold stretched. cbn [flat_map]. rewrite !OLED_stretch_testbits.
  rewrite !Z.shiftr_spec by lia. reflexivity.
Qed.

(** C3 as the specification words it fails: two applications of the
    stretch function give two bytes, one for each of the two low bit
    pairs, and cannot tell apart source bytes that differ in the upper
    nibble.  For the middle byte 0x41 of digit 0 the renderer computes the
    four bytes 0x0F, 0x00, 0x00, 0x0F; two applications give 0x0F, 0x00,
    the same as for the byte 0x01, whose four bytes are different. *)
Lemma C3_counterexample :
  glyph_byte 0 1 = 0x41 /\
  Big.OLED_printD_sb 4 0x41 = [0x0F; 0x00; 0x00; 0x0F] /\
  stretched_twice 0x41 = [0x0F; 0x00] /\
  Big.OLED_printD_sb 4 0x41 <> stretched_twice 0x41 /\
  stretched_twice 0x41 = stretched_twice 0x01 /\
  Big.OLED_printD_sb 4 0x41 <> Big.OLED_printD_sb 4 0x01.
Proof.
  repeat split; try reflexivity; intros H; vm_compute in H; discriminate H.
Qed.

(** C3, amended.  For every digit of the font table, [OLED_printD] first
    writes 8 zero bytes.  Then, for each of the 3 glyph bytes, it applies
    the stretch function four times - to the byte shifted right by 0, 2,
    4 and 6 bits, each application expanding the two low bits - which
    turns the 4 bit pairs into 4 bytes holding every source bit 4 times;
    these 4 bytes are written 4 times over, and 6 times over for the
    middle glyph byte. *)
Theorem C3_printD_stretches_four_times : forall (ch : Z) (st : mcu),
  0 <= ch < 20 ->
  exists st',
    Big.OLED_printD ch st = Some (tt, st') /\
    map ev_act (emitted st st') =
      flat_map write_ops
        (repeat 0 8 ++
         concat (repeat (Big.OLED_printD_sb 4 (glyph_byte ch 0)) 4) ++
         concat (repeat (Big.OLED_printD_sb 4 (glyph_byte ch 1)) 6) ++
         concat (repeat (Big.OLED_printD_sb 4 (glyph_byte ch 2)) 4)) /\
    Forall (fun b =>
              Big.OLED_printD_sb 4 b =
                [ Big.OLED_stretch b; Big.OLED_stretch (Z.shiftr b 2);
                  Big.OLED_stretch (Z.shiftr b 4); Big.OLED_stretch (Z.shiftr b 6) ] /\
              flat_map (fun s => map (Z.testbit s) [0; 1; 2; 3; 4; 5; 6; 7])
                       (Big.OLED_printD_sb 4 b) =
              flat_map (fun i => repeat (Z.testbit b i) 4) [0; 1; 2; 3; 4; 5; 6; 7])
           [glyph_byte ch 0; glyph_byte ch 1; glyph_byte ch 2] /\
    map f_idx (fetches st st') = [3 * ch; 3 * ch + 1; 3 * ch + 2].
Proof.
  intros ch st Hch.
  exists (fetch_all (digit_fetches ch) (plays (flat_map write_ops (digit_stream ch)) st)).
  split; [now apply Big_OLED_printD_effect|].
  split.
  { rewrite effect_acts. unfold digit_stream.
    now rewrite <- !OLED_printD_sb_stretched by apply glyph_byte_range. }
  split; [|now rewrite effect_fetches].
  assert (H : forall k, Big.OLED_printD_sb 4 (glyph_byte ch k) = stretched (glyph_byte ch k))
    by (intros k; apply OLED_printD_sb_stretched, glyph_byte_range).
  repeat constructor; try (rewrite H; reflexivity);
    rewrite H; apply stretched_testbits.
Qed.

Lemma C3_printD_stretches_four_times_witness :
  0 <= 0 < 20 /\
  exists st',
    Big.OLED_printD 0 power_on = Some (tt, st') /\
    map ev_act (emitted power_on st') =
      flat_map write_ops
        (repeat 0 8 ++
         concat (repeat (Big.OLED_printD_sb 4 (glyph_byte 0 0)) 4) ++
         concat (repeat (Big.OLED_printD_sb 4 (glyph_byte 0 1)) 6) ++
         concat (repeat (Big.OLED_printD_sb 4 (glyph_byte 0 2)) 4)) /\
    Forall (fun b =>
              Big.OLED_printD_sb 4 b =
                [ Big.OLED_stretch b; Big.OLED_stretch (Z.shiftr b 2);
                  Big.OLED_stretch (Z.shiftr b 4); Big.OLED_stretch (Z.shiftr b 6) ] /\
              flat_map (fun s => map (Z.testbit s) [0; 1; 2; 3; 4; 5; 6; 7])
                       (Big.OLED_printD_sb 4 b) =
              flat_map (fun i => repeat (Z.testbit b i) 4) [0; 1; 2; 3; 4; 5; 6; 7])
           [glyph_byte 0 0; glyph_byte 0 1; glyph_byte 0 2] /\
    map f_idx (fetches power_on st') = [3 * 0; 3 * 0 + 1; 3 * 0 + 2].
Proof.
  assert (H : 0 <= 0 < 20) by lia.
  split; [exact H | exact (C3_printD_stretches_four_times 0 power_on H)].
Defined.

(** C9.  Printing digit 0 reads the font table at offsets 0, 1, 2 (0*3
    onwards) and gets the compact glyph 0x7F, 0x41, 0x7F; these are the
    bytes handed to the stretch function. *)
Theorem C9_digit0_compact_glyph : forall st : mcu,
  exists st',
    Big.OLED_printD 0 st = Some (tt, st') /\
    fetches st st' =
      [mkFetch FONT 0 0x7F; mkFetch FONT 1 0x41; mkFetch FONT 2 0x7F] /\
    firstn 3 (skipn (Z.to_nat (0 * 3)) Big.OLED_FONT) = [0x7F; 0x41; 0x7F] /\
    map ev_act (emitted st st') =
      flat_map write_ops
        (repeat 0 8 ++
         concat (repeat (Big.OLED_printD_sb 4 0x7F) 4) ++
         concat (repeat (Big.OLED_printD_sb 4 0x41) 6) ++
         concat (repeat (Big.OLED_printD_sb 4 0x7F) 4)).
Proof.
  intros st.
  assert (H : 0 <= 0 < 20) by lia.
  exists (fetch_all (digit_fetches 0) (plays (flat_map write_ops (digit_stream 0)) st)).
  split; [now apply Big_OLED_printD_effect|].
  split; [now rewrite effect_fetches|].
  split; [reflexivity|].
  now rewrite effect_acts.
Qed.

(** ** The cascaded counters *)

Lemma main_counts_add n : forall m s,
  main_counts (n + m) s = main_counts m (main_counts n s).
Proof. induction n as [|n IH]; intros m s; [reflexivity | apply IH]. Qed.

Lemma b_increments_add n : forall m s,
  b_increments (n + m) s = (b_increments n s + b_increments m (main_counts n s))%nat.
Proof.
  induction n as [|n IH]; intros m s; [reflexivity|].
  cbn [Nat.add b_increments main_counts]. rewrite IH. lia.
Qed.

(** A round in which the low counter does not overflow. *)
Lemma main_count_plain s : 0 <= Big.counter_a s < 255 ->
  Big.main_count s =
  Big.mkLocals (Big.buffer s) (Big.counter_a s + 1) (Big.counter_b s) (Big.counter_c s).
Proof.
  intros Ha. unfold Big.main_count, c_true.
  rewrite (to_u8_small (Big.counter_a s + 1)) by lia.
  destruct (Z.eqb_spec (Big.counter_a s + 1) 0); [lia | reflexivity].
Qed.

(** A round in which it does. *)
Lemma main_count_carry s : Big.counter_a s = 255 ->
  Big.main_count s =
  Big.mkLocals (Big.buffer s) 0 (to_u8 (Big.counter_b s + 1))
    (if to_u8 (Big.counter_b s + 1) =? 0
     then to_u8 (Big.counter_c s + 1) else Big.counter_c s).
Proof.
  intros Ha. unfold Big.main_count, c_true. rewrite Ha.
  change (to_u8 (255 + 1)) with 0. cbn [Z.eqb negb].
  destruct (to_u8 (Big.counter_b s + 1) =? 0); reflexivity.
Qed.

Lemma to_u8_succ b : 0 <= b < 256 ->
  to_u8 (b + 1) = (if b =? 255 then 0 else b + 1) /\ to_u8 (b + 1) <> b.
Proof.
  intros Hb. destruct (Z.eqb_spec b 255) as [->|Hne].
  - split; [reflexivity | discriminate].
  - rewrite to_u8_small by lia. split; [reflexivity | lia].
Qed.

Lemma main_counts_plain n : forall s,
  0 <= Big.counter_a s -> Big.counter_a s + Z.of_nat n <= 255 ->
  main_counts n s =
    Big.mkLocals (Big.buffer s) (Big.counter_a s + Z.of_nat n)
                 (Big.counter_b s) (Big.counter_c s) /\
  b_increments n s = O.
Proof.
  induction n as [|n IH]; intros s H0 Hn.
  - cbn [main_counts b_increments]. rewrite Z.add_0_r. now destruct s.
  - cbn [main_counts b_increments].
    rewrite (main_count_plain s) by lia.
    cbn [Big.counter_b]. rewrite Z.eqb_refl.
    destruct (IH (Big.mkLocals (Big.buffer s) (Big.counter_a s + 1)
                    (Big.counter_b s) (Big.counter_c s))) as [E1 E2];
      cbn [Big.counter_a]; try lia.
    rewrite E1, E2. cbn [Big.buffer Big.counter_a Big.counter_b Big.counter_c].
    split; [f_equal; lia | reflexivity].
Qed.

(** Over 256 rounds the low counter comes back to its value and the next
    counter moves once. *)
Lemma main_counts_256 s :
  0 <= Big.counter_a s < 256 -> 0 <= Big.counter_b s < 256 ->
  Big.counter_a (main_counts 256 s) = Big.counter_a s /\
  Big.counter_b (main_counts 256 s) = to_u8 (Big.counter_b s + 1) /\
  b_increments 256 s = 1%nat.
Proof.
  intros Ha Hb.
  set (n1 := Z.to_nat (255 - Big.counter_a s)).
  set (n3 := Z.to_nat (Big.counter_a s)).
  replace 256%nat with (n1 + (1 + n3))%nat by lia.
  rewrite main_counts_add, b_increments_add.
  destruct (main_counts_plain n1 s) as [E1 I1]; [lia | lia |].
  rewrite E1, I1.
  replace (Big.counter_a s + Z.of_nat n1) with 255 by lia.
  rewrite main_counts_add, b_increments_add.
  cbn [main_counts b_increments].
  rewrite main_count_carry by reflexivity.
  cbn [Big.buffer Big.counter_a Big.counter_b Big.counter_c].
  destruct (to_u8_succ (Big.counter_b s) Hb) as [_ Hne].
  destruct (Z.eqb_spec (to_u8 (Big.counter_b s + 1)) (Big.counter_b s)) as [?|_];
    [contradiction|].
  match goal with
  | |- context [main_counts n3 ?t] =>
      destruct (main_counts_plain n3 t) as [E3 I3];
        cbn [Big.counter_a]; try lia; rewrite E3, I3
  end.
  cbn [Big.buffer Big.counter_a Big.counter_b Big.counter_c].
  repeat split; lia.
Qed.

(** C8.  With counters holding bytes: a round that finds the low counter
    at 0xFF wraps it to 0x00 and adds one (modulo 2^8) to the next counter;
    any other round adds one to the low counter and leaves the others
    alone.  The third counter moves, by one, exactly in the rounds where
    the second one wraps.  Hence the three bytes count as one 24-bit
    number, and over any 256 rounds the low counter returns to its value
    while the next counter is incremented in exactly one round, by one. *)
Theorem C8_counter_carry : forall s : Big.locals,
  0 <= Big.counter_a s < 256 ->
  0 <= Big.counter_b s < 256 ->
  0 <= Big.counter_c s < 256 ->
  (Big.counter_a s = 0xFF ->
     Big.counter_a (Big.main_count s) = 0x00 /\
     Big.counter_b (Big.main_count s) = (Big.counter_b s + 1) mod 2 ^ 8) /\
  (Big.counter_a s <> 0xFF ->
     Big.counter_a (Big.main_count s) = Big.counter_a s + 1 /\
     Big.counter_b (Big.main_count s) = Big.counter_b s /\
     Big.counter_c (Big.main_count s) = Big.counter_c s) /\
  (Big.counter_a s = 0xFF -> Big.counter_b s = 0xFF ->
     Big.counter_b (Big.main_count s) = 0x00 /\
     Big.counter_c (Big.main_count s) = (Big.counter_c s + 1) mod 2 ^ 8) /\
  (Big.counter_a s = 0xFF -> Big.counter_b s <> 0xFF ->
     Big.counter_b (Big.main_count s) = Big.counter_b s + 1 /\
     Big.counter_c (Big.main_count s) = Big.counter_c s) /\
  value24 (Big.main_count s) = (value24 s + 1) mod 2 ^ 24 /\
  Big.counter_a (main_counts 256 s) = Big.counter_a s /\
  Big.counter_b (main_counts 256 s) = (Big.counter_b s + 1) mod 2 ^ 8 /\
  b_increments 256 s = 1%nat.
Proof.
  intros s Ha Hb Hc.
  destruct (to_u8_succ _ Hb) as [Eb _]. destruct (to_u8_succ _ Hc) as [Ec _].
  change (2 ^ 8) with 256. fold (to_u8 (Big.counter_b s + 1)).
  fold (to_u8 (Big.counter_c s + 1)).
  split; [|split; [|split; [|split; [|split]]]].
  - intros E. rewrite (main_count_carry s E). cbn [Big.counter_a Big.counter_b]. auto.
  - intros E. rewrite (main_count_plain s) by lia.
    cbn [Big.counter_a Big.counter_b Big.counter_c]. auto.
  - intros E1 E2. rewrite (main_count_carry s E1). cbn [Big.counter_b Big.counter_c].
    rewrite E2. change (to_u8 (255 + 1)) with 0. auto.
  - intros E1 E2. rewrite (main_count_carry s E1). cbn [Big.counter_b Big.counter_c].
    rewrite Eb. destruct (Z.eqb_spec (Big.counter_b s) 255); [contradiction|].
    destruct (Z.eqb_spec (Big.counter_b s + 1) 0); [lia | auto].
  - unfold value24. change (2 ^ 24) with 16777216.
    destruct (Z.eq_dec (Big.counter_a s) 255) as [E|E].
    + rewrite (main_count_carry s E). cbn [Big.counter_a Big.counter_b Big.counter_c].
      rewrite Eb, Ec, E.
      destruct (Z.eqb_spec (Big.counter_b s) 255) as [Eb'|Eb'].
      * rewrite Eb'. cbn [Z.eqb].
        destruct (Z.eqb_spec (Big.counter_c s) 255) as [Ec'|Ec'].
        -- rewrite Ec'. reflexivity.
        -- rewrite Z.mod_small by lia. lia.
      * destruct (Z.eqb_spec (Big.counter_b s + 1) 0); [lia|].
        rewrite Z.mod_small by lia. lia.
    + rewrite (main_count_plain s) by lia.
      cbn [Big.counter_a Big.counter_b Big.counter_c].
      rewrite Z.mod_small by lia. lia.
  - apply main_counts_256; assumption.
Qed.

Lemma C8_counter_carry_witness :
  Big.counter_a (Big.mkLocals [0; 0; 17; 0; 0; 16; 0; 0] 0xFF 0xFF 0x12)
    = 0xFF /\
  Big.main_count (Big.mkLocals [0; 0; 17; 0; 0; 16; 0; 0] 0xFF 0xFF 0x12)
    = Big.mkLocals [0; 0; 17; 0; 0; 16; 0; 0] 0x00 0x00 0x13 /\
  b_increments 256 (Big.mkLocals [0; 0; 17; 0; 0; 16; 0; 0] 0xFF 0xFF 0x12) = 1%nat.
Proof.
  split; [reflexivity|]. split; [reflexivity|].
  apply (C8_counter_carry (Big.mkLocals [0; 0; 17; 0; 0; 16; 0; 0] 0xFF 0xFF 0x12));
    cbn [Big.counter_a Big.counter_b Big.counter_c]; lia.
Defined.

(** ** The two messages of [software/main.c] *)

(** Both messages stay inside the font, so printing them is one whole
    data-mode transaction carrying 6 bytes per character. *)
Lemma Text_messages_print :
  effect (Text.OLED_printP Text.Message1)
         (transaction_ops (0x78 :: 0x40 ::
            flat_map char_stream (removelast Text.Message1)))
         (string_fetches 0 (removelast Text.Message1)) /\
  effect (Text.OLED_printP Text.Message2)
         (transaction_ops (0x78 :: 0x40 ::
            flat_map char_stream (removelast Text.Message2)))
         (string_fetches 0 (removelast Text.Message2)) /\
  length (flat_map char_stream (removelast Text.Message1)) = (6 * 13)%nat /\
  length (flat_map char_stream (removelast Text.Message2)) = (6 * 20)%nat.
Proof.
  split; [|split; [|split; reflexivity]].
  - apply (Text_OLED_printP_effect (removelast Text.Message1) []).
    vm_compute. repeat constructor; discriminate.
  - apply (Text_OLED_printP_effect (removelast Text.Message2) []).
    vm_compute. repeat constructor; discriminate.
Qed.

(* ================================================================== *)
(** * Part IV: further properties of the code *)
(* ================================================================== *)

(** ** The bus after a run *)

Lemma hear_levels l : forall r,
  (rx_sda (fst (hear r l)), rx_scl (fst (hear r l))) =
  fold_left (fun lv a => sim a lv) l (rx_sda r, rx_scl r).
Proof.
  induction l as [|a l IH]; intros r; [reflexivity|].
  cbn [hear fold_left].
  pose proof (rx_step_levels r (sim a (rx_sda r, rx_scl r))) as [Hs Hc].
  destruct (rx_step r (sim a (rx_sda r, rx_scl r))) as [r1 o1]. cbn [fst] in Hs, Hc.
  specialize (IH r1). destruct (hear r1 l) as [r2 o2]. cbn [fst] in *.
  rewrite IH, Hs, Hc. now rewrite <- surjective_pairing.
Qed.

Lemma final_regs_levels l : forall d p, latch_low p ->
  latch_low (snd (final_regs l d p)) /\
  regs_levels (fst (final_regs l d p)) (snd (final_regs l d p)) =
  fold_left (fun lv a => sim a lv) l (regs_levels d p).
Proof.
  induction l as [|a l IH]; intros d p Hp; [split; [exact Hp | reflexivity]|].
  destruct (act_regs_levels a d p Hp) as [Hp' Hlv].
  cbn [final_regs fold_left]. destruct (act_regs a d p) as [d' p']. cbn [fst snd] in *.
  rewrite <- Hlv. now apply IH.
Qed.

Lemma levels_idle d p : latch_low p -> regs_levels d p = (true, true) ->
  Z.testbit d I2C_SDA = false /\ Z.testbit d I2C_SCL = false.
Proof.
  intros Hp H. rewrite regs_levels_latch_low in H by assumption.
  injection H as H1 H2. split; now apply negb_true_iff.
Qed.

(** A run that the receiver follows back to rest leaves the bus idle. *)
Lemma idle_after l f st :
  idle st -> fst (hear rx_idle l) = rx_idle -> idle (fetch_all f (plays l st)).
Proof.
  intros Hi Hr. pose proof (idle_latch_low st Hi) as Hp.
  destruct (final_regs_levels l (DDRB st) (PORTB st) Hp) as [Hp' Hlv].
  change (regs_levels (DDRB st) (PORTB st)) with (mcu_levels st) in Hlv.
  rewrite (idle_levels st Hi) in Hlv.
  pose proof (hear_levels l rx_idle) as Hh. rewrite Hr in Hh. cbn [rx_idle rx_sda rx_scl] in Hh.
  rewrite <- Hh in Hlv.
  destruct (levels_idle _ _ Hp' Hlv) as [Hd1 Hd2].
  unfold idle, fetch_all. cbn [DDRB PORTB]. rewrite plays_eq. cbn [DDRB PORTB].
  destruct Hp' as [Hp1 Hp2]. repeat split; assumption.
Qed.

Lemma is_byteb_spec b : is_byteb b = true -> is_byte b.
Proof.
  unfold is_byteb, is_byte. intros H. apply andb_true_iff in H as [H1 H2].
  apply Z.leb_le in H1. apply Z.ltb_lt in H2. lia.
Qed.

Lemma is_byteb_all l : forallb is_byteb l = true -> Forall is_byte l.
Proof.
  intros H. apply Forall_forall. intros b Hb.
  apply is_byteb_spec. rewrite forallb_forall in H. now apply H.
Qed.

Lemma is_byteb_all2 ll : forallb (forallb is_byteb) ll = true -> Forall (Forall is_byte) ll.
Proof.
  intros H. apply Forall_forall. intros l Hl.
  apply is_byteb_all. rewrite forallb_forall in H. now apply H.
Qed.

(** What any run made of whole transactions does on an idle bus. *)
Lemma transactions_run m txs f st :
  effect m (flat_map transaction_ops txs) f ->
  idle st -> Forall (Forall is_byte) txs ->
  exists st',
    m st = Some (tt, st') /\
    frames (heard st st') = flat_map transaction_frames txs /\
    fetches st st' = f /\
    idle st'.
Proof.
  intros He Hi Hb.
  exists (fetch_all f (plays (flat_map transaction_ops txs) st)).
  split; [apply He|].
  split; [now apply heard_transactions|].
  split; [apply effect_fetches|].
  apply idle_after; [assumption|]. now rewrite hear_transactions.
Qed.

(** ** A transaction of arbitrary bytes *)

Lemma run_calls_writes_effect bytes :
  effect (run_calls (map Call_write bytes ++ [Call_stop]))
         (flat_map write_ops bytes ++ stop_ops) [].
Proof.
  induction bytes as [|b bytes IH].
  - cbn [map app run_calls run_call flat_map].
    apply (effect_seq _ _ stop_ops []); [apply Text_I2C_stop_effect | apply effect_ret].
  - cbn [map app run_calls run_call flat_map]. rewrite <- app_assoc.
    apply effect_seq; [apply Text_I2C_write_effect | exact IH].
Qed.

Lemma run_calls_transaction_effect bytes :
  effect (run_calls (Call_start :: map Call_write bytes ++ [Call_stop]))
         (flat_map transaction_ops [bytes]) [].
Proof.
  cbn [flat_map]. rewrite app_nil_r. unfold transaction_ops.
  cbn [run_calls run_call].
  apply effect_seq; [apply Text_I2C_start_effect | apply run_calls_writes_effect].
Qed.

(** X4.  Any list of bytes sent as start, one write per byte, stop on an
    idle bus is received as START, exactly those bytes in order (each with
    its acknowledge slot left released), STOP; the bus is idle afterwards. *)
Theorem X4_transaction_round_trip : forall (bytes : list Z) (st : mcu),
  idle st ->
  Forall (fun b => 0 <= b < 256) bytes ->
  exists st',
    run_calls (Call_start :: map Call_write bytes ++ [Call_stop]) st = Some (tt, st') /\
    frames (heard st st') = F_START :: map (fun v => F_BYTE v true) bytes ++ [F_STOP] /\
    idle st'.
Proof.
  intros bytes st Hi Hb.
  destruct (transactions_run _ [bytes] [] st (run_calls_transaction_effect bytes) Hi)
    as (st' & Hr & Hf & _ & Hi').
  { constructor; [exact Hb | constructor]. }
  exists st'. split; [exact Hr|]. split; [|exact Hi'].
  rewrite Hf. cbn [flat_map]. now rewrite app_nil_r.
Qed.

Lemma X4_transaction_round_trip_witness :
  idle power_on /\
  Forall (fun b => 0 <= b < 256) [0x78; 0x40; 0xA5] /\
  exists st',
    run_calls (Call_start :: map Call_write [0x78; 0x40; 0xA5] ++ [Call_stop]) power_on
      = Some (tt, st') /\
    frames (heard power_on st') =
      F_START :: map (fun v => F_BYTE v true) [0x78; 0x40; 0xA5] ++ [F_STOP] /\
    idle st'.
Proof.
  assert (Hi : idle power_on) by (repeat split; reflexivity).
  assert (Hb : Forall (fun b => 0 <= b < 256) [0x78; 0x40; 0xA5])
    by (repeat constructor; lia).
  split; [exact Hi|]. split; [exact Hb|].
  exact (X4_transaction_round_trip [0x78; 0x40; 0xA5] power_on Hi Hb).
Defined.

(** ** Reading a byte *)

Lemma bind_action a {B} (k : unit -> M B) st :
  bind (run_action a) k st = k tt (play a st).
Proof. apply bind_Some, run_action_play. Qed.

Lemma play_add_reads a n st : play a (add_reads n st) = add_reads n (play a st).
Proof. rewrite !play_eq. reflexivity. Qed.

Lemma plays_add_reads l n st : plays l (add_reads n st) = add_reads n (plays l st).
Proof. rewrite !plays_eq. reflexivity. Qed.

Lemma add_reads_add n m st : add_reads n (add_reads m st) = add_reads (n + m) st.
Proof. unfold add_reads. cbn [DDRB PORTB PINB pin_reads trace fetched]. f_equal. lia. Qed.

Lemma sample_play a n st k : sample (add_reads n (play a st)) k = sample st (n + k).
Proof.
  unfold sample, add_reads. rewrite play_eq. cbn [PINB pin_reads].
  do 3 f_equal. lia.
Qed.

Lemma SDA_READ_eq st :
  I2C_SDA_READ st =
  Some (Z.land (PINB st (pin_reads st)) (Z.shiftl 1 I2C_SDA), add_reads 1 st).
Proof. reflexivity. Qed.

Lemma sample_0 st :
  c_true (Z.land (PINB st (pin_reads st)) (Z.shiftl 1 I2C_SDA)) = sample st 0.
Proof. unfold sample. now rewrite Nat.add_0_r. Qed.

Lemma Text_I2C_read_loop_eq n : forall data st,
  Text.I2C_read_loop n data st =
  Some (fold_left read_step (map (sample st) (seq 0 n)) data,
        add_reads n (plays (concat (repeat [SCL_HIGH; SCL_LOW] n)) st)).
Proof.
  induction n as [|n IH]; intros data st.
  - cbn [Text.I2C_read_loop seq map fold_left repeat concat plays]. unfold ret, add_reads.
    cbn [Nat.add fold_left]. now destruct st.
  - cbn [Text.I2C_read_loop].
    change I2C_SCL_HIGH with (run_action SCL_HIGH).
    change I2C_SCL_LOW with (run_action SCL_LOW).
    rewrite bind_action. unfold bind at 1. rewrite SDA_READ_eq.
    rewrite bind_action, IH.
    rewrite sample_0. f_equal. f_equal.
    + cbn [seq map fold_left]. rewrite <- seq_shift, map_map.
      replace (sample (play SCL_HIGH st) 0) with (sample st 0)
        by (unfold sample; rewrite play_eq; reflexivity).
      change (if sample st 0
              then to_u8 (Z.lor (to_u8 (Z.shiftl data 1)) 1)
              else to_u8 (Z.shiftl data 1))
        with (read_step data (sample st 0)).
      f_equal. apply map_ext. intros k.
      rewrite play_add_reads, sample_play.
      unfold sample. rewrite play_eq. reflexivity.
    + rewrite play_add_reads, plays_add_reads, add_reads_add.
      replace (n + 1)%nat with (S n) by lia.
      cbn [repeat concat]. rewrite plays_app. reflexivity.
Qed.

Lemma read_step_bits b0 b1 b2 b3 b4 b5 b6 b7 :
  fold_left read_step [b0; b1; b2; b3; b4; b5; b6; b7] 0 =
  byte_of_bits [b0; b1; b2; b3; b4; b5; b6; b7].
Proof. destruct b0, b1, b2, b3, b4, b5, b6, b7; reflexivity. Qed.

Lemma byte_of_bits_range b0 b1 b2 b3 b4 b5 b6 b7 :
  0 <= byte_of_bits [b0; b1; b2; b3; b4; b5; b6; b7] < 256.
Proof. destruct b0, b1, b2, b3, b4, b5, b6, b7; vm_compute; split; congruence. Qed.

Lemma Text_I2C_read_eq ack st :
  Text.I2C_read ack st =
  Some (byte_of_bits (map (sample st) (seq 0 8)),
        add_reads 8 (plays (read_ops (to_u8 ack)) st)).
Proof.
  unfold Text.I2C_read.
  change I2C_SDA_HIGH with (run_action SDA_HIGH).
  change I2C_SCL_HIGH with (run_action SCL_HIGH).
  change I2C_SCL_LOW with (run_action SCL_LOW).
  rewrite bind_action. unfold bind at 1. rewrite Text_I2C_read_loop_eq.
  assert (Hw : forall s, bind (when (c_true (to_u8 ack)) I2C_SDA_LOW)
                 (fun _ => bind (run_action SCL_HIGH) (fun _ =>
                  bind (run_action SCL_LOW) (fun _ =>
                  bind (run_action SDA_HIGH) (fun _ =>
                  ret (byte_of_bits (map (sample st) (seq 0 8))))))) s =
               Some (byte_of_bits (map (sample st) (seq 0 8)),
                     plays ((if c_true (to_u8 ack) then [SDA_LOW] else []) ++
                            [SCL_HIGH; SCL_LOW; SDA_HIGH]) s)).
  { intros s. destruct (c_true (to_u8 ack)); cbn [when].
    - change I2C_SDA_LOW with (run_action SDA_LOW). rewrite !bind_action. reflexivity.
    - unfold bind at 1. cbn [ret]. rewrite !bind_action. reflexivity. }
  replace (fold_left read_step (map (sample (play SDA_HIGH st)) (seq 0 8)) 0)
    with (byte_of_bits (map (sample st) (seq 0 8))).
  2:{ cbn [seq map]. rewrite read_step_bits. unfold sample. rewrite play_eq. reflexivity. }
  rewrite Hw. f_equal. f_equal.
  rewrite plays_add_reads. f_equal.
Qed.

Lemma read_ops_sims a s k :
  map (fun lv => (drive_of_level (fst lv), drive_of_level (snd lv)))
      (sims (read_ops a) (s, k)) = read_wires (c_true a) (drive_of_level k).
Proof. unfold read_ops. destruct (c_true a), s, k; reflexivity. Qed.

(** X1.  [I2C_read] always returns a byte.  Its register writes are:
    release SDA; 8 clock pulses; pull SDA LOW only if [ack], as the 8-bit
    value the parameter holds, is nonzero; one more clock pulse; release
    SDA.  In between it reads the input register exactly 8 times and
    reads no program memory.  On the wires, the latch bits being LOW as
    [I2C_init] leaves them: SDA is released during the 8 pulses, driven
    LOW during the 9th exactly when acknowledging, and released at the
    end, while SCL is released and driven LOW 9 times. *)
Theorem X1_I2C_read_pin_actions : forall (ack : Z) (st : mcu),
  exists v st',
    Text.I2C_read ack st = Some (v, st') /\
    0 <= v < 256 /\
    map ev_act (emitted st st') =
      SDA_HIGH :: concat (repeat [SCL_HIGH; SCL_LOW] 8) ++
      (if ack mod 256 =? 0 then [] else [SDA_LOW]) ++ [SCL_HIGH; SCL_LOW; SDA_HIGH] /\
    pin_reads st' = (pin_reads st + 8)%nat /\
    fetches st st' = [] /\
    (Z.testbit (PORTB st) I2C_SDA = false ->
     Z.testbit (PORTB st) I2C_SCL = false ->
     map wires (emitted st st') =
       read_wires (negb (ack mod 256 =? 0)) (pin_drive (DDRB st) (PORTB st) I2C_SCL)).
Proof.
  intros ack st.
  exists (byte_of_bits (map (sample st) (seq 0 8))),
         (add_reads 8 (plays (read_ops (to_u8 ack)) st)).
  assert (He : emitted st (add_reads 8 (plays (read_ops (to_u8 ack)) st)) =
               events (read_ops (to_u8 ack)) (DDRB st) (PORTB st)).
  { apply emitted_app. unfold add_reads. cbn [trace]. apply plays_trace. }
  split; [apply Text_I2C_read_eq|].
  split; [cbn [seq map]; apply byte_of_bits_range|].
  split; [|split; [|split]].
  - rewrite He, events_acts. unfold read_ops, c_true, to_u8.
    now destruct (ack mod 256 =? 0).
  - unfold add_reads. cbn [pin_reads]. rewrite plays_pin_reads. lia.
  - apply fetches_app. unfold add_reads. cbn [fetched].
    now rewrite plays_fetched, app_nil_r.
  - intros Ha Hc. rewrite He, events_wires by (split; assumption).
    unfold regs_levels. rewrite read_ops_sims.
    now rewrite drive_of_level_pin.
Qed.

Lemma X1_I2C_read_pin_actions_witness :
  exists v st',
    Text.I2C_read 256 power_on = Some (v, st') /\
    map ev_act (emitted power_on st') =
      SDA_HIGH :: concat (repeat [SCL_HIGH; SCL_LOW] 8) ++ [SCL_HIGH; SCL_LOW; SDA_HIGH] /\
    map wires (emitted power_on st') = read_wires false Released.
Proof.
  destruct (X1_I2C_read_pin_actions 256 power_on)
    as (v & st' & H1 & _ & H2 & _ & _ & Hw).
  exists v, st'. split; [exact H1|]. split; [exact H2|].
  apply (Hw eq_refl eq_refl).
Defined.

(** X2.  The byte [I2C_read] returns is assembled from the SDA bit of its
    8 reads of the input register, first read = bit 7; the other bits of
    the register do not matter.  So when the line carries, pulse by pulse,
    the bits [I2C_write] sends for a byte [v], reading gives back [v]. *)
Theorem X2_I2C_read_assembles_msb_first : forall (v ack : Z) (st : mcu),
  0 <= v < 256 ->
  map (fun k => negb (Z.land (PINB st (pin_reads st + k)) (Z.shiftl 1 I2C_SDA) =? 0))
      (seq 0 8) =
  map (fun i => negb (Z.land (Z.shiftl v (Z.of_nat i)) 0x80 =? 0)) (seq 0 8) ->
  exists st', Text.I2C_read ack st = Some (v, st').
Proof.
  intros v ack st Hv Hs.
  exists (add_reads 8 (plays (read_ops (to_u8 ack)) st)).
  rewrite Text_I2C_read_eq. f_equal. f_equal.
  change (map (sample st) (seq 0 8) = bits v) in Hs.
  rewrite Hs. now apply byte_of_bits_bits.
Qed.

Lemma X2_I2C_read_assembles_msb_first_witness :
  exists st',
    Text.I2C_read 1
      (mkMCU 0 0 (fun k => nth k [0xFF; 0x00; 0x01; 0xFE; 0x00; 0x01; 0x00; 0x01] 0)
             O [] []) = Some (0xA5, st').
Proof.
  apply (X2_I2C_read_assembles_msb_first 0xA5 1); [lia | reflexivity].
Defined.

(** ** The other pins of the port *)

Lemma clr_mask_other d k1 k2 j : 0 <= k1 -> 0 <= k2 -> 0 <= j < 8 ->
  j <> k1 -> j <> k2 ->
  Z.testbit (to_u8 (Z.land d (Z.lnot (Z.lor (Z.shiftl 1 k1) (Z.shiftl 1 k2))))) j =
  Z.testbit d j.
Proof.
  intros H1 H2 Hj Hn1 Hn2.
  rewrite to_u8_testbit, Z.land_spec, Z.lnot_spec, Z.lor_spec, !Z.shiftl_1_l by lia.
  rewrite !Z.pow2_bits_false by lia. apply andb_true_r.
Qed.

Lemma same_other_pins_refl st : same_other_pins st st.
Proof. split; reflexivity. Qed.

Lemma same_other_pins_trans s1 s2 s3 :
  same_other_pins s1 s2 -> same_other_pins s2 s3 -> same_other_pins s1 s3.
Proof. intros [A1 B1] [A2 B2]. split; congruence. Qed.

Lemma other_pins_bits (f g : Z -> bool) :
  (forall j, 0 <= j < 8 -> j <> I2C_SDA -> j <> I2C_SCL -> f j = g j) ->
  map f other_pins = map g other_pins.
Proof.
  intros H. unfold other_pins. cbn [map].
  rewrite !H by (unfold I2C_SDA, I2C_SCL, PB0, PB2; lia). reflexivity.
Qed.

Lemma same_other_pins_play a st : same_other_pins st (play a st).
Proof.
  pose proof pins_range as (Ha & Hc & Hne).
  rewrite play_eq. unfold same_other_pins. cbn [DDRB PORTB].
  destruct a.
  - rewrite act_regs_SDA_LOW. cbn [fst snd]. split; [|reflexivity].
    apply other_pins_bits. intros. apply set_bit_other; lia.
  - rewrite act_regs_SDA_HIGH. cbn [fst snd]. split; [|reflexivity].
    apply other_pins_bits. intros. apply clr_bit_other; lia.
  - rewrite act_regs_SCL_LOW. cbn [fst snd]. split; [|reflexivity].
    apply other_pins_bits. intros. apply set_bit_other; lia.
  - rewrite act_regs_SCL_HIGH. cbn [fst snd]. split; [|reflexivity].
    apply other_pins_bits. intros. apply clr_bit_other; lia.
  - rewrite act_regs_INIT_DDRB. cbn [fst snd]. split; [|reflexivity].
    apply other_pins_bits. intros. apply clr_mask_other; lia.
  - rewrite act_regs_INIT_PORTB. cbn [fst snd]. split; [reflexivity|].
    apply other_pins_bits. intros. apply clr_mask_other; lia.
Qed.

Lemma same_other_pins_plays l : forall st, same_other_pins st (plays l st).
Proof.
  induction l as [|a l IH]; intros st; [apply same_other_pins_refl|].
  change (plays (a :: l) st) with (plays l (play a st)).
  eapply same_other_pins_trans; [apply same_other_pins_play | apply IH].
Qed.

Lemma other_pins_effect m l : effect m l [] -> other_pins_run m.
Proof.
  intros He st. exists tt, (fetch_all [] (plays l st)). split; [apply He|].
  rewrite fetch_all_nil. apply same_other_pins_plays.
Qed.

Lemma other_pins_ret {A} (a : A) : other_pins_run (ret a).
Proof. intros st. exists a, st. split; [reflexivity | apply same_other_pins_refl]. Qed.

Lemma other_pins_bind {A B} (m : M A) (k : A -> M B) :
  other_pins_run m -> (forall a, other_pins_run (k a)) -> other_pins_run (bind m k).
Proof.
  intros Hm Hk st.
  destruct (Hm st) as (a & st1 & Hr1 & Hs1).
  destruct (Hk a st1) as (b & st2 & Hr2 & Hs2).
  exists b, st2. rewrite (bind_Some _ _ _ _ _ Hr1).
  split; [exact Hr2 | eapply same_other_pins_trans; eassumption].
Qed.

Lemma other_pins_run_call c : other_pins_run (run_call c).
Proof.
  destruct c; cbn [run_call].
  - unfold Text.I2C_init.
    apply other_pins_bind; [apply (other_pins_effect _ _ (effect_action INIT_DDRB))|].
    intros _. apply (other_pins_effect _ _ (effect_action INIT_PORTB)).
  - apply (other_pins_effect _ _ Text_I2C_start_effect).
  - apply (other_pins_effect _ _ Text_I2C_stop_effect).
  - apply (other_pins_effect _ _ (Text_I2C_write_effect b)).
  - apply other_pins_bind; [|intros; apply other_pins_ret].
    intros st. eexists _, _. split; [apply Text_I2C_read_eq|].
    unfold add_reads, same_other_pins. cbn [DDRB PORTB].
    apply same_other_pins_plays.
Qed.

(** X3.  Whatever calls are made into the engine (initialize, start,
    stop, write, read) and whatever the registers hold before, every call
    returns and the direction and latch bits of the other six pins of
    port B are left as they were: only PB0 and PB2 are ever touched. *)
Theorem X3_engine_leaves_other_pins : forall (calls : list i2c_call) (st : mcu),
  exists st',
    run_calls calls st = Some (tt, st') /\
    map (Z.testbit (DDRB st')) [1; 3; 4; 5; 6; 7] =
      map (Z.testbit (DDRB st)) [1; 3; 4; 5; 6; 7] /\
    map (Z.testbit (PORTB st')) [1; 3; 4; 5; 6; 7] =
      map (Z.testbit (PORTB st)) [1; 3; 4; 5; 6; 7].
Proof.
  induction calls as [|c calls IH]; intros st.
  - exists st. split; [reflexivity | split; reflexivity].
  - cbn [run_calls].
    destruct (other_pins_run_call c st) as ([] & st1 & Hr1 & Hs1).
    destruct (IH st1) as (st2 & Hr2 & Hd2 & Hp2).
    exists st2. rewrite (bind_Some _ _ _ _ _ Hr1). split; [exact Hr2|].
    destruct Hs1 as [Hd1 Hp1]. unfold other_pins in Hd1, Hp1.
    split; congruence.
Qed.

(** ** Tables, and the bus after [I2C_init] *)

Lemma effect_table_loop (wr : Z -> M unit) o tbl n :
  (forall b, effect (wr b) (write_ops b) []) ->
  forall i, 0 <= i -> i + Z.of_nat n <= Z.of_nat (length tbl) ->
  effect (for_up n i (fun i => b <- pgm_read_byte o tbl i ;; wr b))
         (flat_map write_ops (map (fun i => nth (Z.to_nat i) tbl 0) (span i n)))
         (table_fetches o tbl i n).
Proof.
  intros Hwr. induction n as [|n IH]; intros i H0 Hn; [apply effect_ret|].
  unfold table_fetches. cbn [for_up span map flat_map].
  apply (effect_bind _ _ _ _ [mkFetch o i (nth (Z.to_nat i) tbl 0)] _).
  - apply (effect_eq _ (write_ops (nth (Z.to_nat i) tbl 0)) _
             [mkFetch o i (nth (Z.to_nat i) tbl 0)]);
      [|reflexivity | reflexivity].
    apply (effect_fetch o tbl i wr); [lia | apply Hwr].
  - apply IH; lia.
Qed.

Lemma I2C_init_effect : effect Text.I2C_init [INIT_DDRB; INIT_PORTB] [].
Proof.
  unfold Text.I2C_init.
  apply (effect_seq _ _ [INIT_DDRB] [INIT_PORTB]);
    [apply (effect_action INIT_DDRB) | apply (effect_action INIT_PORTB)].
Qed.

(** [I2C_init] makes the bus idle, whatever the registers held. *)
Lemma I2C_init_idle st : idle (plays [INIT_DDRB; INIT_PORTB] st).
Proof.
  pose proof pins_range as (Ha & Hc & Hne).
  rewrite plays_eq. cbn [final_regs].
  rewrite act_regs_INIT_DDRB, act_regs_INIT_PORTB.
  unfold idle. cbn [DDRB PORTB fst snd].
  repeat split; apply clr_mask_bit; lia.
Qed.

(** A run that initializes the engine and then makes whole
    transactions. *)
Lemma after_init_run m txs f st :
  effect m ([INIT_DDRB; INIT_PORTB] ++ flat_map transaction_ops txs) f ->
  Forall (Forall is_byte) txs ->
  exists st1 st',
    Text.I2C_init st = Some (tt, st1) /\ idle st1 /\
    m st = Some (tt, st') /\
    frames (heard st1 st') = flat_map transaction_frames txs /\
    fetches st st' = f /\
    idle st'.
Proof.
  intros He Hb.
  set (st1 := plays [INIT_DDRB; INIT_PORTB] st).
  assert (Hi : idle st1) by apply I2C_init_idle.
  exists st1, (fetch_all f (plays (flat_map transaction_ops txs) st1)).
  split; [rewrite (I2C_init_effect st); now rewrite fetch_all_nil|].
  split; [exact Hi|].
  split; [rewrite He, plays_app; reflexivity|].
  split; [now apply heard_transactions|].
  split.
  - apply fetches_app. unfold fetch_all. cbn [fetched]. unfold st1.
    now rewrite !plays_fetched.
  - apply idle_after; [assumption|]. now rewrite hear_transactions.
Qed.

Lemma one_transaction bytes : flat_map transaction_ops [bytes] = transaction_ops bytes.
Proof. cbn [flat_map]. apply app_nil_r. Qed.

Lemma Text_OLED_init_effect :
  effect Text.OLED_init
         ([INIT_DDRB; INIT_PORTB] ++
          flat_map transaction_ops [0x78 :: 0x00 :: firstn 18 Text.OLED_INIT_CMD])
         (table_fetches INIT_CMD Text.OLED_INIT_CMD 0 18).
Proof.
  unfold Text.OLED_init. rewrite one_transaction.
  apply (effect_bind _ _ _ _ [] _); [apply I2C_init_effect|].
  apply (Text_transaction_effect 0x00 _ (firstn 18 Text.OLED_INIT_CMD)).
  apply (effect_table_loop Text.I2C_write INIT_CMD Text.OLED_INIT_CMD 18
           Text_I2C_write_effect 0);
    [lia | change (Z.of_nat (length Text.OLED_INIT_CMD)) with 20; lia].
Qed.

(** X5.  From any register contents [OLED_init] first makes the bus idle
    and then sends one command-mode transaction: address 0x78, 0x00, and
    the first 18 bytes of the settings table, read at indices 0..17 in
    order.  The last two bytes of the table (0xA1, 0xC8, the screen flip)
    are neither read nor sent.  The bus is idle afterwards. *)
Theorem X5_OLED_init_sequence : forall st : mcu,
  exists st1 st',
    Text.I2C_init st = Some (tt, st1) /\ idle st1 /\
    Text.OLED_init st = Some (tt, st') /\
    frames (heard st1 st') =
      transaction_frames
        [ 0x78; 0x00;
          0xA8; 0x1F; 0x22; 0x00; 0x03; 0x20; 0x00; 0xD3; 0x00;
          0xDA; 0x02; 0xDB; 0x40; 0xD9; 0xF1; 0x8D; 0x14; 0xAF ] /\
    map f_idx (fetches st st') =
      [0; 1; 2; 3; 4; 5; 6; 7; 8; 9; 10; 11; 12; 13; 14; 15; 16; 17] /\
    map f_val (fetches st st') = firstn 18 Text.OLED_INIT_CMD /\
    idle st'.
Proof.
  intros st.
  destruct (after_init_run _ _ _ st Text_OLED_init_effect)
    as (st1 & st' & Hr1 & Hi1 & Hr & Hf & Hfe & Hi').
  { apply is_byteb_all2. reflexivity. }
  exists st1, st'. split; [exact Hr1|]. split; [exact Hi1|]. split; [exact Hr|].
  split; [rewrite Hf; reflexivity|].
  rewrite Hfe. split; [reflexivity|]. split; [reflexivity | exact Hi'].
Qed.

(** ** The cursor *)

Lemma byte_forallb (P : Z -> bool) :
  forallb P (map Z.of_nat (seq 0 256)) = true ->
  forall x, 0 <= x < 256 -> P x = true.
Proof.
  intros H x Hx. rewrite forallb_forall in H. apply H.
  apply in_map_iff. exists (Z.to_nat x). split; [lia | apply in_seq; lia].
Qed.

Lemma cursor_column_bytes x : 0 <= x < 256 ->
  Z.land x 0x0F = x mod 16 /\ Z.lor 0x10 (Z.shiftr x 4) = 0x10 + x / 16.
Proof.
  intros Hx.
  pose proof (byte_forallb
    (fun x => (Z.land x 0x0F =? x mod 16) && (Z.lor 0x10 (Z.shiftr x 4) =? 0x10 + x / 16))
    eq_refl x Hx) as H.
  cbv beta in H. apply andb_true_iff in H as [H1 H2].
  split; now apply Z.eqb_eq.
Qed.

Lemma cursor_page_byte y : 0 <= y < 256 -> Z.lor 0xB0 (Z.land y 0x07) = 0xB0 + y mod 8.
Proof.
  intros Hy.
  pose proof (byte_forallb (fun y => Z.lor 0xB0 (Z.land y 0x07) =? 0xB0 + y mod 8)
                eq_refl y Hy) as H.
  now apply Z.eqb_eq.
Qed.

(** X6.  [OLED_cursor] sends one command-mode transaction whose three
    command bytes encode the position without loss for every 8-bit column:
    0x00 + the low nibble of the column, 0x10 + its high nibble, and
    0xB0 + the page modulo 8 (pages 8 and up wrap around). *)
Theorem X6_OLED_cursor_encoding : forall (xpos ypos : Z) (st : mcu),
  0 <= xpos < 256 -> 0 <= ypos < 256 -> idle st ->
  exists st',
    Text.OLED_cursor xpos ypos st = Some (tt, st') /\
    frames (heard st st') =
      transaction_frames
        [0x78; 0x00; xpos mod 16; 0x10 + xpos / 16; 0xB0 + ypos mod 8] /\
    16 * ((0x10 + xpos / 16) - 0x10) + xpos mod 16 = xpos /\
    idle st'.
Proof.
  intros xpos ypos st Hx Hy Hi.
  destruct (cursor_column_bytes xpos Hx) as [E1 E2].
  pose proof (cursor_page_byte ypos Hy) as E3.
  pose proof (Text_OLED_cursor_effect xpos ypos) as He.
  rewrite E1, E2, E3 in He. rewrite <- one_transaction in He.
  destruct (transactions_run _ _ _ st He Hi) as (st' & Hr & Hf & _ & Hi').
  { constructor; [|constructor].
    assert (0 <= xpos mod 16 < 16) by (apply Z.mod_pos_bound; lia).
    assert (0 <= ypos mod 8 < 8) by (apply Z.mod_pos_bound; lia).
    assert (0 <= xpos / 16 < 16)
      by (split; [apply Z.div_pos; lia | apply Z.div_lt_upper_bound; lia]).
    unfold is_byte, Text.OLED_ADDR.
    repeat (apply Forall_cons; [lia|]). apply Forall_nil. }
  exists st'. split; [exact Hr|]. split; [|split; [|exact Hi']].
  - rewrite Hf. cbn [flat_map]. apply app_nil_r.
  - pose proof (Z.div_mod xpos 16). lia.
Qed.

Lemma X6_OLED_cursor_encoding_witness :
  exists st',
    Text.OLED_cursor 20 10 power_on = Some (tt, st') /\
    frames (heard power_on st') =
      transaction_frames [0x78; 0x00; 20 mod 16; 0x10 + 20 / 16; 0xB0 + 10 mod 8] /\
    16 * ((0x10 + 20 / 16) - 0x10) + 20 mod 16 = 20 /\
    idle st'.
Proof.
  apply (X6_OLED_cursor_encoding 20 10 power_on); [lia | lia |].
  repeat split; reflexivity.
Defined.

(** ** Strings *)

Lemma font_bytes : Forall is_byte Text.OLED_font.
Proof. apply is_byteb_all. reflexivity. Qed.

Lemma font_at_byte i : is_byte (font_at i).
Proof.
  unfold font_at.
  destruct (Nat.lt_ge_cases (Z.to_nat i) (length Text.OLED_font)) as [Hlt|Hge].
  - pose proof font_bytes as H. rewrite Forall_forall in H. apply H, nth_In, Hlt.
  - rewrite nth_overflow by assumption. unfold is_byte. lia.
Qed.

Lemma char_stream_bytes c : Forall is_byte (char_stream c).
Proof.
  unfold char_stream. constructor; [unfold is_byte; lia|].
  apply Forall_forall. intros b Hb. apply in_map_iff in Hb as (i & <- & _).
  apply font_at_byte.
Qed.

Lemma char_streams_bytes cs : Forall is_byte (flat_map char_stream cs).
Proof.
  induction cs as [|c cs IH]; [constructor|].
  cbn [flat_map]. apply Forall_app. split; [apply char_stream_bytes | exact IH].
Qed.

Lemma char_streams_length cs :
  length (flat_map char_stream cs) = (6 * length cs)%nat.
Proof.
  induction cs as [|c cs IH]; [reflexivity|].
  cbn [flat_map]. rewrite length_app, IH. cbn [char_stream span map length]. lia.
Qed.

Lemma string_fetches_length cs : forall idx,
  length (string_fetches idx cs) = (6 * length cs + 1)%nat.
Proof.
  induction cs as [|c cs IH]; intros idx; [reflexivity|].
  cbn [string_fetches length]. rewrite length_app, IH.
  cbn [char_fetches span map length]. lia.
Qed.

(** X7.  For a string of characters of the font (codes 32..95) followed
    by its terminator, [OLED_printP] sends one data-mode transaction with
    6 bytes per character - a zero column and the 5 font columns at
    (code-32)*5 - in the order of the string.  It makes one string read
    per character plus one for the terminator, and never looks at what
    follows the terminator.  The empty string gives the transaction with
    no data byte. *)
Theorem X7_OLED_printP_any_string : forall (cs rest : list Z) (st : mcu),
  Forall (fun c => 32 <= c <= 95) cs ->
  idle st ->
  exists st',
    Text.OLED_printP (cs ++ 0 :: rest) st = Some (tt, st') /\
    frames (heard st st') =
      transaction_frames
        (0x78 :: 0x40 ::
         flat_map (fun c =>
                     0x00 :: map (fun i => nth (Z.to_nat i) Text.OLED_font 0)
                                 [ (c - 32) * 5; (c - 32) * 5 + 1; (c - 32) * 5 + 2;
                                   (c - 32) * 5 + 3; (c - 32) * 5 + 4 ]) cs) /\
    map f_val (filter (fun f => match f_obj f with STR => true | _ => false end)
                      (fetches st st')) = cs ++ [0] /\
    length (fetches st st') = (6 * length cs + 1)%nat /\
    idle st'.
Proof.
  intros cs rest st Hcs Hi.
  pose proof (Text_OLED_printP_effect cs rest Hcs) as He.
  rewrite <- one_transaction in He.
  destruct (transactions_run _ _ _ st He Hi) as (st' & Hr & Hf & Hfe & Hi').
  { constructor; [|constructor].
    constructor; [unfold is_byte, Text.OLED_ADDR; lia|].
    constructor; [unfold is_byte; lia | apply char_streams_bytes]. }
  exists st'. split; [exact Hr|].
  split.
  { rewrite Hf. cbn [flat_map]. rewrite app_nil_r. do 3 f_equal.
    apply flat_map_ext. intros c. unfold char_stream, font_at. cbn [span map].
    repeat (f_equal; try lia). }
  split; [|split; [rewrite Hfe; apply string_fetches_length | exact Hi']].
  rewrite Hfe. clear. generalize 0 at 1. induction cs as [|c cs IH]; intros idx.
  - reflexivity.
  - cbn [string_fetches filter f_obj map app]. rewrite filter_app.
    replace (filter _ (char_fetches c)) with (@nil fetch_event) by reflexivity.
    cbn [app f_val]. f_equal. apply IH.
Qed.

Lemma X7_OLED_printP_any_string_witness :
  exists st',
    Text.OLED_printP ([72; 73] ++ 0 :: [1; 2; 3]) power_on = Some (tt, st') /\
    frames (heard power_on st') =
      transaction_frames
        (0x78 :: 0x40 ::
         flat_map (fun c =>
                     0x00 :: map (fun i => nth (Z.to_nat i) Text.OLED_font 0)
                                 [ (c - 32) * 5; (c - 32) * 5 + 1; (c - 32) * 5 + 2;
                                   (c - 32) * 5 + 3; (c - 32) * 5 + 4 ]) [72; 73]) /\
    map f_val (filter (fun f => match f_obj f with STR => true | _ => false end)
                      (fetches power_on st')) = [72; 73] ++ [0] /\
    length (fetches power_on st') = (6 * length [72; 73] + 1)%nat /\
    idle st'.
Proof.
  apply (X7_OLED_printP_any_string [72; 73] [1; 2; 3] power_on).
  - repeat (apply Forall_cons; [lia|]). apply Forall_nil.
  - repeat split; reflexivity.
Defined.

Lemma to_char_range c : 0 <= c < 256 ->
  -128 <= to_char c <= 255 /\ (to_char c = 0 -> c = 0) /\
  (32 <= to_char c <= 95 -> 32 <= c <= 95).
Proof.
  intros Hc. unfold to_char. rewrite to_u8_small by lia.
  destruct (Z.ltb_spec c 128); lia.
Qed.

Lemma Text_OLED_printP_loop_stuck cs : forall tail idx st,
  Forall (fun c => 32 <= c <= 95) cs ->
  (tail = [] \/
   exists c rest, tail = c :: rest /\ 0 <= c < 256 /\ c <> 0 /\ ~ (32 <= c <= 95)) ->
  Text.OLED_printP_loop (cs ++ tail) idx st = None.
Proof.
  induction cs as [|c cs IH]; intros tail idx st Hcs Ht.
  - destruct Ht as [-> | (c & rest & -> & Hc & Hn0 & Hout)]; [reflexivity|].
    cbn [app Text.OLED_printP_loop pgm_read_ptr]. unfold bind at 1, log_fetch.
    destruct (to_char_range c Hc) as (Hr & H0 & Hin).
    destruct (Z.eqb_spec (to_char c) 0) as [E|_]; [now apply H0 in E|].
    apply bind_None. apply Text_OLED_printC_out_of_table.
    destruct (printC_offset_cases (to_char c) Hr) as [[Hr' _]|[_ Ho]]; [|lia].
    exfalso. apply Hout, Hin, Hr'.
  - inversion Hcs as [|? ? Hc Hcs']; subst.
    cbn [app Text.OLED_printP_loop pgm_read_ptr]. unfold bind at 1, log_fetch.
    rewrite to_char_small by lia.
    destruct (Z.eqb_spec c 0) as [?|_]; [lia|].
    match goal with
    | |- bind _ _ ?s = None =>
        rewrite (bind_Some _ _ _ _ _ (Text_OLED_printC_effect c Hc s))
    end.
    now apply IH.
Qed.

(** X8.  [OLED_printP] has no guard of its own.  On a string whose
    characters are all in the font but which has no terminator inside its
    object, it reads past the end of the object; on a string that holds,
    before its terminator, a nonzero character outside 32..95, the font
    lookup for that character leaves the font table. *)
Theorem X8_OLED_printP_unguarded : forall (cs : list Z) (c : Z) (rest : list Z) (st : mcu),
  Forall (fun c => 32 <= c <= 95) cs ->
  0 <= c < 256 -> c <> 0 -> ~ (32 <= c <= 95) ->
  Text.OLED_printP cs st = None /\
  Text.OLED_printP (cs ++ c :: rest) st = None.
Proof.
  intros cs c rest st Hcs Hc Hn0 Hout.
  assert (Hpre : forall p,
            (forall s, Text.OLED_printP_loop p 0 s = None) ->
            Text.OLED_printP p st = None).
  { intros p Hp. unfold Text.OLED_printP.
    rewrite (bind_Some _ _ _ _ _ (Text_I2C_start_effect st)).
    rewrite (bind_Some _ _ _ _ _ (Text_I2C_write_effect Text.OLED_ADDR _)).
    rewrite (bind_Some _ _ _ _ _ (Text_I2C_write_effect 0x40 _)).
    apply bind_None, Hp. }
  split; apply Hpre; intros s.
  - rewrite <- (app_nil_r cs). apply Text_OLED_printP_loop_stuck; auto.
  - apply Text_OLED_printP_loop_stuck; [assumption|].
    right. exists c, rest. auto.
Qed.

Lemma X8_OLED_printP_unguarded_witness :
  Text.OLED_printP [72; 73] power_on = None /\
  Text.OLED_printP ([72; 73] ++ 104 :: [0]) power_on = None.
Proof.
  apply (X8_OLED_printP_unguarded [72; 73] 104 [0] power_on); try lia.
  repeat (apply Forall_cons; [lia|]). apply Forall_nil.
Defined.

(** ** [main] of [software/main.c] *)

Lemma effect_delay_before ms m l f :
  effect m l f -> effect (Text._delay_ms ms ;; m) l f.
Proof. intros H st. apply H. Qed.

Lemma effect_delay_after ms m l f :
  effect m l f -> effect (m ;; Text._delay_ms ms) l f.
Proof. intros H st. rewrite (bind_Some _ _ _ _ _ (H st)). reflexivity. Qed.

Lemma effect_tx m1 m2 t ts f1 f2 :
  effect m1 (transaction_ops t) f1 ->
  effect m2 (flat_map transaction_ops ts) f2 ->
  effect (m1 ;; m2) (flat_map transaction_ops (t :: ts)) (f1 ++ f2).
Proof. intros H1 H2. cbn [flat_map]. now apply effect_bind. Qed.

Lemma effect_for_up (body : Z -> M unit) g h n :
  (forall i, effect (body i) (g i) (h i)) ->
  forall i, effect (for_up n i body) (flat_map g (span i n)) (flat_map h (span i n)).
Proof.
  intros Hb. induction n as [|n IH]; intros i; [apply effect_ret|].
  cbn [for_up span flat_map]. apply effect_bind; [apply Hb | apply IH].
Qed.

Lemma flat_map_map {A B C} (f : B -> list C) (g : A -> B) l :
  flat_map f (map g l) = flat_map (fun x => f (g x)) l.
Proof. induction l as [|x l IH]; [reflexivity|]. cbn [map flat_map]. now rewrite IH. Qed.

Lemma flat_map_flat_map {A B C} (f : B -> list C) (g : A -> list B) l :
  flat_map f (flat_map g l) = flat_map (fun x => flat_map f (g x)) l.
Proof.
  induction l as [|x l IH]; [reflexivity|].
  cbn [flat_map]. now rewrite flat_map_app, IH.
Qed.

Lemma span_in_range n : forall i lo hi,
  lo <= i -> i + Z.of_nat n <= hi -> Forall (fun c => lo <= c < hi) (span i n).
Proof.
  induction n as [|n IH]; intros i lo hi Hlo Hhi; [constructor|].
  cbn [span]. constructor; [lia|]. apply IH; lia.
Qed.

(** The loop over all characters. *)
Lemma Text_all_chars_loop_effect :
  effect (for_up 64 32 (fun i => Text.OLED_printC (to_char i)))
         (flat_map write_ops (flat_map char_stream (span 32 64)))
         (flat_map char_fetches (span 32 64)).
Proof.
  rewrite flat_map_flat_map.
  assert (H : forall n i, 32 <= i -> i + Z.of_nat n <= 96 ->
            effect (for_up n i (fun i => Text.OLED_printC (to_char i)))
                   (flat_map (fun c => flat_map write_ops (char_stream c)) (span i n))
                   (flat_map char_fetches (span i n))).
  { induction n as [|n IH]; intros i Hlo Hhi; [apply effect_ret|].
    cbn [for_up span flat_map]. apply effect_bind; [|apply IH; lia].
    rewrite to_char_small by lia. apply Text_OLED_printC_effect. lia. }
  apply H; lia.
Qed.

Lemma Text_stop_delay_effect ms : effect (Text.I2C_stop ;; Text._delay_ms ms) stop_ops [].
Proof. apply effect_delay_after, Text_I2C_stop_effect. Qed.

Ltac tx_steps :=
  unfold transaction_ops; cbn [flat_map]; rewrite ?app_nil_r; rewrite <- ?app_assoc;
  apply effect_seq; [apply Text_I2C_start_effect|];
  repeat (apply effect_seq; [apply Text_I2C_write_effect|]).

Lemma Text_main_messages_effect :
  effect Text.main_messages
         (flat_map transaction_ops
            [ [0x78; 0x00; 0x04; 0x11; 0xB0];
              0x78 :: 0x40 :: flat_map char_stream (removelast Text.Message1);
              [0x78; 0x00; 0x05; 0x10; 0xB2];
              0x78 :: 0x40 :: flat_map char_stream (removelast Text.Message2) ])
         (string_fetches 0 (removelast Text.Message1) ++
          string_fetches 0 (removelast Text.Message2)).
Proof.
  destruct Text_messages_print as (H1 & H2 & _).
  unfold Text.main_messages.
  remember (string_fetches 0 (removelast Text.Message1)) as F1 eqn:EF1.
  remember (string_fetches 0 (removelast Text.Message2)) as F2 eqn:EF2.
  remember (flat_map char_stream (removelast Text.Message1)) as S1 eqn:ES1.
  remember (flat_map char_stream (removelast Text.Message2)) as S2 eqn:ES2.
  clear EF1 EF2 ES1 ES2.
  apply (effect_tx _ _ _ _ [] (F1 ++ F2)); [apply (Text_OLED_cursor_effect 20 0)|].
  apply (effect_tx _ _ _ _ F1 F2); [exact H1|].
  apply effect_delay_before.
  apply (effect_tx _ _ _ _ [] F2); [apply (Text_OLED_cursor_effect 5 2)|].
  rewrite one_transaction. apply effect_delay_after. exact H2.
Qed.

Lemma Text_main_all_chars_effect :
  effect Text.main_all_chars
         (flat_map transaction_ops
            [ [0x78; 0x00; 0x00; 0x10; 0xB0];
              0x78 :: 0x40 :: flat_map char_stream (span 32 64) ])
         (flat_map char_fetches (span 32 64)).
Proof.
  unfold Text.main_all_chars.
  apply (effect_tx _ _ _ _ [] _); [apply (Text_OLED_cursor_effect 0 0)|].
  rewrite one_transaction. unfold transaction_ops. cbn [flat_map].
  rewrite <- !app_assoc.
  apply (effect_bind _ _ _ _ [] _); [apply Text_I2C_start_effect|].
  apply (effect_bind _ _ _ _ [] _); [apply Text_I2C_write_effect|].
  apply (effect_bind _ _ _ _ [] _); [apply Text_I2C_write_effect|].
  eapply effect_eq;
    [apply effect_bind; [apply Text_all_chars_loop_effect | apply Text_stop_delay_effect]
    | reflexivity | apply app_nil_r].
Qed.

Lemma Text_main_scroll_effect :
  effect Text.main_scroll
         (flat_map transaction_ops (map (fun i => [0x78; 0x00; 0xD3; i]) (span 0 32))) [].
Proof.
  unfold Text.main_scroll. rewrite flat_map_map.
  eapply effect_eq;
    [apply (effect_for_up _ (fun i => transaction_ops [0x78; 0x00; 0xD3; i]) (fun _ => []))
    | reflexivity |].
  - intros i. tx_steps. apply Text_stop_delay_effect.
  - generalize 0. generalize 32%nat.
    induction n as [|n IH]; intros i; [reflexivity | apply IH].
Qed.

Lemma Text_main_reset_effect :
  effect Text.main_reset
         (flat_map transaction_ops
            [ [0x78; 0x00; 0x00; 0x10; 0xB0];
              0x78 :: 0x40 :: repeat 0x00 512;
              [0x78; 0x00; 0xD3; 0x00] ]) [].
Proof.
  unfold Text.main_reset.
  cbn [flat_map]. rewrite app_nil_r, app_assoc.
  apply effect_seq; [apply Text_OLED_clear_effect|].
  tx_steps. apply Text_I2C_stop_effect.
Qed.

Lemma Text_main_body_effect :
  effect Text.main_body
         (flat_map transaction_ops text_body_transactions)
         (string_fetches 0 (removelast Text.Message1) ++
          string_fetches 0 (removelast Text.Message2) ++
          flat_map char_fetches (span 32 64)).
Proof.
  unfold Text.main_body.
  change text_body_transactions with
    ([ [0x78; 0x00; 0x04; 0x11; 0xB0];
       0x78 :: 0x40 :: flat_map char_stream (removelast Text.Message1);
       [0x78; 0x00; 0x05; 0x10; 0xB2];
       0x78 :: 0x40 :: flat_map char_stream (removelast Text.Message2) ] ++
     [ [0x78; 0x00; 0x00; 0x10; 0xB0];
       0x78 :: 0x40 :: flat_map char_stream (span 32 64) ] ++
     map (fun i => [0x78; 0x00; 0xD3; i]) (span 0 32) ++
     [ [0x78; 0x00; 0x00; 0x10; 0xB0];
       0x78 :: 0x40 :: repeat 0x00 512;
       [0x78; 0x00; 0xD3; 0x00] ]).
  rewrite !flat_map_app.
  eapply effect_eq;
    [apply effect_bind; [apply Text_main_messages_effect|];
     apply effect_bind; [apply Text_main_all_chars_effect|];
     apply effect_bind; [apply Text_main_scroll_effect | apply Text_main_reset_effect]
    | reflexivity |].
  rewrite !app_nil_r. now rewrite <- app_assoc.
Qed.

Lemma Text_main_loop_effect n :
  effect (Text.main_loop n)
         (flat_map transaction_ops (concat (repeat text_body_transactions n)))
         (concat (repeat (string_fetches 0 (removelast Text.Message1) ++
                          string_fetches 0 (removelast Text.Message2) ++
                          flat_map char_fetches (span 32 64)) n)).
Proof.
  induction n as [|n IH]; [apply effect_ret|].
  cbn [Text.main_loop repeat concat]. rewrite flat_map_app.
  apply effect_bind; [apply Text_main_body_effect | exact IH].
Qed.

Lemma Text_main_setup_effect :
  effect Text.main_setup
         ([INIT_DDRB; INIT_PORTB] ++ flat_map transaction_ops text_setup_transactions)
         (table_fetches INIT_CMD Text.OLED_INIT_CMD 0 18).
Proof.
  unfold Text.main_setup, text_setup_transactions.
  eapply effect_eq;
    [apply effect_bind; [apply Text_OLED_init_effect | apply Text_OLED_clear_effect]
    | | apply app_nil_r].
  cbn [flat_map]. rewrite !app_nil_r. now rewrite <- !app_assoc.
Qed.

Lemma Text_main_effect n :
  effect (Text.main n)
         ([INIT_DDRB; INIT_PORTB] ++
          flat_map transaction_ops
            (text_setup_transactions ++ concat (repeat text_body_transactions n)))
         (table_fetches INIT_CMD Text.OLED_INIT_CMD 0 18 ++
          concat (repeat (string_fetches 0 (removelast Text.Message1) ++
                          string_fetches 0 (removelast Text.Message2) ++
                          flat_map char_fetches (span 32 64)) n)).
Proof.
  unfold Text.main. rewrite flat_map_app, app_assoc.
  apply effect_bind; [apply Text_main_setup_effect | apply Text_main_loop_effect].
Qed.

Lemma Forall_concat_repeat {A} (P : A -> Prop) l n :
  Forall P l -> Forall P (concat (repeat l n)).
Proof.
  intros H. induction n as [|n IH]; [constructor|].
  cbn [repeat concat]. apply Forall_app. now split.
Qed.

Lemma text_setup_bytes : Forall (Forall is_byte) text_setup_transactions.
Proof. apply is_byteb_all2. vm_compute. reflexivity. Qed.

Lemma text_body_bytes : Forall (Forall is_byte) text_body_transactions.
Proof. apply is_byteb_all2. vm_compute. reflexivity. Qed.

(** X9.  The all-characters block of [main] sets the cursor to the
    origin and then, in one data transaction, prints the codes 32..95:
    it reads the 320 bytes of the font table exactly once each, front to
    back, and sends 64 x 6 = 384 data bytes, each glyph after a zero
    column.  No read leaves the table, and the bus is idle afterwards. *)
Theorem X9_all_characters_cover_font : forall st : mcu,
  idle st ->
  exists st',
    Text.main_all_chars st = Some (tt, st') /\
    map f_idx (fetches st st') = map Z.of_nat (seq 0 320) /\
    map f_val (fetches st st') = Text.OLED_font /\
    frames (heard st st') =
      transaction_frames [0x78; 0x00; 0x00; 0x10; 0xB0] ++
      transaction_frames
        (0x78 :: 0x40 ::
         flat_map (fun k => 0x00 :: firstn 5 (skipn (5 * k) Text.OLED_font)) (seq 0 64)) /\
    length (flat_map (fun k => 0x00 :: firstn 5 (skipn (5 * k) Text.OLED_font)) (seq 0 64))
      = 384%nat /\
    idle st'.
Proof.
  intros st Hi.
  destruct (transactions_run _ _ _ st Text_main_all_chars_effect Hi)
    as (st' & Hr & Hf & Hfe & Hi').
  { apply is_byteb_all2. vm_compute. reflexivity. }
  exists st'. split; [exact Hr|]. rewrite Hfe, Hf.
  split; [vm_compute; reflexivity|].
  split; [vm_compute; reflexivity|].
  split; [|split; [vm_compute; reflexivity | exact Hi']].
  cbn [flat_map]. rewrite app_nil_r. do 4 f_equal.
Qed.

Lemma X9_all_characters_cover_font_witness :
  exists st',
    Text.main_all_chars power_on = Some (tt, st') /\
    map f_idx (fetches power_on st') = map Z.of_nat (seq 0 320) /\
    map f_val (fetches power_on st') = Text.OLED_font /\
    frames (heard power_on st') =
      transaction_frames [0x78; 0x00; 0x00; 0x10; 0xB0] ++
      transaction_frames
        (0x78 :: 0x40 ::
         flat_map (fun k => 0x00 :: firstn 5 (skipn (5 * k) Text.OLED_font)) (seq 0 64)) /\
    length (flat_map (fun k => 0x00 :: firstn 5 (skipn (5 * k) Text.OLED_font)) (seq 0 64))
      = 384%nat /\
    idle st'.
Proof.
  apply (X9_all_characters_cover_font power_on). repeat split; reflexivity.
Defined.

(** X10.  From any register contents, [main] run up to any number of
    rounds of its loop never fails: no font, string or settings read
    leaves its object.  After [I2C_init] everything on the bus is a whole
    transaction: 3 for the setup (settings, cursor, 512 zero bytes) and
    41 per round (cursor and message twice, cursor and all characters,
    32 shift commands with values 0..31, cursor and 512 zero bytes, shift
    reset), and the bus is idle after every round. *)
Theorem X10_main_runs_whole_transactions : forall (n : nat) (st : mcu),
  exists st1 st',
    Text.I2C_init st = Some (tt, st1) /\ idle st1 /\
    Text.main n st = Some (tt, st') /\
    frames (heard st1 st') =
      flat_map transaction_frames
        (text_setup_transactions ++ concat (repeat text_body_transactions n)) /\
    length text_setup_transactions = 3%nat /\
    length text_body_transactions = 41%nat /\
    idle st'.
Proof.
  intros n st.
  destruct (after_init_run _ _ _ st (Text_main_effect n))
    as (st1 & st' & Hr1 & Hi1 & Hr & Hf & _ & Hi').
  { apply Forall_app. split; [apply text_setup_bytes|].
    apply Forall_concat_repeat, text_body_bytes. }
  exists st1, st'.
  split; [exact Hr1|]. split; [exact Hi1|]. split; [exact Hr|]. split; [exact Hf|].
  split; [reflexivity|]. split; [reflexivity | exact Hi'].
Qed.

(** ** The big-digit variant: transactions *)

Lemma Big_I2C_stop_effect : effect Big.I2C_stop stop_ops [].
Proof. exact Text_I2C_stop_effect. Qed.

Lemma Big_I2C_start_effect addr :
  effect (Big.I2C_start addr) (start_ops ++ write_ops addr) [].
Proof.
  unfold Big.I2C_start.
  change (start_ops ++ write_ops addr) with ([SDA_LOW] ++ [SCL_LOW] ++ write_ops addr).
  apply effect_seq; [apply (effect_action SDA_LOW)|].
  apply effect_seq; [apply (effect_action SCL_LOW) | apply Big_I2C_write_effect].
Qed.

Lemma Big_transaction_effect mode body bytes f :
  effect body (flat_map write_ops bytes) f ->
  effect (Big.I2C_start Big.OLED_ADDR ;; Big.I2C_write mode ;; body ;; Big.I2C_stop)
         (transaction_ops (Big.OLED_ADDR :: mode :: bytes)) f.
Proof.
  intros Hb. unfold transaction_ops. cbn [flat_map].
  rewrite <- !app_assoc. rewrite (app_assoc start_ops).
  apply (effect_bind _ _ _ _ [] f); [apply Big_I2C_start_effect|].
  apply (effect_bind _ _ _ _ [] f); [apply Big_I2C_write_effect|].
  apply (effect_eq _ (flat_map write_ops bytes ++ stop_ops) _ (f ++ []));
    [| reflexivity | apply app_nil_r].
  apply effect_bind; [exact Hb | apply Big_I2C_stop_effect].
Qed.

Lemma Big_OLED_init_effect :
  effect Big.OLED_init
         ([INIT_DDRB; INIT_PORTB] ++
          flat_map transaction_ops [0x78 :: 0x00 :: firstn 15 Big.OLED_INIT_CMD])
         (table_fetches INIT_CMD Big.OLED_INIT_CMD 0 15).
Proof.
  unfold Big.OLED_init. rewrite one_transaction.
  apply (effect_bind _ _ _ _ [] _); [apply I2C_init_effect|].
  apply (Big_transaction_effect Big.OLED_CMD_MODE _ (firstn 15 Big.OLED_INIT_CMD)).
  apply (effect_table_loop Big.I2C_write INIT_CMD Big.OLED_INIT_CMD 15
           Big_I2C_write_effect 0);
    [lia | change (Z.of_nat (length Big.OLED_INIT_CMD)) with 17; lia].
Qed.

(** X12.  In the big-digit variant [OLED_init], from any register
    contents, makes the bus idle and sends one command-mode transaction:
    0x78, 0x00 and the first 15 bytes of its settings table (ending with
    the three cursor-home commands 0x00, 0x10, 0xB0), read at indices
    0..14; the two flip bytes after them are not sent. *)
Theorem X12_big_OLED_init_sequence : forall st : mcu,
  exists st1 st',
    Big.I2C_init st = Some (tt, st1) /\ idle st1 /\
    Big.OLED_init st = Some (tt, st') /\
    frames (heard st1 st') =
      transaction_frames
        [ 0x78; 0x00;
          0xA8; 0x1F; 0x22; 0x00; 0x03; 0x20; 0x01; 0xDA; 0x02;
          0x8D; 0x14; 0xAF; 0x00; 0x10; 0xB0 ] /\
    map f_idx (fetches st st') = [0; 1; 2; 3; 4; 5; 6; 7; 8; 9; 10; 11; 12; 13; 14] /\
    map f_val (fetches st st') = firstn 15 Big.OLED_INIT_CMD /\
    idle st'.
Proof.
  intros st.
  destruct (after_init_run _ _ _ st Big_OLED_init_effect)
    as (st1 & st' & Hr1 & Hi1 & Hr & Hf & Hfe & Hi').
  { apply is_byteb_all2. reflexivity. }
  exists st1, st'. split; [exact Hr1|]. split; [exact Hi1|]. split; [exact Hr|].
  split; [rewrite Hf; reflexivity|].
  rewrite Hfe. split; [reflexivity|]. split; [reflexivity | exact Hi'].
Qed.

Lemma nth_digit buf i : Forall (fun d => 0 <= d < 20) buf -> 0 <= nth i buf 0 < 20.
Proof.
  intros H. destruct (Nat.lt_ge_cases i (length buf)) as [Hlt|Hge].
  - rewrite Forall_forall in H. apply H, nth_In, Hlt.
  - rewrite nth_overflow by assumption. lia.
Qed.

Lemma buffer_by_index buf : length buf = 8%nat ->
  map (fun i => nth (Z.to_nat i) buf 0) (span 0 8) = buf.
Proof.
  intros H.
  do 8 (destruct buf as [|? buf]; [discriminate H|]).
  destruct buf; [reflexivity | discriminate H].
Qed.

Lemma Big_OLED_printB_effect buf : printable buf ->
  effect (Big.OLED_printB buf)
         (transaction_ops (refresh_bytes buf))
         (flat_map digit_fetches buf).
Proof.
  intros [Hlen Hd]. unfold Big.OLED_printB, refresh_bytes.
  apply (Big_transaction_effect Big.OLED_DAT_MODE).
  pose proof (effect_for_up
                (fun i => Big.OLED_printD (nth (Z.to_nat i) buf 0))
                (fun i => flat_map write_ops (digit_stream (nth (Z.to_nat i) buf 0)))
                (fun i => digit_fetches (nth (Z.to_nat i) buf 0)) 8) as H.
  eapply effect_eq; [apply H | |].
  - intros i. apply Big_OLED_printD_effect, nth_digit, Hd.
  - rewrite flat_map_flat_map, <- (flat_map_map (fun d => flat_map write_ops (digit_stream d))).
    now rewrite buffer_by_index.
  - rewrite <- (flat_map_map digit_fetches). now rewrite buffer_by_index.
Qed.

Lemma OLED_stretch_byte x : is_byte (Big.OLED_stretch x).
Proof. unfold Big.OLED_stretch. apply to_u8_range. Qed.

Lemma digit_stream_bytes d : Forall is_byte (digit_stream d).
Proof.
  assert (Hs : forall b, Forall is_byte (stretched b))
    by (intros b; unfold stretched; repeat (apply Forall_cons; [apply OLED_stretch_byte|]);
        apply Forall_nil).
  unfold digit_stream.
  apply Forall_app. split; [apply is_byteb_all; reflexivity|].
  apply Forall_app. split; [apply Forall_concat_repeat, Hs|].
  apply Forall_app. split; apply Forall_concat_repeat, Hs.
Qed.

Lemma refresh_bytes_ok buf : Forall is_byte (refresh_bytes buf).
Proof.
  unfold refresh_bytes. constructor; [unfold is_byte; lia|].
  constructor; [unfold is_byte; lia|].
  induction buf as [|d buf IH]; [constructor|].
  cbn [flat_map]. apply Forall_app. split; [apply digit_stream_bytes | exact IH].
Qed.

Lemma digit_streams_length buf :
  length (flat_map digit_stream buf) = (64 * length buf)%nat.
Proof.
  induction buf as [|d buf IH]; [reflexivity|].
  cbn [flat_map]. rewrite length_app, IH.
  replace (length (digit_stream d)) with 64%nat by reflexivity. cbn [length]. lia.
Qed.

(** X11.  For a buffer of 8 digits of the font table [OLED_printB] sends
    one data-mode transaction: 0x78, 0x40, then for each digit in buffer
    order its 64 bytes (8 zero bytes, then the stretched glyph), 512 data
    bytes in all - one whole 128x32 frame.  It reads 3 font bytes per
    digit, at 3*digit onwards, and leaves the bus idle. *)
Theorem X11_OLED_printB_whole_frame : forall (buf : list Z) (st : mcu),
  length buf = 8%nat ->
  Forall (fun d => 0 <= d < 20) buf ->
  idle st ->
  exists st',
    Big.OLED_printB buf st = Some (tt, st') /\
    frames (heard st st') =
      transaction_frames (0x78 :: 0x40 :: flat_map digit_stream buf) /\
    length (flat_map digit_stream buf) = 512%nat /\
    map f_idx (fetches st st') = flat_map (fun d => [3 * d; 3 * d + 1; 3 * d + 2]) buf /\
    idle st'.
Proof.
  intros buf st Hlen Hd Hi.
  pose proof (Big_OLED_printB_effect buf (conj Hlen Hd)) as He.
  rewrite <- one_transaction in He.
  destruct (transactions_run _ _ _ st He Hi) as (st' & Hr & Hf & Hfe & Hi').
  { constructor; [apply refresh_bytes_ok | constructor]. }
  exists st'. split; [exact Hr|].
  split; [rewrite Hf; cbn [flat_map]; apply app_nil_r|].
  split; [rewrite digit_streams_length, Hlen; reflexivity|].
  split; [|exact Hi'].
  rewrite Hfe. clear. induction buf as [|d buf IH]; [reflexivity|].
  cbn [flat_map]. rewrite map_app, IH. reflexivity.
Qed.

Lemma X11_OLED_printB_whole_frame_witness :
  exists st',
    Big.OLED_printB [0; 0; 17; 0; 0; 16; 0; 0] power_on = Some (tt, st') /\
    frames (heard power_on st') =
      transaction_frames (0x78 :: 0x40 :: flat_map digit_stream [0; 0; 17; 0; 0; 16; 0; 0]) /\
    length (flat_map digit_stream [0; 0; 17; 0; 0; 16; 0; 0]) = 512%nat /\
    map f_idx (fetches power_on st') =
      flat_map (fun d => [3 * d; 3 * d + 1; 3 * d + 2]) [0; 0; 17; 0; 0; 16; 0; 0] /\
    idle st'.
Proof.
  apply (X11_OLED_printB_whole_frame [0; 0; 17; 0; 0; 16; 0; 0] power_on).
  - reflexivity.
  - repeat (apply Forall_cons; [lia|]). apply Forall_nil.
  - repeat split; reflexivity.
Defined.

(** ** The stretch function on any argument *)

(** X13.  [OLED_stretch] looks at the two low bits of its argument only,
    whatever the other bits are - which is why [OLED_printD] can pass the
    shifted byte unmasked - and has just four results. *)
Theorem X13_stretch_ignores_high_bits : forall x : Z,
  Big.OLED_stretch x = Big.OLED_stretch (x mod 4) /\
  Big.OLED_stretch x = Big.OLED_stretch (Z.land x 3) /\
  (Big.OLED_stretch x = 0x00 \/ Big.OLED_stretch x = 0x0F \/
   Big.OLED_stretch x = 0xF0 \/ Big.OLED_stretch x = 0xFF).
Proof.
  intros x.
  assert (Hm : forall k, 0 <= k < 2 -> Z.testbit (x mod 4) k = Z.testbit x k).
  { intros k Hk. change 4 with (2 ^ 2). apply Z.mod_pow2_bits_low. lia. }
  assert (Hl : Z.land x 3 = x mod 4).
  { change 3 with (Z.ones 2). rewrite Z.land_ones by lia. reflexivity. }
  rewrite Hl, !OLED_stretch_bits, !Hm by lia.
  split; [reflexivity|]. split; [reflexivity|].
  destruct (Z.testbit x 0), (Z.testbit x 1); cbn; auto.
Qed.

Lemma byte_bits_eq a b : is_byte a -> is_byte b ->
  map (Z.testbit a) [0; 1; 2; 3; 4; 5; 6; 7] = map (Z.testbit b) [0; 1; 2; 3; 4; 5; 6; 7] ->
  a = b.
Proof.
  intros Ha Hb H.
  rewrite <- (to_u8_small a Ha), <- (to_u8_small b Hb). unfold to_u8.
  change 256 with (2 ^ 8). apply Z.bits_inj'. intros k Hk.
  destruct (Z_lt_le_dec k 8) as [Hlt|Hge].
  - rewrite !Z.mod_pow2_bits_low by lia.
    cbn [map] in H. injection H as H0 H1 H2 H3 H4 H5 H6 H7.
    assert (Hc : k = 0 \/ k = 1 \/ k = 2 \/ k = 3 \/ k = 4 \/ k = 5 \/ k = 6 \/ k = 7) by lia.
    destruct Hc as [->|[->|[->|[->|[->|[->|[->| ->]]]]]]]; assumption.
  - rewrite !Z.mod_pow2_bits_high by lia. reflexivity.
Qed.

(** X14.  Stretching loses nothing: two glyph bytes with the same four
    stretched bytes are the same byte. *)
Theorem X14_stretching_is_injective : forall b b' : Z,
  0 <= b < 256 -> 0 <= b' < 256 ->
  Big.OLED_printD_sb 4 b = Big.OLED_printD_sb 4 b' ->
  b = b'.
Proof.
  intros b b' Hb Hb' H.
  rewrite !OLED_printD_sb_stretched in H by assumption.
  apply (f_equal (flat_map (fun s => map (Z.testbit s) [0; 1; 2; 3; 4; 5; 6; 7]))) in H.
  rewrite !stretched_testbits in H. cbn [flat_map repeat app] in H.
  apply byte_bits_eq; [exact Hb | exact Hb' |].
  cbn [map]. injection H. intros.
  repeat (apply f_equal2; [assumption|]). reflexivity.
Qed.

Lemma X14_stretching_is_injective_witness :
  Big.OLED_printD_sb 4 0x41 = Big.OLED_printD_sb 4 (0x40 + 1) /\ 0x41 = 0x40 + 1.
Proof.
  split; [reflexivity|].
  apply (X14_stretching_is_injective 0x41 (0x40 + 1)); [lia | lia | reflexivity].
Defined.

(** ** Digits outside the font table *)

Lemma OLED_printD_index_eq ch : OLED_printD_index ch = (3 * ch) mod 256.
Proof.
  unfold OLED_printD_index, to_u8. rewrite Z.shiftl_mul_pow2 by lia.
  f_equal. change (2 ^ 1) with 2. lia.
Qed.

Lemma Big_OLED_printD_index_effect ch :
  OLED_printD_index ch + 2 < 60 ->
  effect (Big.OLED_printD ch)
         (flat_map write_ops
            (repeat 0 8 ++
             concat (repeat (Big.OLED_printD_sb 4
                       (nth (Z.to_nat (OLED_printD_index ch)) Big.OLED_FONT 0)) 4) ++
             concat (repeat (Big.OLED_printD_sb 4
                       (nth (Z.to_nat (OLED_printD_index ch + 1)) Big.OLED_FONT 0)) 6) ++
             concat (repeat (Big.OLED_printD_sb 4
                       (nth (Z.to_nat (OLED_printD_index ch + 1 + 1)) Big.OLED_FONT 0)) 4)))
         [ mkFetch FONT (OLED_printD_index ch)
             (nth (Z.to_nat (OLED_printD_index ch)) Big.OLED_FONT 0);
           mkFetch FONT (OLED_printD_index ch + 1)
             (nth (Z.to_nat (OLED_printD_index ch + 1)) Big.OLED_FONT 0);
           mkFetch FONT (OLED_printD_index ch + 1 + 1)
             (nth (Z.to_nat (OLED_printD_index ch + 1 + 1)) Big.OLED_FONT 0) ].
Proof.
  intros Hi. unfold Big.OLED_printD. fold (OLED_printD_index ch).
  pose proof (to_u8_range (ch + Z.shiftl ch 1)) as Hr. fold (OLED_printD_index ch) in Hr.
  rewrite flat_map_app.
  apply (effect_bind _ _ _ _ [] _).
  - eapply effect_eq; [apply effect_repeatM, (Big_I2C_write_effect 0) | | apply concat_repeat_nil].
    apply concat_repeat_flat_map.
  - apply Big_OLED_printD_loop_effect; lia.
Qed.

Lemma pgm_read_byte_outside o tbl i st :
  Z.of_nat (length tbl) <= i -> pgm_read_byte o tbl i st = None.
Proof.
  intros H. unfold pgm_read_byte.
  destruct (Z.ltb_spec i (Z.of_nat (length tbl))); [lia|].
  now rewrite andb_false_r.
Qed.

Lemma pgm_read_byte_inside o tbl i st :
  0 <= i < Z.of_nat (length tbl) ->
  pgm_read_byte o tbl i st =
  Some (nth (Z.to_nat i) tbl 0, fetch_all [mkFetch o i (nth (Z.to_nat i) tbl 0)] st).
Proof.
  intros H. unfold pgm_read_byte.
  replace ((0 <=? i) && (i <? Z.of_nat (length tbl))) with true
    by (symmetry; apply andb_true_iff; split; [apply Z.leb_le | apply Z.ltb_lt]; lia).
  reflexivity.
Qed.

(** The glyph loop stops at the first index outside the table. *)
Lemma Big_OLED_printD_loop_outside n : forall i0 st,
  0 <= i0 < 256 -> 60 <= i0 + Z.of_nat n ->
  Big.OLED_printD_loop (S n) i0 st = None.
Proof.
  induction n as [|n IH]; intros i0 st Hi Hn.
  - cbn [Big.OLED_printD_loop]. apply bind_None.
    apply pgm_read_byte_outside. rewrite Big_font_length. lia.
  - destruct (Z_lt_le_dec i0 60) as [Hin|Hout].
    + change (Big.OLED_printD_loop (S (S n)) i0 st) with
        (bind (pgm_read_byte FONT Big.OLED_FONT i0)
           (fun b =>
              bind (repeatM (if Nat.eqb (S (S n)) 2 then 6%nat else 4%nat)
                      (for_up 4 0
                         (fun k => Big.I2C_write
                                     (nth (Z.to_nat k) (Big.OLED_printD_sb 4 b) 0))))
                   (fun _ => Big.OLED_printD_loop (S n) (to_u8 (i0 + 1)))) st).
      rewrite (bind_Some _ _ _ _ _ (pgm_read_byte_inside FONT Big.OLED_FONT i0 st
                 ltac:(rewrite Big_font_length; lia))).
      rewrite (bind_Some _ _ _ _ _ (Big_row_effect _ _ _)).
      rewrite to_u8_small by lia. apply IH; lia.
    + cbn [Big.OLED_printD_loop]. apply bind_None.
      apply pgm_read_byte_outside. rewrite Big_font_length. lia.
Qed.

Lemma Big_OLED_printD_outside ch st :
  60 <= OLED_printD_index ch + 2 -> Big.OLED_printD ch st = None.
Proof.
  intros H. unfold Big.OLED_printD. fold (OLED_printD_index ch).
  pose proof (to_u8_range (ch + Z.shiftl ch 1)) as Hr. fold (OLED_printD_index ch) in Hr.
  rewrite (bind_Some _ _ _ _ _ (effect_repeatM 8 _ _ _ (Big_I2C_write_effect 0) st)).
  apply (Big_OLED_printD_loop_outside 2); [exact Hr | exact H].
Qed.

Lemma printD_index_classes ch : 0 <= ch < 256 ->
  (ch < 20 \/ 86 <= ch <= 104 \/ 171 <= ch <= 189 -> (3 * ch) mod 256 + 2 < 60) /\
  (20 <= ch <= 85 \/ 105 <= ch <= 170 \/ 190 <= ch -> 60 <= (3 * ch) mod 256 + 2).
Proof.
  intros Hch.
  pose proof (byte_forallb
    (fun ch => if (ch <? 20) || ((86 <=? ch) && (ch <=? 104))
                  || ((171 <=? ch) && (ch <=? 189))
               then (3 * ch) mod 256 + 2 <? 60
               else 60 <=? (3 * ch) mod 256 + 2) eq_refl ch Hch) as H.
  cbv beta in H.
  destruct (Z.ltb_spec ch 20), (Z.leb_spec 86 ch), (Z.leb_spec ch 104),
           (Z.leb_spec 171 ch), (Z.leb_spec ch 189);
    cbn [orb andb] in H;
    try apply Z.ltb_lt in H; try apply Z.leb_le in H; split; lia.
Qed.

(** X15.  The font index of [OLED_printD] is 3*ch kept in 8 bits, and
    nothing checks it.  Among the byte values of [ch], the digits 0..19
    are read at 3*ch as meant; the values 86..104 and 171..189 wrap around
    and are read, without any failure, inside the table at 3*ch-256 and
    3*ch-512; for every other value a read leaves the 60-byte table. *)
Theorem X15_printD_index_wraps : forall (ch : Z) (st : mcu),
  0 <= ch < 256 ->
  (ch < 20 \/ 86 <= ch <= 104 \/ 171 <= ch <= 189 ->
     exists st',
       Big.OLED_printD ch st = Some (tt, st') /\
       map f_idx (fetches st st') =
         [(3 * ch) mod 256; (3 * ch) mod 256 + 1; (3 * ch) mod 256 + 2] /\
       (3 * ch) mod 256 =
         (if ch <? 20 then 3 * ch else if ch <? 105 then 3 * ch - 256 else 3 * ch - 512)) /\
  (20 <= ch <= 85 \/ 105 <= ch <= 170 \/ 190 <= ch -> Big.OLED_printD ch st = None).
Proof.
  intros ch st Hch. destruct (printD_index_classes ch Hch) as [Hin Hout].
  split.
  - intros Hc. specialize (Hin Hc). rewrite <- OLED_printD_index_eq in *.
    eexists. split; [apply (Big_OLED_printD_index_effect ch Hin)|].
    split.
    + rewrite effect_fetches. cbn [map f_idx]. repeat (f_equal; try lia).
    + rewrite OLED_printD_index_eq.
      destruct (Z.ltb_spec ch 20); [apply Z.mod_small; lia|].
      destruct (Z.ltb_spec ch 105).
      * replace (3 * ch) with (3 * ch - 256 + 1 * 256) at 1 by lia.
        rewrite Z_mod_plus_full. apply Z.mod_small. lia.
      * replace (3 * ch) with (3 * ch - 512 + 2 * 256) at 1 by lia.
        rewrite Z_mod_plus_full. apply Z.mod_small. lia.
  - intros Hc. specialize (Hout Hc). apply Big_OLED_printD_outside.
    now rewrite OLED_printD_index_eq.
Qed.

Lemma X15_printD_index_wraps_witness :
  (exists st',
     Big.OLED_printD 86 power_on = Some (tt, st') /\
     map f_idx (fetches power_on st') =
       [(3 * 86) mod 256; (3 * 86) mod 256 + 1; (3 * 86) mod 256 + 2] /\
     (3 * 86) mod 256 =
       (if 86 <? 20 then 3 * 86 else if 86 <? 105 then 3 * 86 - 256 else 3 * 86 - 512)) /\
  Big.OLED_printD 20 power_on = None.
Proof.
  split.
  - apply (X15_printD_index_wraps 86 power_on); lia.
  - apply (X15_printD_index_wraps 20 power_on); lia.
Defined.

(** ** The screen buffer and the counters over many rounds *)

Lemma c_true_land_0x20 a : c_true (Z.land a 0x20) = Z.testbit a 5.
Proof.
  pose proof (land_bit a 5) as H. change (2 ^ 5) with 32 in H.
  rewrite H by lia. now destruct (Z.testbit a 5).
Qed.

Lemma nibbles a : Z.land a 0x0F = a mod 16 /\ Z.shiftr a 4 = a / 16.
Proof.
  split.
  - change 0x0F with (Z.ones 4). now rewrite Z.land_ones by lia.
  - now rewrite Z.shiftr_div_pow2 by lia.
Qed.

Lemma main_show_buffer s : length (Big.buffer s) = 8%nat ->
  Big.main_show s =
  Big.mkLocals
    [ Big.counter_c s / 16; Big.counter_c s mod 16;
      (if Z.testbit (Big.counter_a s) 5 then 17 else 19);
      Big.counter_b s / 16; Big.counter_b s mod 16;
      nth 5 (Big.buffer s) 0;
      Big.counter_a s / 16; Big.counter_a s mod 16 ]
    (Big.counter_a s) (Big.counter_b s) (Big.counter_c s).
Proof.
  intros H. destruct s as [buf a b c]. cbn [Big.buffer] in H.
  do 8 (destruct buf as [|? buf]; [discriminate H|]).
  destruct buf; [|discriminate H].
  unfold Big.main_show. cbn [Big.buffer Big.counter_a Big.counter_b Big.counter_c].
  rewrite c_true_land_0x20.
  destruct (nibbles a) as [-> ->]. destruct (nibbles b) as [-> ->].
  destruct (nibbles c) as [-> ->].
  destruct (Z.testbit a 5); reflexivity.
Qed.

Lemma nibble_ranges a : 0 <= a < 256 -> 0 <= a / 16 < 16 /\ 0 <= a mod 16 < 16.
Proof.
  intros Ha. split; [|apply Z.mod_pos_bound; lia].
  split; [apply Z.div_pos; lia | apply Z.div_lt_upper_bound; lia].
Qed.

(** X16.  With byte counters and an 8-entry buffer, the buffer statements
    of [main] leave the counters alone and make the buffer show them in
    hexadecimal: entries 0,1 the nibbles of counter c, 3,4 those of b,
    6,7 those of a, high nibble first; entry 2 is the colon (17) while bit
    5 of counter a is set and the blank (19) otherwise; entry 5 is not
    written.  All entries written are valid font digits. *)
Theorem X16_main_show_hex_digits : forall s : Big.locals,
  length (Big.buffer s) = 8%nat ->
  0 <= Big.counter_a s < 256 ->
  0 <= Big.counter_b s < 256 ->
  0 <= Big.counter_c s < 256 ->
  Big.buffer (Big.main_show s) =
    [ Big.counter_c s / 16; Big.counter_c s mod 16;
      (if Z.testbit (Big.counter_a s) 5 then 17 else 19);
      Big.counter_b s / 16; Big.counter_b s mod 16;
      nth 5 (Big.buffer s) 0;
      Big.counter_a s / 16; Big.counter_a s mod 16 ] /\
  Forall (fun d => 0 <= d < 20)
         (firstn 5 (Big.buffer (Big.main_show s)) ++ skipn 6 (Big.buffer (Big.main_show s))) /\
  16 * nth 6 (Big.buffer (Big.main_show s)) 0 + nth 7 (Big.buffer (Big.main_show s)) 0
    = Big.counter_a s /\
  16 * nth 3 (Big.buffer (Big.main_show s)) 0 + nth 4 (Big.buffer (Big.main_show s)) 0
    = Big.counter_b s /\
  16 * nth 0 (Big.buffer (Big.main_show s)) 0 + nth 1 (Big.buffer (Big.main_show s)) 0
    = Big.counter_c s /\
  Big.counter_a (Big.main_show s) = Big.counter_a s /\
  Big.counter_b (Big.main_show s) = Big.counter_b s /\
  Big.counter_c (Big.main_show s) = Big.counter_c s.
Proof.
  intros s Hlen Ha Hb Hc. rewrite (main_show_buffer s Hlen).
  cbn [Big.buffer Big.counter_a Big.counter_b Big.counter_c firstn skipn nth app].
  destruct (nibble_ranges _ Ha) as [Ha1 Ha2].
  destruct (nibble_ranges _ Hb) as [Hb1 Hb2].
  destruct (nibble_ranges _ Hc) as [Hc1 Hc2].
  pose proof (Z.div_mod (Big.counter_a s) 16).
  pose proof (Z.div_mod (Big.counter_b s) 16).
  pose proof (Z.div_mod (Big.counter_c s) 16).
  split; [reflexivity|]. split.
  - repeat (apply Forall_cons; [try lia; destruct (Z.testbit (Big.counter_a s) 5); lia|]).
    apply Forall_nil.
  - repeat split; lia.
Qed.

Lemma X16_main_show_hex_digits_witness :
  Big.buffer (Big.main_show (Big.mkLocals [0; 0; 17; 0; 0; 16; 0; 0] 0xA5 0x3C 0x7E)) =
    [7; 14; 17; 3; 12; 16; 10; 5].
Proof.
  apply (X16_main_show_hex_digits (Big.mkLocals [0; 0; 17; 0; 0; 16; 0; 0] 0xA5 0x3C 0x7E));
    cbn [Big.buffer Big.counter_a Big.counter_b Big.counter_c length]; lia.
Defined.

Lemma main_count_value s :
  0 <= Big.counter_a s < 256 -> 0 <= Big.counter_b s < 256 -> 0 <= Big.counter_c s < 256 ->
  value24 (Big.main_count s) = (value24 s + 1) mod 2 ^ 24 /\
  Big.buffer (Big.main_count s) = Big.buffer s /\
  0 <= Big.counter_a (Big.main_count s) < 256 /\
  0 <= Big.counter_b (Big.main_count s) < 256 /\
  0 <= Big.counter_c (Big.main_count s) < 256.
Proof.
  intros Ha Hb Hc.
  destruct (to_u8_succ _ Hb) as [Eb _]. destruct (to_u8_succ _ Hc) as [Ec _].
  unfold value24. change (2 ^ 24) with 16777216.
  destruct (Z.eq_dec (Big.counter_a s) 255) as [E|E].
  - rewrite (main_count_carry s E). cbn [Big.buffer Big.counter_a Big.counter_b Big.counter_c].
    rewrite Eb, Ec, E.
    destruct (Z.eqb_spec (Big.counter_b s) 255) as [Eb'|Eb'].
    + rewrite Eb'. cbn [Z.eqb].
      destruct (Z.eqb_spec (Big.counter_c s) 255) as [Ec'|Ec'].
      * rewrite Ec'. repeat split; try lia; reflexivity.
      * rewrite Z.mod_small by lia. repeat split; lia.
    + destruct (Z.eqb_spec (Big.counter_b s + 1) 0); [lia|].
      rewrite Z.mod_small by lia. repeat split; lia.
  - rewrite (main_count_plain s) by lia.
    cbn [Big.buffer Big.counter_a Big.counter_b Big.counter_c].
    rewrite Z.mod_small by lia. repeat split; lia.
Qed.

Lemma main_counts_value n : forall s,
  0 <= Big.counter_a s < 256 -> 0 <= Big.counter_b s < 256 -> 0 <= Big.counter_c s < 256 ->
  value24 (main_counts n s) = (value24 s + Z.of_nat n) mod 2 ^ 24 /\
  Big.buffer (main_counts n s) = Big.buffer s /\
  0 <= Big.counter_a (main_counts n s) < 256 /\
  0 <= Big.counter_b (main_counts n s) < 256 /\
  0 <= Big.counter_c (main_counts n s) < 256.
Proof.
  induction n as [|n IH]; intros s Ha Hb Hc.
  - cbn [main_counts]. rewrite Z.add_0_r.
    split; [|repeat split; lia].
    symmetry. apply Z.mod_small. unfold value24. change (2 ^ 24) with 16777216. lia.
  - cbn [main_counts].
    destruct (main_count_value s Ha Hb Hc) as (Hv & Hbuf & Ha' & Hb' & Hc').
    destruct (IH _ Ha' Hb' Hc') as (Hv2 & Hbuf2 & Hr).
    split; [|split; [congruence | exact Hr]].
    rewrite Hv2, Hv, Zplus_mod_idemp_l. f_equal. lia.
Qed.

Lemma value24_digits s v :
  0 <= Big.counter_a s < 256 -> 0 <= Big.counter_b s < 256 -> 0 <= Big.counter_c s < 256 ->
  value24 s = v ->
  Big.counter_a s = v mod 256 /\ Big.counter_b s = (v / 256) mod 256 /\
  Big.counter_c s = v / 65536.
Proof.
  unfold value24. intros Ha Hb Hc <-.
  assert (Hd : (Big.counter_a s + 256 * Big.counter_b s + 65536 * Big.counter_c s) / 256
               = Big.counter_b s + 256 * Big.counter_c s).
  { symmetry.
    apply (Z.div_unique _ 256 (Big.counter_b s + 256 * Big.counter_c s) (Big.counter_a s)); lia. }
  split; [|split].
  - apply (Z.mod_unique _ 256 (Big.counter_b s + 256 * Big.counter_c s)); lia.
  - rewrite Hd. apply (Z.mod_unique _ 256 (Big.counter_c s)); lia.
  - apply (Z.div_unique _ 65536 _ (Big.counter_a s + 256 * Big.counter_b s)); lia.
Qed.

(** X17.  The counting statements of [main] make the three bytes one
    24-bit counter over any number of rounds: after [n] rounds they are
    the three bytes of (start value + n) modulo 2^24, low byte in counter
    a; so the count comes back to its start after 2^24 rounds and not
    before.  The buffer is not touched by them. *)
Theorem X17_counters_count_mod_2_24 : forall (n : nat) (s : Big.locals),
  0 <= Big.counter_a s < 256 ->
  0 <= Big.counter_b s < 256 ->
  0 <= Big.counter_c s < 256 ->
  Big.counter_a (main_counts n s) = ((value24 s + Z.of_nat n) mod 2 ^ 24) mod 256 /\
  Big.counter_b (main_counts n s) = (((value24 s + Z.of_nat n) mod 2 ^ 24) / 256) mod 256 /\
  Big.counter_c (main_counts n s) = ((value24 s + Z.of_nat n) mod 2 ^ 24) / 65536 /\
  Big.buffer (main_counts n s) = Big.buffer s /\
  ((Big.counter_a (main_counts n s) = Big.counter_a s /\
    Big.counter_b (main_counts n s) = Big.counter_b s /\
    Big.counter_c (main_counts n s) = Big.counter_c s) <->
   Z.of_nat n mod 2 ^ 24 = 0).
Proof.
  intros n s Ha Hb Hc.
  destruct (main_counts_value n s Ha Hb Hc) as (Hv & Hbuf & Ha' & Hb' & Hc').
  destruct (value24_digits _ _ Ha' Hb' Hc' Hv) as (E1 & E2 & E3).
  split; [exact E1|]. split; [exact E2|]. split; [exact E3|]. split; [exact Hbuf|].
  assert (Hrange : 0 <= value24 s < 2 ^ 24)
    by (unfold value24; change (2 ^ 24) with 16777216; lia).
  split.
  - intros (Ea & Eb & Ec).
    assert (Hsame : value24 (main_counts n s) = value24 s)
      by (unfold value24; now rewrite Ea, Eb, Ec).
    rewrite Hv in Hsame.
    replace (Z.of_nat n) with ((value24 s + Z.of_nat n) - value24 s) by lia.
    rewrite Zminus_mod, Hsame, (Z.mod_small (value24 s)) by exact Hrange.
    rewrite Z.sub_diag. reflexivity.
  - intros Hn.
    assert (Hsame : value24 (main_counts n s) = value24 s).
    { rewrite Hv, Zplus_mod, Hn, Z.add_0_r, Z.mod_mod by lia. now apply Z.mod_small. }
    destruct (value24_digits _ _ Ha' Hb' Hc' Hsame) as (F1 & F2 & F3).
    destruct (value24_digits s _ Ha Hb Hc eq_refl) as (G1 & G2 & G3).
    repeat split; congruence.
Qed.

Lemma X17_counters_count_mod_2_24_witness :
  Big.counter_a (main_counts 3 (Big.mkLocals [] 0xFE 0xFF 0x01)) =
    ((value24 (Big.mkLocals [] 0xFE 0xFF 0x01) + Z.of_nat 3) mod 2 ^ 24) mod 256.
Proof.
  apply (X17_counters_count_mod_2_24 3 (Big.mkLocals [] 0xFE 0xFF 0x01));
    cbn [Big.counter_a Big.counter_b Big.counter_c]; lia.
Defined.

(** ** [main] of the big-digit variant *)

Lemma main_locals_ok : locals_ok Big.main_locals.
Proof.
  unfold locals_ok, printable, Big.main_locals.
  cbn [Big.buffer Big.counter_a Big.counter_b Big.counter_c nth length].
  repeat split; try lia. repeat (apply Forall_cons; [lia|]). apply Forall_nil.
Qed.

Lemma main_step_ok s : locals_ok s ->
  locals_ok (main_step s) /\ value24 (main_step s) = (value24 s + 1) mod 2 ^ 24.
Proof.
  intros ([Hlen Hd] & H5 & Ha & Hb & Hc).
  destruct (main_count_value s Ha Hb Hc) as (Hv & Hbuf & Ha' & Hb' & Hc').
  unfold main_step.
  assert (Hlen' : length (Big.buffer (Big.main_count s)) = 8%nat) by now rewrite Hbuf.
  rewrite (main_show_buffer _ Hlen'), Hbuf, H5.
  destruct (nibble_ranges _ Ha') as [Ha1 Ha2].
  destruct (nibble_ranges _ Hb') as [Hb1 Hb2].
  destruct (nibble_ranges _ Hc') as [Hc1 Hc2].
  split; [|exact Hv].
  unfold locals_ok, printable.
  cbn [Big.buffer Big.counter_a Big.counter_b Big.counter_c nth length].
  split; [split; [reflexivity|]|].
  - repeat (apply Forall_cons;
            [try lia; destruct (Z.testbit (Big.counter_a (Big.main_count s)) 5); lia|]).
    apply Forall_nil.
  - split; [reflexivity|]. split; [exact Ha'|]. split; [exact Hb' | exact Hc'].
Qed.

Lemma main_steps_ok n : forall s, locals_ok s ->
  locals_ok (main_steps n s) /\
  value24 (main_steps n s) = (value24 s + Z.of_nat n) mod 2 ^ 24 /\
  Forall printable (shown n s) /\ length (shown n s) = n.
Proof.
  induction n as [|n IH]; intros s Hs.
  - cbn [main_steps shown length]. rewrite Z.add_0_r.
    split; [exact Hs|]. split; [|split; [constructor | reflexivity]].
    destruct Hs as (_ & _ & Ha & Hb & Hc).
    symmetry. apply Z.mod_small. unfold value24. change (2 ^ 24) with 16777216. lia.
  - cbn [main_steps shown length].
    destruct (main_step_ok s Hs) as [Hs' Hv].
    destruct (IH _ Hs') as (Hok & Hv2 & Hsh & Hl).
    split; [exact Hok|]. split; [|split; [constructor; [apply Hs | exact Hsh] | now rewrite Hl]].
    rewrite Hv2, Hv, Zplus_mod_idemp_l. f_equal. lia.
Qed.

Lemma Big_main_loop_eq n : forall s st, locals_ok s ->
  Big.main_loop n s st =
  Some (main_steps n s,
        fetch_all (flat_map (flat_map digit_fetches) (shown n s))
          (plays (flat_map transaction_ops (map refresh_bytes (shown n s))) st)).
Proof.
  induction n as [|n IH]; intros s st Hs.
  - cbn [Big.main_loop main_steps shown map flat_map plays fold_left]. unfold ret.
    now rewrite fetch_all_nil.
  - cbn [Big.main_loop main_steps shown map flat_map]. unfold Big.main_body.
    destruct (main_step_ok s Hs) as [Hs' _].
    unfold bind at 1. unfold bind at 1.
    rewrite (Big_OLED_printB_effect _ (proj1 Hs) st). cbn [ret].
    fold (main_step s). rewrite (IH _ _ Hs').
    now rewrite plays_fetch_all, fetch_all_app, plays_app.
Qed.

Lemma refreshes_bytes bufs : Forall (Forall is_byte) (map refresh_bytes bufs).
Proof.
  induction bufs as [|b bufs IH]; [constructor|].
  cbn [map]. constructor; [apply refresh_bytes_ok | exact IH].
Qed.

(** X18.  From any register contents, [main] of the big-digit variant
    run up to any number [n] of rounds never fails: every buffer it
    prints holds 8 valid font digits, so no font read leaves the table.
    On the bus it makes the settings transaction and then exactly one
    512-byte refresh per round, and the bus is idle after each.  After
    [n] rounds its three counters hold [n] modulo 2^24. *)
Theorem X18_big_main_never_fails : forall (n : nat) (st : mcu),
  exists st1 st',
    Big.I2C_init st = Some (tt, st1) /\ idle st1 /\
    Big.main n st = Some (main_steps n Big.main_locals, st') /\
    value24 (main_steps n Big.main_locals) = Z.of_nat n mod 2 ^ 24 /\
    frames (heard st1 st') =
      transaction_frames (0x78 :: 0x00 :: firstn 15 Big.OLED_INIT_CMD) ++
      flat_map (fun buf => transaction_frames (0x78 :: 0x40 :: flat_map digit_stream buf))
               (shown n Big.main_locals) /\
    length (shown n Big.main_locals) = n /\
    Forall (fun buf => length buf = 8%nat /\ Forall (fun d => 0 <= d < 20) buf)
           (shown n Big.main_locals) /\
    idle st'.
Proof.
  intros n st.
  destruct (main_steps_ok n _ main_locals_ok) as (_ & Hv & Hsh & Hl).
  set (txs := (0x78 :: 0x00 :: firstn 15 Big.OLED_INIT_CMD)
              :: map refresh_bytes (shown n Big.main_locals)).
  set (f := table_fetches INIT_CMD Big.OLED_INIT_CMD 0 15 ++
            flat_map (flat_map digit_fetches) (shown n Big.main_locals)).
  assert (Hrun : forall s,
            Big.main n s =
            Some (main_steps n Big.main_locals,
                  fetch_all f (plays ([INIT_DDRB; INIT_PORTB] ++ flat_map transaction_ops txs) s))).
  { intros s. unfold Big.main.
    rewrite (bind_Some _ _ _ _ _ (Big_OLED_init_effect s)).
    rewrite (Big_main_loop_eq n _ _ main_locals_ok).
    unfold f, txs. rewrite plays_fetch_all, fetch_all_app.
    cbn [flat_map]. rewrite app_nil_r, <- plays_app, <- app_assoc. reflexivity. }
  destruct (after_init_run
              (fun s => Some (tt, fetch_all f
                 (plays ([INIT_DDRB; INIT_PORTB] ++ flat_map transaction_ops txs) s)))
              txs f st (fun s => eq_refl))
    as (st1 & st' & Hr1 & Hi1 & Hr & Hf & _ & Hi').
  { unfold txs. constructor; [apply is_byteb_all; reflexivity | apply refreshes_bytes]. }
  exists st1, st'. split; [exact Hr1|]. split; [exact Hi1|].
  split; [rewrite Hrun; congruence|].
  split; [exact Hv|].
  split; [|split; [exact Hl | split; [exact Hsh | exact Hi']]].
  rewrite Hf. unfold txs. cbn [flat_map]. f_equal.
  rewrite flat_map_map. reflexivity.
Qed.

(** ** The whole firmware on the port *)

Lemma events_app l1 : forall l2 d p,
  events (l1 ++ l2) d p =
  events l1 d p ++ events l2 (fst (final_regs l1 d p)) (snd (final_regs l1 d p)).
Proof.
  induction l1 as [|a l1 IH]; intros l2 d p; [reflexivity|].
  cbn [app events final_regs]. destruct (act_regs a d p) as [d' p'].
  cbn [app]. now rewrite IH.
Qed.

Lemma events_open_drain l : forall d p, latch_low p -> Forall open_drain (events l d p).
Proof.
  induction l as [|a l IH]; intros d p Hp; [constructor|].
  destruct (act_regs_levels a d p Hp) as [Hp' _].
  cbn [events]. destruct (act_regs a d p) as [d' p']. cbn [snd] in Hp'.
  constructor; [now apply latch_low_open_drain | now apply IH].
Qed.

(** After the two writes of [I2C_init], whatever follows keeps the lines
    open-drain and the other pins as they are. *)
Lemma init_then_open_drain l f st :
  Forall open_drain (emitted st (fetch_all f (plays ([INIT_DDRB; INIT_PORTB] ++ l) st))) /\
  same_other_pins st (fetch_all f (plays ([INIT_DDRB; INIT_PORTB] ++ l) st)).
Proof.
  split.
  - replace (emitted st (fetch_all f (plays ([INIT_DDRB; INIT_PORTB] ++ l) st)))
      with (events ([INIT_DDRB; INIT_PORTB] ++ l) (DDRB st) (PORTB st))
      by (symmetry; apply emitted_app; unfold fetch_all; cbn [trace]; apply plays_trace).
    rewrite events_app. apply Forall_app. split.
    + destruct (I2C_init_any st) as (st1 & e1 & e2 & Hr & _ & Ht & H1 & H2).
      rewrite (I2C_init_effect st), fetch_all_nil in Hr.
      assert (E : st1 = plays [INIT_DDRB; INIT_PORTB] st) by congruence.
      rewrite E, plays_trace in Ht. apply app_inv_head in Ht. rewrite Ht.
      constructor; [exact H1 | constructor; [exact H2 | constructor]].
    + apply events_open_drain.
      pose proof (I2C_init_idle st) as Hi. apply idle_latch_low in Hi.
      rewrite plays_eq in Hi. exact Hi.
  - pose proof (same_other_pins_plays ([INIT_DDRB; INIT_PORTB] ++ l) st) as H.
    unfold same_other_pins, fetch_all in *. cbn [DDRB PORTB]. exact H.
Qed.

Lemma act_regs_other_pins a d p :
  map (Z.testbit (fst (act_regs a d p))) other_pins = map (Z.testbit d) other_pins /\
  map (Z.testbit (snd (act_regs a d p))) other_pins = map (Z.testbit p) other_pins.
Proof.
  pose proof (same_other_pins_play a (mkMCU d p (fun _ => 0) O [] [])) as H.
  rewrite play_eq in H. exact H.
Qed.

(** Every event of a run of pin actions shows the other pins as they were
    before the run. *)
Lemma events_other_pins l : forall d p st, DDRB st = d -> PORTB st = p ->
  Forall (other_pins_kept st) (events l d p).
Proof.
  induction l as [|a l IH]; intros d p st Hd Hp; [constructor|].
  cbn [events]. destruct (act_regs_other_pins a d p) as [A B].
  destruct (act_regs a d p) as [d' p']. cbn [fst snd] in A, B.
  constructor.
  - unfold other_pins_kept. cbn [ev_DDRB ev_PORTB]. rewrite Hd, Hp. now split.
  - eapply Forall_impl;
      [|apply (IH d' p' (mkMCU d' p' (PINB st) O [] [])); reflexivity].
    intros e [A' B']. unfold other_pins_kept. cbn [DDRB PORTB] in A', B'.
    rewrite Hd, Hp. split; congruence.
Qed.

Lemma emitted_other_pins l f st :
  Forall (other_pins_kept st) (emitted st (fetch_all f (plays l st))).
Proof.
  replace (emitted st (fetch_all f (plays l st))) with (events l (DDRB st) (PORTB st))
    by (symmetry; apply emitted_app; unfold fetch_all; cbn [trace]; apply plays_trace).
  now apply events_other_pins.
Qed.

Lemma Big_main_eq n st :
  Big.main n st =
  Some (main_steps n Big.main_locals,
        fetch_all (table_fetches INIT_CMD Big.OLED_INIT_CMD 0 15 ++
                   flat_map (flat_map digit_fetches) (shown n Big.main_locals))
          (plays ([INIT_DDRB; INIT_PORTB] ++
                  flat_map transaction_ops
                    ((0x78 :: 0x00 :: firstn 15 Big.OLED_INIT_CMD)
                     :: map refresh_bytes (shown n Big.main_locals))) st)).
Proof.
  unfold Big.main.
  rewrite (bind_Some _ _ _ _ _ (Big_OLED_init_effect st)).
  rewrite (Big_main_loop_eq n _ _ main_locals_ok).
  rewrite plays_fetch_all, fetch_all_app.
  cbn [flat_map]. rewrite app_nil_r, <- plays_app, <- app_assoc. reflexivity.
Qed.

(** X19.  Both firmwares as a whole, from any register contents and up
    to any number of rounds of their loops: after every single register
    write SDA and SCL are released or driven LOW, never driven HIGH, and
    after every single register write the direction and latch bits of the
    other six pins of port B are what they were at the start; so they are
    at the end. *)
Theorem X19_firmware_open_drain : forall (n : nat) (st : mcu),
  (exists st',
     Text.main n st = Some (tt, st') /\
     Forall (fun e => (sda_drive e = Released \/ sda_drive e = DrivenLow) /\
                      (scl_drive e = Released \/ scl_drive e = DrivenLow))
            (emitted st st') /\
     Forall (fun e =>
               map (Z.testbit (ev_DDRB e)) [1; 3; 4; 5; 6; 7] =
                 map (Z.testbit (DDRB st)) [1; 3; 4; 5; 6; 7] /\
               map (Z.testbit (ev_PORTB e)) [1; 3; 4; 5; 6; 7] =
                 map (Z.testbit (PORTB st)) [1; 3; 4; 5; 6; 7])
            (emitted st st') /\
     trace st' = trace st ++ emitted st st' /\
     map (Z.testbit (DDRB st')) [1; 3; 4; 5; 6; 7] =
       map (Z.testbit (DDRB st)) [1; 3; 4; 5; 6; 7] /\
     map (Z.testbit (PORTB st')) [1; 3; 4; 5; 6; 7] =
       map (Z.testbit (PORTB st)) [1; 3; 4; 5; 6; 7]) /\
  (exists s st',
     Big.main n st = Some (s, st') /\
     Forall (fun e => (sda_drive e = Released \/ sda_drive e = DrivenLow) /\
                      (scl_drive e = Released \/ scl_drive e = DrivenLow))
            (emitted st st') /\
     Forall (fun e =>
               map (Z.testbit (ev_DDRB e)) [1; 3; 4; 5; 6; 7] =
                 map (Z.testbit (DDRB st)) [1; 3; 4; 5; 6; 7] /\
               map (Z.testbit (ev_PORTB e)) [1; 3; 4; 5; 6; 7] =
                 map (Z.testbit (PORTB st)) [1; 3; 4; 5; 6; 7])
            (emitted st st') /\
     trace st' = trace st ++ emitted st st' /\
     map (Z.testbit (DDRB st')) [1; 3; 4; 5; 6; 7] =
       map (Z.testbit (DDRB st)) [1; 3; 4; 5; 6; 7] /\
     map (Z.testbit (PORTB st')) [1; 3; 4; 5; 6; 7] =
       map (Z.testbit (PORTB st)) [1; 3; 4; 5; 6; 7]).
Proof.
  intros n st.
  assert (Htr : forall l f,
            trace (fetch_all f (plays l st)) =
            trace st ++ emitted st (fetch_all f (plays l st))).
  { intros l f.
    rewrite (emitted_app st _ (events l (DDRB st) (PORTB st)));
      unfold fetch_all; cbn [trace]; apply plays_trace. }
  split.
  - eexists. split; [apply (Text_main_effect n st)|].
    destruct (init_then_open_drain
                (flat_map transaction_ops
                   (text_setup_transactions ++ concat (repeat text_body_transactions n)))
                (table_fetches INIT_CMD Text.OLED_INIT_CMD 0 18 ++
                 concat (repeat (string_fetches 0 (removelast Text.Message1) ++
                                 string_fetches 0 (removelast Text.Message2) ++
                                 flat_map char_fetches (span 32 64)) n)) st)
      as [Ho [Hd Hp]].
    split; [exact Ho|]. split; [apply emitted_other_pins|].
    split; [apply Htr|]. split; [exact Hd | exact Hp].
  - eexists _, _. split; [apply (Big_main_eq n st)|].
    destruct (init_then_open_drain
                (flat_map transaction_ops
                   ((0x78 :: 0x00 :: firstn 15 Big.OLED_INIT_CMD)
                    :: map refresh_bytes (shown n Big.main_locals)))
                (table_fetches INIT_CMD Big.OLED_INIT_CMD 0 15 ++
                 flat_map (flat_map digit_fetches) (shown n Big.main_locals)) st)
      as [Ho [Hd Hp]].
    split; [exact Ho|]. split; [apply emitted_other_pins|].
    split; [apply Htr|]. split; [exact Hd | exact Hp].
Qed.
